(** * DubTransit: the simulated vehicle position engine

    A shallow embedding of the vehicle position generator
    ([generateSimulatedVehiclesForRoute], in its two copies
    [components/MapScreen.tsx] and [src/services/transportService.ts]),
    of the distance helper [calculateDistance] and of the marker
    interpolator [SmoothMarker].

    Numbers.  A JavaScript number is modelled as an exact real or one of
    the three special values [Infinity], [-Infinity], [NaN]; rounding to
    binary64 and the sign of zero are not modelled.  The reals are needed
    for the trigonometry of [calculateDistance].  All statements about
    coordinates are therefore statements in exact arithmetic.

    Arrays are lists read with [nth]; the loops over array indices are
    folds over [seq] or, for the [while] loop, a fixpoint with fuel.

    Dates.  A [Date] is the record of what the generators read from it.
    A valid date is given by its epoch time and a fixed offset of the
    local clock from UTC; an invalid date reads [NaN] everywhere.

    Around the engine the development also covers the simulated feed
    ([subscribeToVehicles]), the popup of a stop ([handleStopClick],
    [estimateArrival]), the effect that keeps the vehicle markers of the
    map in step with the visible vehicles, and [deriveRouteEndpoints].

    Strings.  Identifiers are strings of the Standard Library, built by
    concatenation.  The text functions behind [deriveRouteEndpoints]
    look at single characters, some outside ASCII, and work on the list
    of the UTF-16 code units of a string. *)

From Stdlib Require Import Reals Lra Lia ZArith Bool String Ascii List.
From Stdlib Require Import DecimalString.
Import ListNotations.

Open Scope R_scope.

(** ** JavaScript numbers *)

Module JS.

Inductive num : Type :=
| Fin (r : R)
| PInf
| NInf
| NaN.

Definition Rltb (x y : R) : bool := if Rlt_dec x y then true else false.
Definition Reqb (x y : R) : bool := if Req_dec_T x y then true else false.

Definition infinity (positive : bool) : num := if positive then PInf else NInf.

Definition neg (a : num) : num :=
  match a with
  | Fin x => Fin (- x)
  | PInf => NInf
  | NInf => PInf
  | NaN => NaN
  end.

(** [a + b] *)
Definition add (a b : num) : num :=
  match a, b with
  | NaN, _ | _, NaN => NaN
  | Fin x, Fin y => Fin (x + y)
  | PInf, NInf | NInf, PInf => NaN
  | PInf, _ | _, PInf => PInf
  | NInf, _ | _, NInf => NInf
  end.

(** [a - b] *)
Definition sub (a b : num) : num :=
  match a, b with
  | Fin x, Fin y => Fin (x - y)
  | _, _ => add a (neg b)
  end.

(** [a * b] *)
Definition mul (a b : num) : num :=
  match a, b with
  | NaN, _ | _, NaN => NaN
  | Fin x, Fin y => Fin (x * y)
  | Fin x, PInf | PInf, Fin x => if Reqb x 0 then NaN else infinity (Rltb 0 x)
  | Fin x, NInf | NInf, Fin x => if Reqb x 0 then NaN else infinity (Rltb x 0)
  | PInf, PInf | NInf, NInf => PInf
  | PInf, NInf | NInf, PInf => NInf
  end.

(** [a / b]; a zero divisor is taken as [+0]. *)
Definition div (a b : num) : num :=
  match a, b with
  | NaN, _ | _, NaN => NaN
  | Fin x, Fin y =>
      if Reqb y 0
      then (if Reqb x 0 then NaN else infinity (Rltb 0 x))
      else Fin (x / y)
  | Fin _, (PInf | NInf) => Fin 0
  | PInf, Fin y => infinity (negb (Rltb y 0))
  | NInf, Fin y => infinity (Rltb y 0)
  | (PInf | NInf), (PInf | NInf) => NaN
  end.

(** Rounding towards zero, as the quotient of [%] is taken. *)
Definition Ztrunc (x : R) : Z := if Rltb x 0 then Zceil x else Zfloor x.

(** [a % b]: the remainder has the sign of the dividend. *)
Definition rem (a b : num) : num :=
  match a, b with
  | NaN, _ | _, NaN => NaN
  | (PInf | NInf), _ => NaN
  | Fin x, (PInf | NInf) => Fin x
  | Fin x, Fin y => if Reqb y 0 then NaN else Fin (x - y * IZR (Ztrunc (x / y)))
  end.

(** [a < b] *)
Definition ltb (a b : num) : bool :=
  match a, b with
  | NaN, _ | _, NaN => false
  | Fin x, Fin y => Rltb x y
  | _, NInf => false
  | NInf, _ => true
  | PInf, _ => false
  | _, PInf => true
  end.

(** [a > b] *)
Definition gtb (a b : num) : bool := ltb b a.

(** [a === b] on numbers *)
Definition strictEq (a b : num) : bool :=
  match a, b with
  | Fin x, Fin y => Reqb x y
  | PInf, PInf | NInf, NInf => true
  | _, _ => false
  end.

(** Truthiness of a number: [0] and [NaN] are falsy. *)
Definition truthy (a : num) : bool :=
  match a with
  | Fin x => negb (Reqb x 0)
  | NaN => false
  | _ => true
  end.

(** [a || b] on numbers *)
Definition orElse (a b : num) : num := if truthy a then a else b.

Module Math.

(** [Math.min(a, b)] *)
Definition min (a b : num) : num :=
  match a, b with
  | NaN, _ | _, NaN => NaN
  | _, _ => if ltb b a then b else a
  end.

Definition PI : num := Fin Rtrigo1.PI.

(** [Math.sin], [Math.cos], [Math.sqrt] *)
Definition sin (a : num) : num :=
  match a with Fin x => Fin (Rtrigo_def.sin x) | _ => NaN end.

Definition cos (a : num) : num :=
  match a with Fin x => Fin (Rtrigo_def.cos x) | _ => NaN end.

Definition sqrt (a : num) : num :=
  match a with
  | Fin x => if Rltb x 0 then NaN else Fin (R_sqrt.sqrt x)
  | PInf => PInf
  | _ => NaN
  end.

(** The angle of the point [(x, y)], in [(-PI, PI]]. *)
Definition Ratan2 (y x : R) : R :=
  if Rltb 0 x then atan (y / x)
  else if Rltb x 0 then
    (if Rltb y 0 then atan (y / x) - Rtrigo1.PI else atan (y / x) + Rtrigo1.PI)
  else if Rltb 0 y then Rtrigo1.PI / 2
  else if Rltb y 0 then - (Rtrigo1.PI / 2)
  else 0.

(** [Math.atan2(y, x)] *)
Definition atan2 (y x : num) : num :=
  match y, x with
  | NaN, _ | _, NaN => NaN
  | Fin b, Fin a => Fin (Ratan2 b a)
  | Fin _, PInf => Fin 0
  | Fin b, NInf => if Rltb b 0 then Fin (- Rtrigo1.PI) else Fin Rtrigo1.PI
  | PInf, Fin _ => Fin (Rtrigo1.PI / 2)
  | NInf, Fin _ => Fin (- (Rtrigo1.PI / 2))
  | PInf, PInf => Fin (Rtrigo1.PI / 4)
  | PInf, NInf => Fin (3 * Rtrigo1.PI / 4)
  | NInf, PInf => Fin (- (Rtrigo1.PI / 4))
  | NInf, NInf => Fin (- (3 * Rtrigo1.PI / 4))
  end.

End Math.

(** A number printed inside a template literal; only array indices and
    direction numbers are printed by the code, so naturals suffice. *)
Definition natToString (n : nat) : string :=
  NilZero.string_of_uint (Nat.to_uint n).

End JS.

Import JS.

Declare Scope js_scope.
Delimit Scope js_scope with js.
Bind Scope js_scope with num.
Infix "+" := add : js_scope.
Infix "-" := sub : js_scope.
Infix "*" := mul : js_scope.
Infix "/" := div : js_scope.
Infix "mod" := rem : js_scope.
Infix "<?" := ltb : js_scope.
Infix ">?" := gtb : js_scope.
Infix "===" := strictEq (at level 70, no associativity) : js_scope.
Infix "||" := orElse : js_scope.

Coercion Fin : R >-> num.

Definition isFinite (a : num) : Prop := exists x : R, a = Fin x.

(** ** Data model (types.ts) *)

Record Route : Type := {
  route_id : string;
  route_short_name : string;
  route_long_name : string;
  route_type : string;
  route_color : option string;
  agency_id : string;
  direction_names : option (list string)
}.

(** [LiveVehicle]; its optional [route_id] is named [vehicle_route_id]
    here, and the untyped [updated_at], never written by the generators,
    is left out. *)
Record LiveVehicle : Type := {
  vehicle_id : string;
  trip_id : option string;
  vehicle_route_id : option string;
  latitude : num;
  longitude : num;
  timestamp : num;
  direction_id : option nat;
  heading : option num
}.

(** A [Date] as the generators observe it: local hours, minutes and
    seconds, and the epoch time in milliseconds. *)
Record Date : Type := {
  getHours : num;
  getMinutes : num;
  getSeconds : num;
  getTime : num
}.

(** The date at [epochMs] milliseconds after the epoch, read on a clock
    that runs [utcOffsetMinutes] ahead of UTC. *)
Definition dateAt (utcOffsetMinutes epochMs : Z) : Date :=
  let localMs := (epochMs + utcOffsetMinutes * 60000)%Z in
  {| getHours := Fin (IZR ((localMs / 3600000) mod 24));
     getMinutes := Fin (IZR ((localMs / 60000) mod 60));
     getSeconds := Fin (IZR ((localMs / 1000) mod 60));
     getTime := Fin (IZR epochMs) |}.

(** [new Date(NaN)], or a date parsed from a malformed string. *)
Definition invalidDate : Date :=
  {| getHours := NaN; getMinutes := NaN; getSeconds := NaN; getTime := NaN |}.

(** A path point [[lat, lon]]. *)
Definition Point : Type := (num * num)%type.

Definition point (p : R * R) : Point := (Fin (fst p), Fin (snd p)).

(** Reading an array outside its bounds gives [undefined], which
    arithmetic turns into [NaN]. *)
Definition undefinedPoint : Point := (NaN, NaN).

Definition coordinates (v : LiveVehicle) : Point := (latitude v, longitude v).

(** ** Geometry *)

(** utils.ts *)
Module Utils.

Definition deg2rad (deg : num) : num := (deg * (Math.PI / 180))%js.

Definition calculateDistance (lat1 lon1 lat2 lon2 : num) : num :=
  let earthR : num := 6371 in
  let dLat := deg2rad (lat2 - lat1) in
  let dLon := deg2rad (lon2 - lon1) in
  let a :=
    (Math.sin (dLat / 2) * Math.sin (dLat / 2) +
     Math.cos (deg2rad lat1) * Math.cos (deg2rad lat2) *
     Math.sin (dLon / 2) * Math.sin (dLon / 2))%js in
  let c := (2 * Math.atan2 (Math.sqrt a) (Math.sqrt (1 - a)))%js in
  let d := (earthR * c)%js in
  d.

End Utils.

(** ** The parts the two generators share word for word *)

(** [((fraction % 1) + 1) % 1] *)
Definition wrap (fraction : num) : num := ((fraction mod 1 + 1) mod 1)%js.

Section PathLength.

Variable calculateDistance : num -> num -> num -> num -> num.

(** One turn of the loop [for (let i = 1; i < shapePoints.length; i++)]. *)
Definition lengthStep (shapePoints : list Point)
    (state : list num * num) (i : nat) : list num * num :=
  let '(cumulative, total) := state in
  let '(lat1, lon1) := nth (i - 1) shapePoints undefinedPoint in
  let '(lat2, lon2) := nth i shapePoints undefinedPoint in
  let d := calculateDistance lat1 lon1 lat2 lon2 in
  let total := (total + d)%js in
  (cumulative ++ [total], total).

(** The arrays [cumulative] and the sum [total] after the loop. *)
Definition pathLengths (shapePoints : list Point) : list num * num :=
  fold_left (lengthStep shapePoints)
            (seq 1 (length shapePoints - 1)) ([Fin 0], Fin 0).

End PathLength.

(** [while (segIndex < cumulative.length - 1 &&
           cumulative[segIndex + 1] < targetDist) segIndex++;]
    The loop runs at most [cumulative.length] times, which is the fuel
    [findSegment] gives it. *)
Fixpoint seekSegment (cumulative : list num) (targetDist : num)
    (fuel segIndex : nat) : nat :=
  match fuel with
  | O => segIndex
  | S fuel' =>
      if (segIndex <? length cumulative - 1)%nat
         && (nth (segIndex + 1) cumulative NaN <? targetDist)%js
      then seekSegment cumulative targetDist fuel' (segIndex + 1)
      else segIndex
  end.

Definition findSegment (cumulative : list num) (targetDist : num) : nat :=
  seekSegment cumulative targetDist (length cumulative) 0.

(** [for (let i = 0; i < n; i++) vehicles.push(make(i))] *)
Definition pushEach (make : nat -> LiveVehicle) (n : nat)
    (vehicles : list LiveVehicle) : list LiveVehicle :=
  fold_left (fun vehicles i => vehicles ++ [make i]) (seq 0 n) vehicles.

(** ** components/MapScreen.tsx *)

Module MapScreen.

Definition HEADWAY_MIN : R := 10.
Definition TRIP_MIN : R := 60.

Definition busesPerDirection : nat :=
  Z.to_nat (Z.max 1 (Zceil (TRIP_MIN / HEADWAY_MIN))).

Definition minutesSinceMidnight (now : Date) : num :=
  (getHours now * 60 + getMinutes now + getSeconds now / 60)%js.

(** [`SIM-${route.route_id}-${dir}-${index}`] *)
Definition vehicleId (route : Route) (dir index : nat) : string :=
  ("SIM-" ++ route_id route ++ "-" ++ natToString dir ++ "-"
   ++ natToString index)%string.

(** [`${route.route_id}-sim-${dir}-${index}`] *)
Definition tripId (route : Route) (dir index : nat) : string :=
  (route_id route ++ "-sim-" ++ natToString dir ++ "-"
   ++ natToString index)%string.

(** The interpolation factor inside the located segment. *)
Definition segFraction (cumulative : list num) (targetDist : num)
    (segIndex : nat) : num :=
  let segStart := nth segIndex cumulative NaN in
  let segEnd := nth (Nat.min (segIndex + 1) (length cumulative - 1)) cumulative NaN in
  if (segEnd === segStart)%js then Fin 0
  else ((targetDist - segStart) / (segEnd - segStart))%js.

(** The coordinate computed by [makeVehicleAtFraction]. *)
Definition positionAtFraction (shapePoints : list Point)
    (cumulative : list num) (total fraction : num) : Point :=
  let f := wrap fraction in
  let targetDist := (f * total)%js in
  let segIndex := findSegment cumulative targetDist in
  let segFraction := segFraction cumulative targetDist segIndex in
  let '(lat1, lon1) := nth segIndex shapePoints undefinedPoint in
  let '(lat2, lon2) :=
    nth (Nat.min (segIndex + 1) (length shapePoints - 1)) shapePoints
        undefinedPoint in
  let lat := (lat1 + (lat2 - lat1) * segFraction)%js in
  let lon := (lon1 + (lon2 - lon1) * segFraction)%js in
  (lat, lon).

(** The vehicle that [makeVehicleAtFraction] pushes. *)
Definition makeVehicleAtFraction (route : Route) (shapePoints : list Point)
    (cumulative : list num) (total : num) (now : Date)
    (fraction : num) (index dir : nat) : LiveVehicle :=
  let '(lat, lon) := positionAtFraction shapePoints cumulative total fraction in
  let id := vehicleId route dir index in
  {| vehicle_id := id;
     trip_id := Some (tripId route dir index);
     vehicle_route_id := Some (route_id route);
     latitude := lat;
     longitude := lon;
     timestamp := getTime now;
     direction_id := Some dir;
     heading := None |}.

(** [prog] of slot [i]: [(minutesSinceMidnight - i * HEADWAY_MIN) / TRIP_MIN] *)
Definition progress (now : Date) (i : nat) : num :=
  let startOffset := (Fin (INR i) * HEADWAY_MIN)%js in
  ((minutesSinceMidnight now - startOffset) / TRIP_MIN)%js.

(** [clock] is what [new Date()] would read; it is used only when the
    caller leaves [now] out.  [shapePoints] is an array, as its type says,
    so of [!shapePoints || shapePoints.length < 2] the length test
    remains. *)
Definition generateSimulatedVehiclesForRoute (clock : Date) (route : Route)
    (shapePoints : list Point) (now : option Date) : list LiveVehicle :=
  let now := match now with Some d => d | None => clock end in
  if (length shapePoints <? 2)%nat then [] else
  let '(cumulative, total) := pathLengths Utils.calculateDistance shapePoints in
  if (total === 0)%js then [] else
  let make := makeVehicleAtFraction route shapePoints cumulative total now in
  let vehicles := [] in
  let vehicles :=
    pushEach (fun i => make (progress now i) i 0%nat) busesPerDirection vehicles in
  let vehicles :=
    pushEach (fun i => make (1 - progress now i)%js i 1%nat) busesPerDirection vehicles in
  vehicles.

End MapScreen.

(** ** src/services/transportService.ts *)

Module TransportService.

Definition calculateDistance (lat1 lon1 lat2 lon2 : num) : num :=
  let earthR : num := 6371 in
  let dLat := ((lat2 - lat1) * Math.PI / 180)%js in
  let dLon := ((lon2 - lon1) * Math.PI / 180)%js in
  let a :=
    (Math.sin (dLat / 2) * Math.sin (dLat / 2) +
     Math.cos (lat1 * Math.PI / 180) * Math.cos (lat2 * Math.PI / 180) *
     Math.sin (dLon / 2) * Math.sin (dLon / 2))%js in
  let c := (2 * Math.atan2 (Math.sqrt a) (Math.sqrt (1 - a)))%js in
  (earthR * c)%js.

Definition HEADWAY_MIN : R := 15.
Definition TRIP_DURATION_MIN : R := 45.

Definition busesPerDir : nat := Z.to_nat (Zceil (TRIP_DURATION_MIN / HEADWAY_MIN)).

Definition timeVal (now : Date) : num :=
  (getHours now * 60 + getMinutes now + getSeconds now / 60)%js.

(** [`GTFS-${route.route_id}-${dir}-${idx}`] *)
Definition vehicleId (route : Route) (dir idx : nat) : string :=
  ("GTFS-" ++ route_id route ++ "-" ++ natToString dir ++ "-"
   ++ natToString idx)%string.

(** [`TRIP-${route.route_id}-${idx}`] *)
Definition tripId (route : Route) (idx : nat) : string :=
  ("TRIP-" ++ route_id route ++ "-" ++ natToString idx)%string.

(** The divisor of [segPct]: [(segEnd - segStart || 1)]. *)
Definition segDivisor (cumulative : list num) (i : nat) : num :=
  let segStart := nth i cumulative NaN in
  let segEnd := nth (Nat.min (i + 1) (length cumulative - 1)) cumulative NaN in
  (segEnd - segStart || 1)%js.

Definition segPct (cumulative : list num) (targetDist : num) (i : nat) : num :=
  let segStart := nth i cumulative NaN in
  ((targetDist - segStart) / segDivisor cumulative i)%js.

(** The coordinate computed by [placeVehicle]. *)
Definition positionAtPct (shapePoints : list Point)
    (cumulative : list num) (totalDistance pct : num) : Point :=
  let p := wrap pct in
  let targetDist := (p * totalDistance)%js in
  let i := findSegment cumulative targetDist in
  let segPct := segPct cumulative targetDist i in
  let '(lat1, lon1) := nth i shapePoints undefinedPoint in
  let '(lat2, lon2) :=
    nth (Nat.min (i + 1) (length shapePoints - 1)) shapePoints undefinedPoint in
  let lat := (lat1 + (lat2 - lat1) * segPct)%js in
  let lon := (lon1 + (lon2 - lon1) * segPct)%js in
  (lat, lon).

(** The vehicle that [placeVehicle] pushes. *)
Definition placeVehicle (route : Route) (shapePoints : list Point)
    (cumulative : list num) (totalDistance : num) (now : Date)
    (pct : num) (dir idx : nat) : LiveVehicle :=
  let '(lat, lon) := positionAtPct shapePoints cumulative totalDistance pct in
  {| vehicle_id := vehicleId route dir idx;
     trip_id := Some (tripId route idx);
     vehicle_route_id := Some (route_id route);
     latitude := lat;
     longitude := lon;
     timestamp := getTime now;
     direction_id := Some dir;
     heading := Some (Fin 0) |}.

(** Outbound [prog] of slot [i]. *)
Definition progressOutbound (now : Date) (i : nat) : num :=
  let offset := (Fin (INR i) * HEADWAY_MIN)%js in
  ((timeVal now - offset) / TRIP_DURATION_MIN)%js.

(** Inbound [prog] of slot [i], already reversed. *)
Definition progressInbound (now : Date) (i : nat) : num :=
  let offset := (Fin (INR i) * HEADWAY_MIN + Fin HEADWAY_MIN / 2)%js in
  (1 - (timeVal now - offset) / TRIP_DURATION_MIN)%js.

Definition generateSimulatedVehiclesForRoute (route : Route)
    (shapePoints : list Point) (now : Date) : list LiveVehicle :=
  if (length shapePoints <? 2)%nat then [] else
  let '(cumulative, totalDistance) := pathLengths calculateDistance shapePoints in
  let place := placeVehicle route shapePoints cumulative totalDistance now in
  let vehicles := [] in
  let vehicles :=
    pushEach (fun i => place (progressOutbound now i) 0%nat i) busesPerDir vehicles in
  let vehicles :=
    pushEach (fun i => place (progressInbound now i) 1%nat i) busesPerDir vehicles in
  vehicles.

End TransportService.

(** ** The marker interpolator (components/MapScreen.tsx) *)

Module SmoothMarker.

(** Leaflet's [LatLng]. *)
Record LatLng : Type := { lat : num; lng : num }.

(** A marker: the position Leaflet displays, which [getLatLng()] returns
    and [super.setLatLng] writes, and the fields the subclass adds. *)
Record t : Type := {
  latlng : LatLng;
  _targetLatLng : LatLng;
  _startLatLng : LatLng;
  _startTime : num;
  _duration : num;
  _animationFrameId : option nat
}.

(** The frames requested from the browser and not yet run or cancelled. *)
Record Frames : Type := { nextId : nat; pending : list nat }.

Definition requestAnimationFrame (frames : Frames) : nat * Frames :=
  (nextId frames,
   {| nextId := S (nextId frames); pending := nextId frames :: pending frames |}).

Definition cancelAnimationFrame (id : nat) (frames : Frames) : Frames :=
  {| nextId := nextId frames;
     pending := filter (fun id' => negb (Nat.eqb id' id)) (pending frames) |}.

(** [constructor(latlng, options)] *)
Definition create (position : LatLng) : t :=
  {| latlng := position;
     _targetLatLng := position;
     _startLatLng := position;
     _startTime := Fin 0;
     _duration := Fin 1000;
     _animationFrameId := None |}.

Definition getLatLng (marker : t) : LatLng := latlng marker.

(** [super.setLatLng(position)] *)
Definition setLatLng (position : LatLng) (marker : t) : t :=
  {| latlng := position;
     _targetLatLng := _targetLatLng marker;
     _startLatLng := _startLatLng marker;
     _startTime := _startTime marker;
     _duration := _duration marker;
     _animationFrameId := _animationFrameId marker |}.

Definition setAnimationFrameId (id : option nat) (marker : t) : t :=
  {| latlng := latlng marker;
     _targetLatLng := _targetLatLng marker;
     _startLatLng := _startLatLng marker;
     _startTime := _startTime marker;
     _duration := _duration marker;
     _animationFrameId := id |}.

(** [_animate()], with [now] the reading of [performance.now()]. *)
Definition _animate (now : num) (state : t * Frames) : t * Frames :=
  let '(marker, frames) := state in
  let elapsed := (now - _startTime marker)%js in
  let progress := Math.min (elapsed / _duration marker)%js (Fin 1) in
  let start := _startLatLng marker in
  let target := _targetLatLng marker in
  let lat' := (lat start + (lat target - lat start) * progress)%js in
  let lng' := (lng start + (lng target - lng start) * progress)%js in
  let marker := setLatLng {| lat := lat'; lng := lng' |} marker in
  if (progress <? Fin 1)%js
  then
    let '(id, frames) := requestAnimationFrame frames in
    (setAnimationFrameId (Some id) marker, frames)
  else
    let marker := setAnimationFrameId None marker in
    (setLatLng target marker, frames).

Section Interpolator.

(** Leaflet's [LatLng.distanceTo], in metres; Leaflet is not part of
    the repository. *)
Variable distanceTo : LatLng -> LatLng -> num.

(** [setLatLngSmooth(position, duration = 1000)]; [now] and [now'] are
    the readings of [performance.now()] in this method and in the call
    of [_animate] it makes.  [if (this._animationFrameId)] holds for
    an id other than [null] and [0]. *)
Definition setLatLngSmooth (position : LatLng) (duration : option num)
    (now now' : num) (state : t * Frames) : t * Frames :=
  let '(marker, frames) := state in
  let duration := match duration with Some d => d | None => Fin 1000 end in
  let frames :=
    match _animationFrameId marker with
    | Some id => if Nat.eqb id 0 then frames else cancelAnimationFrame id frames
    | None => frames
    end in
  let marker :=
    {| latlng := latlng marker;
       _targetLatLng := position;
       _startLatLng := getLatLng marker;
       _startTime := now;
       _duration := duration;
       _animationFrameId := _animationFrameId marker |} in
  if (distanceTo (_startLatLng marker) (_targetLatLng marker) >? Fin 500)%js
  then (setLatLng (_targetLatLng marker) marker, frames)
  else _animate now' (marker, frames).

End Interpolator.

(** Modelled from the spec: Leaflet's [distanceTo] is missing from the
    sources; section 4.5 compares the great-circle distance of section
    4.1 (the haversine formula on a sphere of radius 6371 km) with a
    threshold of 500 metres. *)
Definition greatCircleMetres (a b : LatLng) : num :=
  (Fin 1000 * Utils.calculateDistance (lat a) (lng a) (lat b) (lng b))%js.

End SmoothMarker.

(** ** Exact quantities used to state the properties *)

(** The fractional part, [x - floor x]. *)
Definition frac (x : R) : R := x - IZR (Zfloor x).

(** The quantity [a] of [calculateDistance] on finite coordinates, given
    in degrees. *)
Definition haversine (lat1 lon1 lat2 lon2 : R) : R :=
  let dLat := (lat2 - lat1) * (PI / 180) in
  let dLon := (lon2 - lon1) * (PI / 180) in
  sin (dLat / 2) * sin (dLat / 2) +
  cos (lat1 * (PI / 180)) * cos (lat2 * (PI / 180)) *
  sin (dLon / 2) * sin (dLon / 2).

Definition centralAngle (a : R) : R := 2 * Math.Ratan2 (sqrt a) (sqrt (1 - a)).

Definition greatCircleKm (lat1 lon1 lat2 lon2 : R) : R :=
  6371 * centralAngle (haversine lat1 lon1 lat2 lon2).

(** Length of the path [pts] from its first point to point [k]. *)
Fixpoint arcLength (pts : list (R * R)) (k : nat) : R :=
  match k with
  | O => 0
  | S j =>
      arcLength pts j +
      greatCircleKm (fst (nth j pts (0, 0))) (snd (nth j pts (0, 0)))
                    (fst (nth (S j) pts (0, 0))) (snd (nth (S j) pts (0, 0)))
  end.

Definition cumulativeKm (pts : list (R * R)) : list R :=
  map (arcLength pts) (seq 0 (length pts)).

Definition totalKm (pts : list (R * R)) : R := arcLength pts (length pts - 1).

(** The interpolation factor of [t] inside the segment from arc length
    [s] to arc length [e]. *)
Definition lerpFactor (s e t : R) : R :=
  if Reqb e s then 0 else (t - s) / (e - s).

(** The point at arc length [t] along the finite path [pts]. *)
Definition pointAlong (pts : list (R * R)) (t : R) : R * R :=
  let i := findSegment (map Fin (cumulativeKm pts)) (Fin t) in
  let k := lerpFactor (arcLength pts i) (arcLength pts (S i)) t in
  let p1 := nth i pts (0, 0) in
  let p2 := nth (S i) pts (0, 0) in
  (fst p1 + (fst p2 - fst p1) * k, snd p1 + (snd p2 - snd p1) * k).

Definition minOf (xs : list R) : R := fold_right Rmin (hd 0 xs) xs.
Definition maxOf (xs : list R) : R := fold_right Rmax (hd 0 xs) xs.

(** The bounding box of the points of a path. *)
Definition inBoundingBox (pts : list (R * R)) (p : R * R) : Prop :=
  minOf (map fst pts) <= fst p <= maxOf (map fst pts) /\
  minOf (map snd pts) <= snd p <= maxOf (map snd pts).

(** Minutes since local midnight on the clock of [dateAt tz ms]. *)
Definition minutesOfDay (tz ms : Z) : R :=
  let localMs := (ms + tz * 60000)%Z in
  IZR ((localMs / 3600000) mod 24) * 60
  + IZR ((localMs / 60000) mod 60)
  + IZR ((localMs / 1000) mod 60) / 60.

(** The date [minutes] minutes after [dateAt tz ms], on the same clock. *)
Definition minutesLater (minutes : Z) (tz ms : Z) : Date :=
  dateAt tz (ms + minutes * 60000).

(** A vehicle with finite coordinates inside the bounding box of [pts]. *)
Definition onPath (pts : list (R * R)) (v : LiveVehicle) : Prop :=
  exists p : R * R, coordinates v = point p /\ inBoundingBox pts p.

(** ** Concrete inputs *)

(** The first entry of [SAMPLE_ROUTES] (constants.ts). *)
Definition route15 : Route :=
  {| route_id := "15";
     route_short_name := "15";
     route_long_name := "Clongriffin - Ballycullen Rd";
     route_type := "3";
     route_color := Some "FFC72C"%string;
     agency_id := "DUB";
     direction_names := Some ["To Ballycullen"; "To Clongriffin"]%string |}.

(** One degree of a meridian, from the equator northwards. *)
Definition meridianPath : list (R * R) := [(0, 0); (1, 0)].

(** Two identical points: a path of length zero. *)
Definition stalledPath : list (R * R) := [(0, 0); (0, 0)].

(** A path that starts with a repeated point. *)
Definition repeatedPath : list (R * R) := [(0, 0); (0, 0); (1, 0)].

(** 00:11:15 on 1 January 1970, UTC. *)
Definition quarterPast : Date := dateAt 0 675000.

(** The readings of [quarterPast], written out. *)
Definition quarterPastReadings : Date :=
  {| getHours := Fin 0; getMinutes := Fin 11; getSeconds := Fin 15;
     getTime := Fin 675000 |}.

(** 23:59:59 on 1 January 1970, UTC. *)
Definition beforeMidnight : Z := 86399000.

(** The marker positions of the snap example: 53.0 N and 53.1 N on the
    meridian 6 W. *)
Definition snapStart : SmoothMarker.LatLng :=
  {| SmoothMarker.lat := Fin 53; SmoothMarker.lng := Fin (-6) |}.

Definition snapTarget : SmoothMarker.LatLng :=
  {| SmoothMarker.lat := Fin (531 / 10); SmoothMarker.lng := Fin (-6) |}.

Definition noFrames : SmoothMarker.Frames :=
  {| SmoothMarker.nextId := 1; SmoothMarker.pending := [] |}.

Definition finiteCoordinates (v : LiveVehicle) : Prop :=
  isFinite (latitude v) /\ isFinite (longitude v).

(** ** src/constants.ts *)

Module Constants.

Definition AVERAGE_BUS_SPEED_KMPH : R := 18.

Definition route46A : Route :=
  {| route_id := "46A";
     route_short_name := "46A";
     route_long_name := "Phoenix Park - Dún Laoghaire";
     route_type := "3";
     route_color := Some "FFC72C"%string;
     agency_id := "DUB";
     direction_names := Some ["To Dún Laoghaire"; "To Phoenix Park"]%string |}.

Definition routeGRN : Route :=
  {| route_id := "GRN";
     route_short_name := "Green";
     route_long_name := "Luas Green Line";
     route_type := "0";
     route_color := Some "B3007D"%string;
     agency_id := "LUAS";
     direction_names := Some ["Southbound"; "Northbound"]%string |}.

Definition SAMPLE_ROUTES : list Route := [route15; route46A; routeGRN].

Definition shape15 : list (R * R) :=
  [
    ((534031 / 10000), (- (61583 / 10000)));
    ((53395 / 1000), (- (6175 / 1000)));
    ((533892 / 10000), (- (62001 / 10000)));
    ((53375 / 1000), (- (6215 / 1000)));
    ((533635 / 10000), (- (623 / 100)));
    ((53358 / 1000), (- (6245 / 1000)));
    ((533522 / 10000), (- (625 / 100)));
    ((533498 / 10000), (- (62603 / 10000)));
    ((533449 / 10000), (- (62595 / 10000)));
    ((53343 / 1000), (- (6262 / 1000)));
    ((5334 / 100), (- (6264 / 1000)));
    ((533318 / 10000), (- (62668 / 10000)));
    ((5332 / 100), (- (627 / 100)));
    ((533112 / 10000), (- (62799 / 10000)));
    ((533 / 10), (- (63 / 10)));
    ((5329 / 100), (- (6315 / 1000)));
    ((532833 / 10000), (- (63245 / 10000)))
  ].

Definition shape46A : list (R * R) :=
  [
    ((533589 / 10000), (- (62998 / 10000)));
    ((53355 / 1000), (- (628 / 100)));
    ((533488 / 10000), (- (62603 / 10000)));
    ((533449 / 10000), (- (62595 / 10000)));
    ((533398 / 10000), (- (62534 / 10000)));
    ((53334 / 1000), (- (6256 / 1000)));
    ((53323 / 1000), (- (6238 / 1000)));
    ((533077 / 10000), (- (61998 / 10000)));
    ((53295 / 1000), (- (618 / 100)));
    ((532889 / 10000), (- (61567 / 10000)));
    ((532945 / 10000), (- (61345 / 10000)))
  ].

Definition shapeGRN : list (R * R) :=
  [
    ((533501 / 10000), (- (62601 / 10000)));
    ((533449 / 10000), (- (62595 / 10000)));
    ((533391 / 10000), (- (62613 / 10000)));
    ((53331 / 1000), (- (6259 / 1000)));
    ((533211 / 10000), (- (62588 / 10000)));
    ((53308 / 1000), (- (625 / 100)));
    ((532902 / 10000), (- (62331 / 10000)));
    ((532701 / 10000), (- (62021 / 10000)));
    ((5325 / 100), (- (618 / 100)));
    ((532231 / 10000), (- (61455 / 10000)))
  ].

(** [ROUTE_SHAPES[routeId]]: the shape stored under the key, [None] where
    the read gives [undefined].  The members every object inherits
    ([constructor], [__proto__], ...) are not modelled; no route of
    [SAMPLE_ROUTES] is named like one. *)
Definition ROUTE_SHAPES (routeId : string) : option (list Point) :=
  if (routeId =? "15")%string then Some (map point shape15)
  else if (routeId =? "46A")%string then Some (map point shape46A)
  else if (routeId =? "GRN")%string then Some (map point shapeGRN)
  else None.

End Constants.

(** ** The simulated feed: [subscribeToVehicles] of transportService.ts *)

Module Feed.

Section Tables.

(** The tables the callback reads; in the source they are
    [Constants.SAMPLE_ROUTES] and [Constants.ROUTE_SHAPES]. *)
Variable SAMPLE_ROUTES : list Route.
Variable ROUTE_SHAPES : string -> option (list Point).

(** [routeId ? SAMPLE_ROUTES.filter(r => r.route_id === routeId)
             : SAMPLE_ROUTES]; an omitted and an empty [routeId] are both
    falsy. *)
Definition routesToSimulate (routeId : option string) : list Route :=
  match routeId with
  | Some id =>
      if (id =? "")%string then SAMPLE_ROUTES
      else filter (fun r => (route_id r =? id)%string) SAMPLE_ROUTES
  | None => SAMPLE_ROUTES
  end.

(** The body of the interval callback: the list handed to [callback]
    every two seconds, [now] being the reading of [new Date()]. *)
Definition tick (routeId : option string) (now : Date) : list LiveVehicle :=
  fold_left
    (fun allVehicles route =>
       match ROUTE_SHAPES (route_id route) with
       | Some shape =>
           allVehicles
           ++ TransportService.generateSimulatedVehiclesForRoute route shape now
       | None => allVehicles
       end)
    (routesToSimulate routeId) [].

End Tables.

(** The callback on the tables of constants.ts. *)
Definition subscribeTick : option string -> Date -> list LiveVehicle :=
  tick Constants.SAMPLE_ROUTES Constants.ROUTE_SHAPES.

End Feed.


(** ** Further notions used to state properties *)

(** Numbers other than the finite ones. *)
Definition nonFinite (a : num) : Prop :=
  match a with Fin _ => False | _ => True end.

(** The list with its last element moved to the front. *)
Definition rotate {A : Type} (l : list A) : list A :=
  match rev l with
  | [] => []
  | x :: r => x :: rev r
  end.

(** ** Arrival estimates (utils.ts, components/MapScreen.tsx) *)

(** [Math.round]: the nearest integer, a tie going up. *)
Definition Math_round (a : num) : num :=
  match a with
  | Fin x => Fin (IZR (Zfloor (x + 1 / 2)))
  | _ => a
  end.

(** utils.ts *)
Definition estimateArrival (distanceKm speedKmph : num) : num :=
  Math_round ((distanceKm / speedKmph) * 60)%js.

(** [Stop] of types.ts. *)
Record Stop : Type := {
  stop_id : string;
  stop_code : option string;
  stop_name : string;
  stop_lat : num;
  stop_lon : num;
  location_type : option string;
  parent_station : option string;
  route_ids : option (list string);
  stop_direction_id : option nat
}.

Module StopPopup.

(** [visibleVehicles.filter(v => v.direction_id === undefined ||
    v.direction_id === selectedDirection)] *)
Definition candidateVehicles (visibleVehicles : list LiveVehicle)
    (selectedDirection : nat) : list LiveVehicle :=
  filter (fun v => match direction_id v with
                   | None => true
                   | Some d => Nat.eqb d selectedDirection
                   end) visibleVehicles.

(** One turn of [candidateVehicles.forEach]. *)
Definition nearer (stop : Stop) (state : num * option LiveVehicle)
    (v : LiveVehicle) : num * option LiveVehicle :=
  let '(minDistance, nearestVehicle) := state in
  let d := Utils.calculateDistance (stop_lat stop) (stop_lon stop)
             (latitude v) (longitude v) in
  if (d <? minDistance)%js then (d, Some v) else (minDistance, nearestVehicle).

(** [minDistance] and [nearestVehicle] after the loop. *)
Definition nearest (stop : Stop) (candidateVehicles : list LiveVehicle)
    : num * option LiveVehicle :=
  fold_left (nearer stop) candidateVehicles (PInf, None).

(** What the popup of a stop shows; the markup around it is left out. *)
Inductive popup : Type :=
| NoBusesNearby
| NextArrival (eta minDistance : num) (nearestVehicle : LiveVehicle)
| NoEstimates.

(** [handleStopClick(stop)], for a map that is ready and a selected
    route. *)
Definition handleStopClick (visibleVehicles : list LiveVehicle)
    (selectedDirection : nat) (stop : Stop) : popup :=
  let candidateVehicles := candidateVehicles visibleVehicles selectedDirection in
  if Nat.eqb (length candidateVehicles) 0 then NoBusesNearby else
  let '(minDistance, nearestVehicle) := nearest stop candidateVehicles in
  match nearestVehicle with
  | Some v =>
      if (minDistance <? Fin 100)%js
      then
        let eta := estimateArrival minDistance (Fin Constants.AVERAGE_BUS_SPEED_KMPH) in
        NextArrival eta minDistance v
      else NoEstimates
  | None => NoEstimates
  end.

(** [eta < 1] of the popup text [eta < 1 ? 'NOW' : eta + ' min']. *)
Definition showsNow (eta : num) : bool := (eta <? Fin 1)%js.

End StopPopup.


(** A target close to [snapStart]: 53.001 N on the same meridian. *)
Definition nearTarget : SmoothMarker.LatLng :=
  {| SmoothMarker.lat := Fin (53001 / 1000); SmoothMarker.lng := Fin (-6) |}.

(** The stop Trinity College of [SAMPLE_STOPS] (constants.ts). *)
Definition stopTrinityCollege : Stop :=
  {| stop_id := "300";
     stop_code := None;
     stop_name := "Trinity College";
     stop_lat := Fin (533449 / 10000);
     stop_lon := Fin (- (62595 / 10000));
     location_type := Some "0"%string;
     parent_station := None;
     route_ids := Some ["15"; "46A"; "GRN"]%string;
     stop_direction_id := None |}.

(** ** The vehicle markers of the map (components/MapScreen.tsx) *)

Module VehicleMarkers.

(** [markersRef.current]: the markers on the map by vehicle id, an entry
    per own key.  The members every object inherits ([constructor],
    [toString], ...) are not modelled: the generators' ids start with
    SIM- or GTFS-. *)
Definition Registry : Type := list (string * SmoothMarker.t).

(** [markersRef.current[id]], [None] for [undefined]. *)
Definition lookup (id : string) (markers : Registry) : option SmoothMarker.t :=
  match find (fun entry => (fst entry =? id)%string) markers with
  | Some entry => Some (snd entry)
  | None => None
  end.

(** [visibleVehicles.find(v => v.vehicle_id === id)] finds a vehicle. *)
Definition shown (visibleVehicles : list LiveVehicle) (id : string) : bool :=
  existsb (fun v => (vehicle_id v =? id)%string) visibleVehicles.

(** The loop over [Object.keys(markersRef.current)]: the markers of
    vehicles that are no longer visible leave the map and the registry. *)
Definition removeStale (visibleVehicles : list LiveVehicle) (markers : Registry)
    : Registry :=
  filter (fun entry => shown visibleVehicles (fst entry)) markers.

(** The marker under [id] after a method of it has run: the registry
    holds the object, so it sees the change. *)
Definition replace (id : string) (marker : SmoothMarker.t) (markers : Registry)
    : Registry :=
  map (fun entry => if (fst entry =? id)%string then (fst entry, marker) else entry)
      markers.

Section Effect.

(** Leaflet's [LatLng.distanceTo] and [L.latLng], the latter [None]
    where it throws, and the readings of [performance.now()] that the
    call of [setLatLngSmooth] for the vehicle at index [k] makes: one in
    the method and one in [_animate].  Leaflet is not part of the
    repository. *)
Variable distanceTo : SmoothMarker.LatLng -> SmoothMarker.LatLng -> num.
Variable latLng : num -> num -> option SmoothMarker.LatLng.
Variable performance_now : nat -> num * num.

(** One turn of [visibleVehicles.forEach], [None] when it throws.  Icons
    and popups are left out. *)
Definition showVehicle (k : nat) (vehicle : LiveVehicle)
    (state : Registry * SmoothMarker.Frames)
    : option (Registry * SmoothMarker.Frames) :=
  let '(markers, frames) := state in
  match lookup (vehicle_id vehicle) markers with
  | Some existingMarker =>
      match latLng (latitude vehicle) (longitude vehicle) with
      | Some position =>
          let '(marker, frames) :=
            SmoothMarker.setLatLngSmooth distanceTo position (Some (Fin 2000))
              (fst (performance_now k)) (snd (performance_now k))
              (existingMarker, frames) in
          Some (replace (vehicle_id vehicle) marker markers, frames)
      | None => None
      end
  | None =>
      match latLng (latitude vehicle) (longitude vehicle) with
      | Some position =>
          Some (markers ++ [(vehicle_id vehicle, SmoothMarker.create position)],
                frames)
      | None => None
      end
  end.

Fixpoint showVehicles (k : nat) (visibleVehicles : list LiveVehicle)
    (state : Registry * SmoothMarker.Frames)
    : option (Registry * SmoothMarker.Frames) :=
  match visibleVehicles with
  | [] => Some state
  | vehicle :: rest =>
      match showVehicle k vehicle state with
      | Some state => showVehicles (S k) rest state
      | None => None
      end
  end.

(** The effect that keeps the markers in step with [visibleVehicles],
    for a map that is ready. *)
Definition syncMarkers (visibleVehicles : list LiveVehicle)
    (state : Registry * SmoothMarker.Frames)
    : option (Registry * SmoothMarker.Frames) :=
  let '(markers, frames) := state in
  showVehicles 0 visibleVehicles (removeStale visibleVehicles markers, frames).

End Effect.

End VehicleMarkers.

(** A conversion that accepts every pair of coordinates, a clock that
    stands still, and a vehicle at [snapStart]. *)
Definition acceptAll (lat lng : num) : option SmoothMarker.LatLng :=
  Some {| SmoothMarker.lat := lat; SmoothMarker.lng := lng |}.

Definition stoppedClock (k : nat) : num * num := (Fin 0, Fin 0).

Definition vehicleAtSnapStart : LiveVehicle :=
  {| vehicle_id := "SIM-15-0-0";
     trip_id := Some "15-sim-0-0"%string;
     vehicle_route_id := Some "15"%string;
     latitude := Fin 53;
     longitude := Fin (-6);
     timestamp := Fin 0;
     direction_id := Some 0%nat;
     heading := None |}.

(** A registry that holds one marker, of a vehicle no longer visible. *)
Definition staleRegistry : VehicleMarkers.Registry :=
  [("SIM-15-0-9"%string, SmoothMarker.create snapTarget)].

(** ** Route names (utils.ts) *)

(** The text functions of utils.ts work on the characters of a string,
    some of them outside ASCII, so there a JavaScript string is the list
    of its UTF-16 code units. *)
Definition text : Type := list N.

(** The code units of a literal of ASCII characters. *)
Definition units (s : string) : text := map N_of_ascii (list_ascii_of_string s).

Module JSString.

(** The code units that [\s] matches and [trim] removes: the white space
    and the line terminators of the language. *)
Definition isWhiteSpace (c : N) : bool :=
  ((9 <=? c) && (c <=? 13) || (c =? 32) || (c =? 160) || (c =? 5760)
   || (8192 <=? c) && (c <=? 8202) || (c =? 8232) || (c =? 8233)
   || (c =? 8239) || (c =? 8287) || (c =? 12288) || (c =? 65279))%N.

(** [s.replace(/\s+/g, " ")]: every maximal run of white space becomes
    one space.  [inRun] tells that the code unit before [s] belonged to
    a run. *)
Fixpoint collapseFrom (inRun : bool) (s : text) : text :=
  match s with
  | [] => []
  | c :: rest =>
      if isWhiteSpace c
      then if inRun then collapseFrom true rest
           else 32%N :: collapseFrom true rest
      else c :: collapseFrom false rest
  end.

Definition collapseSpaces (s : text) : text := collapseFrom false s.

Fixpoint trimStart (s : text) : text :=
  match s with
  | [] => []
  | c :: rest => if isWhiteSpace c then trimStart rest else s
  end.

Fixpoint trimEnd (s : text) : text :=
  match s with
  | [] => []
  | c :: rest =>
      match trimEnd rest with
      | [] => if isWhiteSpace c then [] else [c]
      | kept => c :: kept
      end
  end.

(** [s.trim()] *)
Definition trim (s : text) : text := trimEnd (trimStart s).

(** [s.startsWith(sep)] *)
Fixpoint startsWith (sep s : text) : bool :=
  match sep, s with
  | [], _ => true
  | _ :: _, [] => false
  | a :: sep', c :: rest => (a =? c)%N && startsWith sep' rest
  end.

(** [s.indexOf(sep)], [None] for -1. *)
Fixpoint indexOf (sep s : text) : option nat :=
  match s with
  | [] => if startsWith sep [] then Some 0%nat else None
  | _ :: rest =>
      if startsWith sep s then Some 0%nat else option_map S (indexOf sep rest)
  end.

(** [s.split(sep)] for a separator that is not empty: the text up to the
    first occurrence of [sep], then the split of what follows it.  Every
    turn removes at least one code unit, so [length s] turns suffice. *)
Fixpoint splitWithin (fuel : nat) (sep s : text) : list text :=
  match fuel with
  | O => [s]
  | S fuel' =>
      match indexOf sep s with
      | Some i => firstn i s :: splitWithin fuel' sep (skipn (i + length sep) s)
      | None => [s]
      end
  end.

Definition split (sep s : text) : list text := splitWithin (length s) sep s.

End JSString.

Module RouteNames.

(** The separators, in the order [deriveRouteEndpoints] tries them: a
    hyphen, an en dash (U+2013), an em dash (U+2014), each between two
    spaces, and the word to between two spaces. *)
Definition hyphen : text := units " - ".
Definition enDash : text := [32; 8211; 32]%N.
Definition emDash : text := [32; 8212; 32]%N.
Definition wordTo : text := units " to ".

(** [trySplit(sep)], [None] for [null]. *)
Definition trySplit (cleaned sep : text) : option (text * text) :=
  let parts := JSString.split sep cleaned in
  if (2 <=? length parts)%nat
  then Some (JSString.trim (nth 0 parts []),
             JSString.trim (nth (length parts - 1) parts []))
  else None.

(** [deriveRouteEndpoints(longName)]: the pair of [from] and [to]. *)
Definition deriveRouteEndpoints (longName : text) : text * text :=
  match longName with
  | [] => (units "A", units "B")
  | _ =>
      let cleaned := JSString.trim (JSString.collapseSpaces longName) in
      match trySplit cleaned hyphen with
      | Some endpoints => endpoints
      | None =>
      match trySplit cleaned enDash with
      | Some endpoints => endpoints
      | None =>
      match trySplit cleaned emDash with
      | Some endpoints => endpoints
      | None =>
      match trySplit cleaned wordTo with
      | Some endpoints => endpoints
      | None => (cleaned, cleaned)
      end end end end
  end.

(** The names joined by [sep]. *)
Fixpoint join (sep : text) (names : list text) : text :=
  match names with
  | [] => []
  | [name] => name
  | name :: rest => name ++ sep ++ join sep rest
  end.

(** A place name as the sample routes have them: not empty, no white
    space other than single spaces between words, and no hyphen. *)
Definition placeName (name : text) : Prop :=
  name <> []
  /\ JSString.trim name = name
  /\ JSString.collapseSpaces name = name
  /\ ~ In 45%N name.

End RouteNames.

(** No white space other than single spaces; [inRun] tells that the code
    unit before [s] was white space. *)
Fixpoint tidyFrom (inRun : bool) (s : text) : bool :=
  match s with
  | [] => true
  | c :: rest =>
      if JSString.isWhiteSpace c
      then negb inRun && (c =? 32)%N && tidyFrom true rest
      else tidyFrom false rest
  end.

(** Whether the last code unit of [s] is white space, [inRun] telling it
    for the code unit before [s]. *)
Definition endsInSpace (inRun : bool) (s : text) : bool :=
  fold_left (fun _ c => JSString.isWhiteSpace c) s inRun.

(** Coordinates of a place on the map that is not a pole: a latitude
    strictly between -90 and 90 degrees, a longitude above -180 and up
    to 180 degrees, so that every place has one pair of coordinates. *)
Definition offPoles (p : R * R) : Prop :=
  -90 < fst p < 90 /\ -180 < snd p <= 180.

(** * Properties *)

(** ** Arithmetic on finite numbers *)

Lemma Rltb_true (x y : R) : x < y -> Rltb x y = true.
Proof. intros H. unfold Rltb. destruct (Rlt_dec x y); [reflexivity | contradiction]. Qed.

Lemma Rltb_false (x y : R) : y <= x -> Rltb x y = false.
Proof. intros H. unfold Rltb. destruct (Rlt_dec x y); [lra | reflexivity]. Qed.

Lemma Rltb_spec (x y : R) : Rltb x y = true <-> x < y.
Proof. unfold Rltb. destruct (Rlt_dec x y); split; intros; auto; discriminate. Qed.

Lemma Reqb_true (x y : R) : x = y -> Reqb x y = true.
Proof. intros H. unfold Reqb. destruct (Req_dec_T x y); [reflexivity | contradiction]. Qed.

Lemma Reqb_false (x y : R) : x <> y -> Reqb x y = false.
Proof. intros H. unfold Reqb. destruct (Req_dec_T x y); [contradiction | reflexivity]. Qed.

Lemma Reqb_spec (x y : R) : Reqb x y = true <-> x = y.
Proof. unfold Reqb. destruct (Req_dec_T x y); split; intros; auto; discriminate. Qed.

Lemma frac_bounds (x : R) : 0 <= frac x < 1.
Proof. unfold frac. pose proof (Zfloor_bound x). lra. Qed.

Lemma frac_unique (x r : R) (z : Z) : 0 <= r < 1 -> x = r + IZR z -> frac x = r.
Proof.
  intros Hr Hx. unfold frac.
  rewrite (Zfloor_eq z x) by lra. lra.
Qed.

Lemma frac_add_Z (x : R) (z : Z) : frac (x + IZR z) = frac x.
Proof.
  apply (frac_unique _ _ (Zfloor x + z)).
  - apply frac_bounds.
  - unfold frac. rewrite plus_IZR. lra.
Qed.

Lemma frac_small (x : R) : 0 <= x < 1 -> frac x = x.
Proof. intros H. apply (frac_unique _ _ 0); simpl; lra. Qed.

Lemma div_Fin (x y : R) : y <> 0 -> (Fin x / Fin y)%js = Fin (x / y).
Proof. intros H. unfold div. now rewrite Reqb_false. Qed.

Lemma Ztrunc_nonneg (x : R) : 0 <= x -> Ztrunc x = Zfloor x.
Proof. intros H. unfold Ztrunc. now rewrite Rltb_false. Qed.

Lemma Ztrunc_bound (x : R) : -1 < x - IZR (Ztrunc x) < 1.
Proof.
  unfold Ztrunc. pose proof (Zfloor_bound x). pose proof (Zceil_bound x).
  destruct (Rltb x 0); lra.
Qed.

Lemma rem_one (x : R) : (Fin x mod 1)%js = Fin (x - IZR (Ztrunc x)).
Proof.
  unfold rem. rewrite Reqb_false by lra.
  f_equal. replace (x / 1) with x by field. ring.
Qed.

(** The double remainder wraps every finite fraction into [[0, 1)]. *)
Lemma wrap_Fin (x : R) : wrap (Fin x) = Fin (frac x).
Proof.
  unfold wrap. rewrite rem_one. simpl add. rewrite rem_one.
  f_equal. symmetry.
  pose proof (Ztrunc_bound x) as Ht.
  set (t := x - IZR (Ztrunc x)) in *.
  rewrite Ztrunc_nonneg by lra.
  apply (frac_unique _ _ (Ztrunc x + Zfloor (t + 1) - 1)).
  - pose proof (Zfloor_bound (t + 1)). lra.
  - rewrite minus_IZR, plus_IZR. unfold t. simpl. lra.
Qed.

Lemma wrap_NaN : wrap NaN = NaN.
Proof. reflexivity. Qed.

Lemma wrap_add_Z (x : R) (z : Z) : wrap (Fin (x + IZR z)) = wrap (Fin x).
Proof. now rewrite !wrap_Fin, frac_add_Z. Qed.

(** ** The haversine formula over the reals *)

Lemma sin_sqr_bounds (x : R) : 0 <= sin x * sin x <= 1.
Proof. pose proof (SIN_bound x). nra. Qed.

Lemma haversine_bounds (lat1 lon1 lat2 lon2 : R) :
  0 <= haversine lat1 lon1 lat2 lon2 <= 1.
Proof.
  unfold haversine.
  set (u := lat1 * (PI / 180)). set (v := lat2 * (PI / 180)).
  set (h := (lat2 - lat1) * (PI / 180) / 2).
  set (g := (lon2 - lon1) * (PI / 180) / 2).
  assert (Hd : v - u = 2 * h) by (unfold u, v, h; field).
  pose proof (cos_minus v u) as Hm. pose proof (cos_plus v u) as Hp.
  rewrite Hd, cos_2a_sin in Hm.
  pose proof (COS_bound (v + u)) as Hb.
  pose proof (sin_sqr_bounds h) as Hh. pose proof (sin_sqr_bounds g) as Hg.
  assert (Hc : cos u * cos v = (1 - 2 * (sin h * sin h) + cos (v + u)) / 2) by lra.
  replace (sin h * sin h + cos u * cos v * sin g * sin g)
    with (sin h * sin h + (cos u * cos v) * (sin g * sin g)) by ring.
  rewrite Hc.
  clear Hm Hp Hc Hd.
  remember (sin h * sin h) as sh eqn:Esh. remember (sin g * sin g) as sg eqn:Esg.
  remember (cos (v + u)) as c eqn:Ec. clear Esh Esg Ec.
  assert (0 <= (1 + c) * sg) by (apply Rmult_le_pos; lra).
  assert (0 <= (1 - c) * sg) by (apply Rmult_le_pos; lra).
  assert (0 <= sh * (1 - sg)) by (apply Rmult_le_pos; lra).
  assert (0 <= (1 - sh) * (1 - sg)) by (apply Rmult_le_pos; lra).
  lra.
Qed.

Lemma Ratan2_nonneg (y x : R) : 0 <= y -> 0 <= x -> 0 <= Math.Ratan2 y x.
Proof.
  intros Hy Hx. unfold Math.Ratan2.
  destruct (Rlt_dec 0 x) as [Hpos | Hnpos].
  - rewrite Rltb_true by assumption.
    destruct (Req_dec_T y 0) as [-> | Hy0].
    + unfold Rdiv. rewrite Rmult_0_l, atan_0. lra.
    + left. rewrite <- atan_0. apply atan_increasing.
      apply Rdiv_lt_0_compat; lra.
  - rewrite !(Rltb_false _ x) by lra.
    rewrite (Rltb_false x 0) by lra.
    pose proof PI_RGT_0.
    destruct (Rltb 0 y); [lra |].
    rewrite (Rltb_false y 0) by lra. lra.
Qed.

Lemma centralAngle_nonneg (a : R) : 0 <= centralAngle a.
Proof.
  unfold centralAngle.
  pose proof (Ratan2_nonneg (sqrt a) (sqrt (1 - a)) (sqrt_pos _) (sqrt_pos _)). lra.
Qed.

Lemma greatCircleKm_nonneg (lat1 lon1 lat2 lon2 : R) :
  0 <= greatCircleKm lat1 lon1 lat2 lon2.
Proof.
  unfold greatCircleKm. pose proof (centralAngle_nonneg (haversine lat1 lon1 lat2 lon2)). lra.
Qed.

Lemma centralAngle_0 : centralAngle 0 = 0.
Proof.
  unfold centralAngle, Math.Ratan2.
  rewrite Rminus_0_r, sqrt_0, sqrt_1.
  rewrite Rltb_true by lra.
  unfold Rdiv. rewrite Rmult_0_l, atan_0. ring.
Qed.

(** The central angle recovered from [sin^2 h] is [2 h] for a quarter turn. *)
Lemma centralAngle_sin_sqr (h : R) :
  0 <= h < PI / 2 -> centralAngle (sin h * sin h) = 2 * h.
Proof.
  intros Hh. unfold centralAngle, Math.Ratan2.
  pose proof PI_RGT_0 as Hpi.
  assert (Hs : 0 <= sin h) by (apply sin_ge_0; lra).
  assert (Hc : 0 < cos h) by (apply cos_gt_0; lra).
  rewrite sqrt_square by assumption.
  replace (1 - sin h * sin h) with (cos h * cos h)
    by (pose proof (sin2_cos2 h) as E; unfold Rsqr in E; lra).
  rewrite sqrt_square by lra.
  rewrite Rltb_true by assumption.
  fold (tan h). rewrite atan_tan by lra. reflexivity.
Qed.

Lemma haversine_same (lat lon : R) : haversine lat lon lat lon = 0.
Proof.
  unfold haversine.
  replace ((lat - lat) * (PI / 180) / 2) with 0 by field.
  replace ((lon - lon) * (PI / 180) / 2) with 0 by field.
  rewrite sin_0. ring.
Qed.

Lemma greatCircleKm_same (lat lon : R) : greatCircleKm lat lon lat lon = 0.
Proof. unfold greatCircleKm. rewrite haversine_same, centralAngle_0. ring. Qed.

(** Along a meridian the distance is the earth radius times the
    latitude difference in radians. *)
Lemma greatCircleKm_meridian (lat1 lat2 lon : R) :
  0 <= lat2 - lat1 < 180 ->
  greatCircleKm lat1 lon lat2 lon = 6371 * ((lat2 - lat1) * (PI / 180)).
Proof.
  intros H. unfold greatCircleKm. f_equal.
  pose proof PI_RGT_0 as Hpi.
  assert (Ha : haversine lat1 lon lat2 lon =
               sin ((lat2 - lat1) * (PI / 180) / 2) * sin ((lat2 - lat1) * (PI / 180) / 2)).
  { unfold haversine.
    replace ((lon - lon) * (PI / 180) / 2) with 0 by field.
    rewrite sin_0. ring. }
  rewrite Ha, centralAngle_sin_sqr.
  - field.
  - split; [nra |]. 
    apply Rmult_lt_reg_r with (r := 360 / PI); [apply Rdiv_lt_0_compat; lra |].
    field_simplify; lra.
Qed.

Lemma greatCircleKm_meridian_pos (lat1 lat2 lon : R) :
  0 < lat2 - lat1 < 180 -> 0 < greatCircleKm lat1 lon lat2 lon.
Proof.
  intros H. rewrite greatCircleKm_meridian by lra.
  pose proof PI_RGT_0. nra.
Qed.

Lemma sqrt_Fin (a : R) : 0 <= a -> Math.sqrt (Fin a) = Fin (sqrt a).
Proof. intros H. unfold Math.sqrt. now rewrite Rltb_false. Qed.

(** On finite coordinates both copies of [calculateDistance] compute
    the great-circle distance. *)
Lemma Utils_calculateDistance_Fin (lat1 lon1 lat2 lon2 : R) :
  Utils.calculateDistance (Fin lat1) (Fin lon1) (Fin lat2) (Fin lon2)
  = Fin (greatCircleKm lat1 lon1 lat2 lon2).
Proof.
  pose proof (haversine_bounds lat1 lon1 lat2 lon2) as Hb.
  unfold Utils.calculateDistance, Utils.deg2rad, Math.PI.
  assert (N : Reqb 180 0 = false) by (apply Reqb_false; lra).
  assert (N2 : Reqb 2 0 = false) by (apply Reqb_false; lra).
  cbn [sub mul div add Math.sin Math.cos]. rewrite N. cbn [sub mul div add Math.sin Math.cos]. rewrite N2.
  cbn [sub mul div add Math.sin Math.cos].
  fold (haversine lat1 lon1 lat2 lon2).
  rewrite !sqrt_Fin by lra.
  reflexivity.
Qed.

Lemma TransportService_calculateDistance_Fin (lat1 lon1 lat2 lon2 : R) :
  TransportService.calculateDistance (Fin lat1) (Fin lon1) (Fin lat2) (Fin lon2)
  = Fin (greatCircleKm lat1 lon1 lat2 lon2).
Proof.
  pose proof (haversine_bounds lat1 lon1 lat2 lon2) as Hb.
  unfold TransportService.calculateDistance, Math.PI.
  assert (N : Reqb 180 0 = false) by (apply Reqb_false; lra).
  assert (N2 : Reqb 2 0 = false) by (apply Reqb_false; lra).
  cbn [sub mul div add Math.sin Math.cos]. rewrite N.
  cbn [sub mul div add Math.sin Math.cos]. rewrite N2.
  cbn [sub mul div add Math.sin Math.cos].
  replace ((lat2 - lat1) * PI / 180) with ((lat2 - lat1) * (PI / 180)) by field.
  replace ((lon2 - lon1) * PI / 180) with ((lon2 - lon1) * (PI / 180)) by field.
  replace (lat1 * PI / 180) with (lat1 * (PI / 180)) by field.
  replace (lat2 * PI / 180) with (lat2 * (PI / 180)) by field.
  fold (haversine lat1 lon1 lat2 lon2).
  rewrite !sqrt_Fin by lra.
  reflexivity.
Qed.

(** ** Path lengths of a finite path *)

Lemma arcLength_step_le (pts : list (R * R)) (k : nat) :
  arcLength pts k <= arcLength pts (S k).
Proof.
  simpl.
  pose proof (greatCircleKm_nonneg (fst (nth k pts (0, 0))) (snd (nth k pts (0, 0)))
                (fst (nth (S k) pts (0, 0))) (snd (nth (S k) pts (0, 0)))).
  lra.
Qed.

Lemma arcLength_mono (pts : list (R * R)) (j k : nat) :
  (j <= k)%nat -> arcLength pts j <= arcLength pts k.
Proof.
  induction 1 as [| k _ IH]; [lra |].
  pose proof (arcLength_step_le pts k). lra.
Qed.

Lemma arcLength_nonneg (pts : list (R * R)) (k : nat) : 0 <= arcLength pts k.
Proof. apply (arcLength_mono pts 0 k). lia. Qed.

Lemma length_cumulativeKm (pts : list (R * R)) :
  length (cumulativeKm pts) = length pts.
Proof. unfold cumulativeKm. now rewrite length_map, length_seq. Qed.

Lemma nth_cumulativeKm (pts : list (R * R)) (k : nat) (d : R) :
  (k < length pts)%nat -> nth k (cumulativeKm pts) d = arcLength pts k.
Proof.
  intros H. unfold cumulativeKm.
  rewrite (nth_indep _ d (arcLength pts 0)) by now rewrite length_map, length_seq.
  rewrite map_nth, seq_nth by assumption. reflexivity.
Qed.

Lemma nth_point (pts : list (R * R)) (k : nat) :
  (k < length pts)%nat ->
  nth k (map point pts) undefinedPoint = point (nth k pts (0, 0)).
Proof.
  intros H.
  rewrite (nth_indep _ undefinedPoint (point (0, 0))) by now rewrite length_map.
  apply map_nth.
Qed.

Lemma nth_Fin (xs : list R) (k : nat) :
  (k < length xs)%nat -> nth k (map Fin xs) NaN = Fin (nth k xs 0).
Proof.
  intros H.
  rewrite (nth_indep _ NaN (Fin 0)) by now rewrite length_map.
  apply map_nth.
Qed.

Section PathLengthFinite.

Variable calculateDistance : num -> num -> num -> num -> num.
Hypothesis calculateDistance_Fin : forall lat1 lon1 lat2 lon2 : R,
  calculateDistance (Fin lat1) (Fin lon1) (Fin lat2) (Fin lon2)
  = Fin (greatCircleKm lat1 lon1 lat2 lon2).

Lemma pathLengths_prefix (pts : list (R * R)) (k : nat) :
  (k < length pts)%nat ->
  fold_left (lengthStep calculateDistance (map point pts)) (seq 1 k)
            ([Fin 0], Fin 0)
  = (map Fin (map (arcLength pts) (seq 0 (S k))), Fin (arcLength pts k)).
Proof.
  induction k as [| k IH]; intros Hk; [reflexivity |].
  rewrite seq_S, fold_left_app, IH by lia.
  cbn [fold_left lengthStep].
  replace (1 + k - 1)%nat with k by lia.
  rewrite !nth_point by lia.
  unfold point at 1 2. rewrite calculateDistance_Fin.
  cbn [add]. f_equal.
  rewrite (seq_S (S k)), !map_app. reflexivity.
Qed.

Lemma pathLengths_finite (pts : list (R * R)) :
  pts <> [] ->
  pathLengths calculateDistance (map point pts)
  = (map Fin (cumulativeKm pts), Fin (totalKm pts)).
Proof.
  intros Hne. unfold pathLengths, cumulativeKm, totalKm.
  rewrite length_map.
  assert (0 < length pts)%nat by (destruct pts; [contradiction | simpl; lia]).
  rewrite pathLengths_prefix by lia.
  replace (S (length pts - 1)) with (length pts) by lia. reflexivity.
Qed.

End PathLengthFinite.

(** ** The segment search *)

(** The loop of [findSegment] stops where its guard is false (it never
    runs out of fuel), and every index it has moved to lies inside the
    array, strictly before the target distance. *)
Lemma seekSegment_spec (cumulative : list num) (targetDist : num) (fuel j : nat) :
  (length cumulative - 1 - j <= fuel)%nat ->
  let i := seekSegment cumulative targetDist fuel j in
  (j <= i)%nat /\
  ((i <? length cumulative - 1)%nat
   && (nth (i + 1) cumulative NaN <? targetDist)%js = false) /\
  (i = j \/
   ((i <= length cumulative - 1)%nat /\
    (nth i cumulative NaN <? targetDist)%js = true)).
Proof.
  revert j. induction fuel as [| fuel IH]; intros j Hfuel; cbn [seekSegment].
  - repeat split; auto.
    replace (j <? length cumulative - 1)%nat with false; [reflexivity |].
    symmetry. apply Nat.ltb_ge. lia.
  - destruct ((j <? length cumulative - 1)%nat
              && (nth (j + 1) cumulative NaN <? targetDist)%js) eqn:Hguard.
    + apply andb_prop in Hguard as [Hj Hlt].
      apply Nat.ltb_lt in Hj.
      destruct (IH (j + 1)%nat ltac:(lia)) as (Hle & Hexit & Hprev).
      repeat split; [lia | exact Hexit |].
      right. destruct Hprev as [-> | Hprev]; [split; [lia | assumption] | assumption].
    + repeat split; auto.
Qed.

Lemma findSegment_spec (cumulative : list num) (targetDist : num) :
  let i := findSegment cumulative targetDist in
  ((i <? length cumulative - 1)%nat
   && (nth (i + 1) cumulative NaN <? targetDist)%js = false) /\
  (i = 0%nat \/
   ((i <= length cumulative - 1)%nat /\
    (nth i cumulative NaN <? targetDist)%js = true)).
Proof.
  destruct (seekSegment_spec cumulative targetDist (length cumulative) 0 ltac:(lia))
    as (_ & Hexit & Hprev).
  split; assumption.
Qed.

(** ** Sampling a finite path *)

Lemma ltb_Fin (x y : R) : (Fin x <? Fin y)%js = Rltb x y.
Proof. reflexivity. Qed.

Section Sampling.

Variable pts : list (R * R).
Hypothesis two_points : (2 <= length pts)%nat.
Variable t : R.
Hypothesis t_range : 0 <= t <= totalKm pts.

Let cumulative : list num := map Fin (cumulativeKm pts).
Let i : nat := findSegment cumulative (Fin t).

Lemma nth_cumulative (k : nat) :
  (k < length pts)%nat -> nth k cumulative NaN = Fin (arcLength pts k).
Proof.
  intros H. unfold cumulative.
  rewrite nth_Fin by now rewrite length_cumulativeKm.
  now rewrite nth_cumulativeKm.
Qed.

Lemma length_cumulative : length cumulative = length pts.
Proof. unfold cumulative. now rewrite length_map, length_cumulativeKm. Qed.

(** The located segment exists and contains the target distance. *)
Lemma located_segment :
  (S i < length pts)%nat /\ arcLength pts i <= t <= arcLength pts (S i).
Proof.
  destruct (findSegment_spec cumulative (Fin t)) as [Hexit Hprev].
  fold i in Hexit, Hprev. rewrite length_cumulative in Hexit, Hprev.
  assert (Hlow : (i <= length pts - 1)%nat /\ arcLength pts i <= t).
  { destruct Hprev as [-> | [Hi Hlt]].
    - split; [lia | simpl; lra].
    - split; [assumption |].
      rewrite nth_cumulative, ltb_Fin in Hlt by lia.
      apply Rltb_spec in Hlt. lra. }
  destruct Hlow as [Hi Hlow].
  assert (Hlast : (i < length pts - 1)%nat).
  { destruct Hprev as [-> | [_ Hlt]]; [lia |].
    destruct (Nat.eq_dec i (length pts - 1)) as [E | NE]; [| lia].
    rewrite nth_cumulative, ltb_Fin in Hlt by lia.
    apply Rltb_spec in Hlt. rewrite E in Hlt. unfold totalKm in t_range. lra. }
  split; [lia |]. split; [assumption |].
  apply Nat.ltb_lt in Hlast as Hb. rewrite Hb in Hexit. cbn [andb] in Hexit.
  replace (i + 1)%nat with (S i) in Hexit by lia.
  rewrite nth_cumulative, ltb_Fin in Hexit by lia.
  unfold Rltb in Hexit. destruct (Rlt_dec (arcLength pts (S i)) t); [discriminate | lra].
Qed.

Lemma lerpFactor_bounds :
  0 <= lerpFactor (arcLength pts i) (arcLength pts (S i)) t <= 1.
Proof.
  destruct located_segment as [_ [Hs He]].
  unfold lerpFactor, Reqb.
  destruct (Req_dec_T (arcLength pts (S i)) (arcLength pts i)) as [E | NE]; [lra |].
  split.
  - apply Rmult_le_pos; [lra |]. left. apply Rinv_0_lt_compat. lra.
  - apply Rmult_le_reg_r with (r := arcLength pts (S i) - arcLength pts i); [lra |].
    unfold Rdiv. rewrite Rmult_assoc, Rinv_l by lra. lra.
Qed.

Lemma next_index : Nat.min (i + 1) (length pts - 1) = S i.
Proof. destruct located_segment as [H _]. lia. Qed.

(** MapScreen.tsx: the guarded division computes the interpolation factor. *)
Lemma MapScreen_segFraction_finite :
  MapScreen.segFraction cumulative (Fin t) i
  = Fin (lerpFactor (arcLength pts i) (arcLength pts (S i)) t).
Proof.
  destruct located_segment as [Hi _].
  unfold MapScreen.segFraction. rewrite length_cumulative, next_index.
  rewrite !nth_cumulative by lia.
  unfold lerpFactor. cbn [strictEq].
  destruct (Reqb (arcLength pts (S i)) (arcLength pts i)) eqn:E; [reflexivity |].
  cbn [sub div].
  rewrite Reqb_false; [reflexivity |].
  intros H. assert (Reqb (arcLength pts (S i)) (arcLength pts i) = true)
    by (apply Reqb_spec; lra). congruence.
Qed.

(** transportService.ts: the divisor [segEnd - segStart || 1] is never zero,
    and the quotient is the same interpolation factor. *)
Lemma TransportService_segDivisor_finite :
  exists d : R, TransportService.segDivisor cumulative i = Fin d /\ d <> 0.
Proof.
  destruct located_segment as [Hi _].
  unfold TransportService.segDivisor. rewrite length_cumulative, next_index.
  rewrite !nth_cumulative by lia. cbn [sub]. unfold orElse. cbn [truthy].
  destruct (Reqb (arcLength pts (S i) - arcLength pts i) 0) eqn:E; cbn [negb].
  - exists 1. split; [reflexivity | lra].
  - eexists. split; [reflexivity |].
    intros H. apply Reqb_spec in H. congruence.
Qed.

Lemma TransportService_segPct_finite :
  TransportService.segPct cumulative (Fin t) i
  = Fin (lerpFactor (arcLength pts i) (arcLength pts (S i)) t).
Proof.
  destruct located_segment as [Hi [Hs He]].
  unfold TransportService.segPct, TransportService.segDivisor.
  rewrite length_cumulative, next_index.
  rewrite !nth_cumulative by lia. cbn [sub]. unfold orElse, lerpFactor. cbn [truthy].
  destruct (Req_dec_T (arcLength pts (S i)) (arcLength pts i)) as [E | NE].
  - rewrite (Reqb_true (arcLength pts (S i) - arcLength pts i) 0) by lra.
    rewrite (Reqb_true _ _ E). cbn [negb div].
    rewrite Reqb_false by lra. f_equal. lra.
  - rewrite (Reqb_false (arcLength pts (S i) - arcLength pts i) 0) by lra.
    rewrite (Reqb_false _ _ NE). cbn [negb div].
    rewrite Reqb_false by lra. reflexivity.
Qed.

End Sampling.

Lemma fold_Rmin_le (d x : R) (xs : list R) : In x xs -> fold_right Rmin d xs <= x.
Proof.
  induction xs as [| y ys IH]; intros H; [contradiction |].
  cbn [fold_right]. destruct H as [-> | H].
  - apply Rmin_l.
  - eapply Rle_trans; [apply Rmin_r | auto].
Qed.

Lemma fold_Rmax_ge (d x : R) (xs : list R) : In x xs -> x <= fold_right Rmax d xs.
Proof.
  induction xs as [| y ys IH]; intros H; [contradiction |].
  cbn [fold_right]. destruct H as [-> | H].
  - apply Rmax_l.
  - eapply Rle_trans; [| apply Rmax_r]. auto.
Qed.

Lemma between_minOf_maxOf (x : R) (xs : list R) :
  In x xs -> minOf xs <= x <= maxOf xs.
Proof. intros H. split; [now apply fold_Rmin_le | now apply fold_Rmax_ge]. Qed.

Lemma lerp_between (m M a b k : R) :
  m <= a <= M -> m <= b <= M -> 0 <= k <= 1 -> m <= a + (b - a) * k <= M.
Proof.
  intros Ha Hb Hk.
  assert (0 <= (a - m) * (1 - k)) by (apply Rmult_le_pos; lra).
  assert (0 <= (b - m) * k) by (apply Rmult_le_pos; lra).
  assert (0 <= (M - a) * (1 - k)) by (apply Rmult_le_pos; lra).
  assert (0 <= (M - b) * k) by (apply Rmult_le_pos; lra).
  lra.
Qed.

(** Interpolation never leaves the bounding box of the path. *)
Lemma pointAlong_in_box (pts : list (R * R)) (t : R) :
  (2 <= length pts)%nat -> 0 <= t <= totalKm pts ->
  inBoundingBox pts (pointAlong pts t).
Proof.
  intros Hlen Ht.
  destruct (located_segment pts Hlen t Ht) as [Hi _].
  pose proof (lerpFactor_bounds pts Hlen t Ht) as Hk.
  unfold pointAlong, inBoundingBox. cbn [fst snd].
  set (i := findSegment (map Fin (cumulativeKm pts)) (Fin t)) in *.
  assert (H1 : In (nth i pts (0, 0)) pts) by (apply nth_In; lia).
  assert (H2 : In (nth (S i) pts (0, 0)) pts) by (apply nth_In; lia).
  split; apply lerp_between; try assumption;
    apply between_minOf_maxOf; now apply in_map.
Qed.

Lemma totalKm_nonneg (pts : list (R * R)) : 0 <= totalKm pts.
Proof. apply arcLength_nonneg. Qed.

Lemma target_in_range (pts : list (R * R)) (x : R) :
  0 <= frac x * totalKm pts <= totalKm pts.
Proof.
  pose proof (frac_bounds x). pose proof (totalKm_nonneg pts).
  split; [apply Rmult_le_pos; lra |].
  assert (0 <= (1 - frac x) * totalKm pts) by (apply Rmult_le_pos; lra). lra.
Qed.

(** On a finite path and a finite fraction both samplers return the
    point at arc length [frac x * total]. *)
Lemma MapScreen_positionAtFraction_finite (pts : list (R * R)) (x : R) :
  (2 <= length pts)%nat ->
  MapScreen.positionAtFraction (map point pts) (map Fin (cumulativeKm pts))
    (Fin (totalKm pts)) (Fin x)
  = point (pointAlong pts (frac x * totalKm pts)).
Proof.
  intros Hlen. pose proof (target_in_range pts x) as Ht.
  destruct (located_segment pts Hlen _ Ht) as [Hi _].
  unfold MapScreen.positionAtFraction. rewrite wrap_Fin. cbn [mul].
  rewrite (MapScreen_segFraction_finite pts Hlen _ Ht).
  rewrite length_map, (next_index pts Hlen _ Ht).
  rewrite !nth_point by lia.
  reflexivity.
Qed.

Lemma TransportService_positionAtPct_finite (pts : list (R * R)) (x : R) :
  (2 <= length pts)%nat ->
  TransportService.positionAtPct (map point pts) (map Fin (cumulativeKm pts))
    (Fin (totalKm pts)) (Fin x)
  = point (pointAlong pts (frac x * totalKm pts)).
Proof.
  intros Hlen. pose proof (target_in_range pts x) as Ht.
  destruct (located_segment pts Hlen _ Ht) as [Hi _].
  unfold TransportService.positionAtPct. rewrite wrap_Fin. cbn [mul].
  rewrite (TransportService_segPct_finite pts Hlen _ Ht).
  rewrite length_map, (next_index pts Hlen _ Ht).
  rewrite !nth_point by lia.
  reflexivity.
Qed.

(** ** The generators, unfolded *)

(** A property of every vehicle of an output list, which is the
    direction-0 vehicles followed by the direction-1 vehicles, is shown
    for the vehicle of slot [i] of either direction. *)
Ltac each_vehicle i :=
  apply Forall_app; split; apply Forall_map, Forall_forall; intros i _.

Lemma pushEach_spec (make : nat -> LiveVehicle) (n : nat) (vehicles : list LiveVehicle) :
  pushEach make n vehicles = vehicles ++ map make (seq 0 n).
Proof.
  unfold pushEach. generalize (seq 0 n) as l. intros l. revert vehicles.
  induction l as [| i l IH]; intros vehicles; cbn [fold_left map].
  - now rewrite app_nil_r.
  - rewrite IH, <- app_assoc. reflexivity.
Qed.

Lemma Zceil_IZR (z : Z) : Zceil (IZR z) = z.
Proof. unfold Zceil. rewrite ZfloorNZ. lia. Qed.

Lemma MapScreen_busesPerDirection : MapScreen.busesPerDirection = 6%nat.
Proof.
  unfold MapScreen.busesPerDirection, MapScreen.TRIP_MIN, MapScreen.HEADWAY_MIN.
  replace (60 / 10) with (IZR 6) by (simpl; field).
  rewrite Zceil_IZR. reflexivity.
Qed.

Lemma TransportService_busesPerDir : TransportService.busesPerDir = 3%nat.
Proof.
  unfold TransportService.busesPerDir, TransportService.TRIP_DURATION_MIN,
    TransportService.HEADWAY_MIN.
  replace (45 / 15) with (IZR 3) by (simpl; field).
  rewrite Zceil_IZR. reflexivity.
Qed.

Lemma MapScreen_generate_unfold (clock : Date) (route : Route)
    (shapePoints : list Point) (now : option Date) :
  let d := match now with Some d => d | None => clock end in
  let cumulative := fst (pathLengths Utils.calculateDistance shapePoints) in
  let total := snd (pathLengths Utils.calculateDistance shapePoints) in
  let make := MapScreen.makeVehicleAtFraction route shapePoints cumulative total d in
  MapScreen.generateSimulatedVehiclesForRoute clock route shapePoints now
  = if (length shapePoints <? 2)%nat then []
    else if (total === 0)%js then []
    else map (fun i => make (MapScreen.progress d i) i 0%nat) (seq 0 6)
         ++ map (fun i => make (1 - MapScreen.progress d i)%js i 1%nat) (seq 0 6).
Proof.
  intros d cumulative total make.
  unfold MapScreen.generateSimulatedVehiclesForRoute.
  fold d. subst make cumulative total.
  destruct (pathLengths Utils.calculateDistance shapePoints) as [cumulative total].
  cbn [fst snd].
  rewrite !pushEach_spec, MapScreen_busesPerDirection. reflexivity.
Qed.

Lemma TransportService_generate_unfold (route : Route)
    (shapePoints : list Point) (now : Date) :
  let cumulative := fst (pathLengths TransportService.calculateDistance shapePoints) in
  let total := snd (pathLengths TransportService.calculateDistance shapePoints) in
  let place := TransportService.placeVehicle route shapePoints cumulative total now in
  TransportService.generateSimulatedVehiclesForRoute route shapePoints now
  = if (length shapePoints <? 2)%nat then []
    else map (fun i => place (TransportService.progressOutbound now i) 0%nat i) (seq 0 3)
         ++ map (fun i => place (TransportService.progressInbound now i) 1%nat i) (seq 0 3).
Proof.
  intros cumulative total place.
  unfold TransportService.generateSimulatedVehiclesForRoute.
  subst place cumulative total.
  destruct (pathLengths TransportService.calculateDistance shapePoints)
    as [cumulative total].
  cbn [fst snd].
  rewrite !pushEach_spec, TransportService_busesPerDir. reflexivity.
Qed.

Lemma MapScreen_coordinates (route : Route) (shapePoints : list Point)
    (cumulative : list num) (total : num) (now : Date) (fraction : num)
    (index dir : nat) :
  coordinates (MapScreen.makeVehicleAtFraction route shapePoints cumulative total
                 now fraction index dir)
  = MapScreen.positionAtFraction shapePoints cumulative total fraction.
Proof.
  unfold MapScreen.makeVehicleAtFraction.
  destruct (MapScreen.positionAtFraction shapePoints cumulative total fraction).
  reflexivity.
Qed.

Lemma TransportService_coordinates (route : Route) (shapePoints : list Point)
    (cumulative : list num) (total : num) (now : Date) (pct : num)
    (dir idx : nat) :
  coordinates (TransportService.placeVehicle route shapePoints cumulative total
                 now pct dir idx)
  = TransportService.positionAtPct shapePoints cumulative total pct.
Proof.
  unfold TransportService.placeVehicle.
  destruct (TransportService.positionAtPct shapePoints cumulative total pct).
  reflexivity.
Qed.

(** Both samplers read the fraction only through its wrapped value. *)
Lemma MapScreen_position_wrap (shapePoints : list Point) (cumulative : list num)
    (total f1 f2 : num) :
  wrap f1 = wrap f2 ->
  MapScreen.positionAtFraction shapePoints cumulative total f1
  = MapScreen.positionAtFraction shapePoints cumulative total f2.
Proof. intros H. unfold MapScreen.positionAtFraction. now rewrite H. Qed.

Lemma TransportService_position_wrap (shapePoints : list Point)
    (cumulative : list num) (total f1 f2 : num) :
  wrap f1 = wrap f2 ->
  TransportService.positionAtPct shapePoints cumulative total f1
  = TransportService.positionAtPct shapePoints cumulative total f2.
Proof. intros H. unfold TransportService.positionAtPct. now rewrite H. Qed.

(** ** Valid dates *)

Lemma clock_shift (L T : Z) :
  exists k : Z,
    ((((L + T * 60000) / 3600000) mod 24) * 60 + ((L + T * 60000) / 60000) mod 60
     = ((L / 3600000) mod 24) * 60 + (L / 60000) mod 60 + T - 1440 * k
     /\ ((L + T * 60000) / 1000) mod 60 = (L / 1000) mod 60)%Z.
Proof.
  exists (((L + T * 60000) / 3600000) / 24 - (L / 3600000) / 24)%Z.
  Z.to_euclidean_division_equations. lia.
Qed.

(** Advancing the clock by [T] minutes advances the minutes since
    midnight by [T], up to whole days. *)
Lemma minutesOfDay_later (tz ms T : Z) :
  exists k : Z,
    minutesOfDay tz (ms + T * 60000) = minutesOfDay tz ms + IZR T - 1440 * IZR k.
Proof.
  unfold minutesOfDay.
  replace (ms + T * 60000 + tz * 60000)%Z with (ms + tz * 60000 + T * 60000)%Z by lia.
  destruct (clock_shift (ms + tz * 60000) T) as (k & Hhm & Hs).
  exists k. rewrite Hs.
  apply (f_equal IZR) in Hhm.
  rewrite minus_IZR, !plus_IZR, !mult_IZR in Hhm.
  lra.
Qed.

Lemma minutes_valid (tz ms : Z) :
  MapScreen.minutesSinceMidnight (dateAt tz ms) = Fin (minutesOfDay tz ms)
  /\ TransportService.timeVal (dateAt tz ms) = Fin (minutesOfDay tz ms).
Proof.
  unfold MapScreen.minutesSinceMidnight, TransportService.timeVal, dateAt, minutesOfDay.
  cbn. rewrite Reqb_false by lra. split; reflexivity.
Qed.

Lemma MapScreen_progress_valid (tz ms : Z) (i : nat) :
  MapScreen.progress (dateAt tz ms) i
  = Fin ((minutesOfDay tz ms - INR i * 10) / 60).
Proof.
  unfold MapScreen.progress. rewrite (proj1 (minutes_valid tz ms)).
  unfold MapScreen.HEADWAY_MIN, MapScreen.TRIP_MIN. cbn.
  rewrite Reqb_false by lra. reflexivity.
Qed.

Lemma TransportService_progressOutbound_valid (tz ms : Z) (i : nat) :
  TransportService.progressOutbound (dateAt tz ms) i
  = Fin ((minutesOfDay tz ms - INR i * 15) / 45).
Proof.
  unfold TransportService.progressOutbound. rewrite (proj2 (minutes_valid tz ms)).
  unfold TransportService.HEADWAY_MIN, TransportService.TRIP_DURATION_MIN. cbn.
  rewrite Reqb_false by lra. reflexivity.
Qed.

Lemma TransportService_progressInbound_valid (tz ms : Z) (i : nat) :
  TransportService.progressInbound (dateAt tz ms) i
  = Fin (1 - (minutesOfDay tz ms - (INR i * 15 + 15 / 2)) / 45).
Proof.
  unfold TransportService.progressInbound. rewrite (proj2 (minutes_valid tz ms)).
  unfold TransportService.HEADWAY_MIN, TransportService.TRIP_DURATION_MIN.
  cbn [mul add sub]. rewrite div_Fin by lra. cbn [mul add sub].
  rewrite div_Fin by lra. reflexivity.
Qed.

(** ** Wrapping *)

Lemma wrap_nonfinite (a : num) : (forall x, a <> Fin x) -> wrap a = NaN.
Proof. intros H. destruct a; try reflexivity. now destruct (H r). Qed.

Lemma wrap_shift (x y : R) (z : Z) : y = x + IZR z -> wrap (Fin y) = wrap (Fin x).
Proof. intros ->. apply wrap_add_Z. Qed.

(** Reversing a progress and reversing its wrapped value agree after
    wrapping. *)
Lemma wrap_reverse (a : num) : wrap (1 - a)%js = wrap (1 - wrap a)%js.
Proof.
  destruct a as [x | | |]; try reflexivity.
  rewrite wrap_Fin. cbn [sub].
  apply (wrap_shift _ _ (- Zfloor x)). unfold frac. rewrite opp_IZR. lra.
Qed.

(** Away from the start of the path the reversed wrapped progress needs
    no further wrapping. *)
Lemma wrap_reverse_interior (x : R) :
  frac x <> 0 -> wrap (1 - wrap (Fin x))%js = Fin (1 - frac x).
Proof.
  intros H. rewrite wrap_Fin. cbn [sub]. rewrite wrap_Fin. f_equal.
  pose proof (frac_bounds x). apply frac_small. lra.
Qed.

(** ** The generators on finite paths *)

Lemma pathLengths_Utils (pts : list (R * R)) :
  (2 <= length pts)%nat ->
  pathLengths Utils.calculateDistance (map point pts)
  = (map Fin (cumulativeKm pts), Fin (totalKm pts)).
Proof.
  intros H. apply pathLengths_finite.
  - exact Utils_calculateDistance_Fin.
  - intros ->. simpl in H. lia.
Qed.

Lemma pathLengths_TransportService (pts : list (R * R)) :
  (2 <= length pts)%nat ->
  pathLengths TransportService.calculateDistance (map point pts)
  = (map Fin (cumulativeKm pts), Fin (totalKm pts)).
Proof.
  intros H. apply pathLengths_finite.
  - exact TransportService_calculateDistance_Fin.
  - intros ->. simpl in H. lia.
Qed.

Lemma short_path_false {A : Type} (l : list A) :
  (2 <= length l)%nat -> (length l <? 2)%nat = false.
Proof. intros H. apply Nat.ltb_ge. exact H. Qed.

Lemma MapScreen_generate_finite (clock : Date) (route : Route)
    (pts : list (R * R)) (now : Date) :
  (2 <= length pts)%nat ->
  let make := MapScreen.makeVehicleAtFraction route (map point pts)
                (map Fin (cumulativeKm pts)) (Fin (totalKm pts)) now in
  MapScreen.generateSimulatedVehiclesForRoute clock route (map point pts) (Some now)
  = if Reqb (totalKm pts) 0 then []
    else map (fun i => make (MapScreen.progress now i) i 0%nat) (seq 0 6)
         ++ map (fun i => make (1 - MapScreen.progress now i)%js i 1%nat) (seq 0 6).
Proof.
  intros H make. rewrite MapScreen_generate_unfold.
  rewrite short_path_false by now rewrite length_map.
  rewrite pathLengths_Utils by assumption. reflexivity.
Qed.

Lemma TransportService_generate_finite (route : Route)
    (pts : list (R * R)) (now : Date) :
  (2 <= length pts)%nat ->
  let place := TransportService.placeVehicle route (map point pts)
                 (map Fin (cumulativeKm pts)) (Fin (totalKm pts)) now in
  TransportService.generateSimulatedVehiclesForRoute route (map point pts) now
  = map (fun i => place (TransportService.progressOutbound now i) 0%nat i) (seq 0 3)
    ++ map (fun i => place (TransportService.progressInbound now i) 1%nat i) (seq 0 3).
Proof.
  intros H place. rewrite TransportService_generate_unfold.
  rewrite short_path_false by now rewrite length_map.
  rewrite pathLengths_TransportService by assumption. reflexivity.
Qed.

Lemma MapScreen_vehicle_on_path (route : Route) (pts : list (R * R)) (now : Date)
    (x : R) (index dir : nat) :
  (2 <= length pts)%nat ->
  onPath pts (MapScreen.makeVehicleAtFraction route (map point pts)
                (map Fin (cumulativeKm pts)) (Fin (totalKm pts)) now (Fin x) index dir).
Proof.
  intros H. exists (pointAlong pts (frac x * totalKm pts)). split.
  - rewrite MapScreen_coordinates. now apply MapScreen_positionAtFraction_finite.
  - apply pointAlong_in_box; [assumption | apply target_in_range].
Qed.

Lemma TransportService_vehicle_on_path (route : Route) (pts : list (R * R))
    (now : Date) (x : R) (dir idx : nat) :
  (2 <= length pts)%nat ->
  onPath pts (TransportService.placeVehicle route (map point pts)
                (map Fin (cumulativeKm pts)) (Fin (totalKm pts)) now (Fin x) dir idx).
Proof.
  intros H. exists (pointAlong pts (frac x * totalKm pts)). split.
  - rewrite TransportService_coordinates. now apply TransportService_positionAtPct_finite.
  - apply pointAlong_in_box; [assumption | apply target_in_range].
Qed.

(** ** Path containment *)

Lemma MapScreen_all_on_path (clock : Date) (route : Route) (pts : list (R * R))
    (tz ms : Z) :
  (2 <= length pts)%nat ->
  Forall (onPath pts)
    (MapScreen.generateSimulatedVehiclesForRoute clock route (map point pts)
       (Some (dateAt tz ms))).
Proof.
  intros H. rewrite MapScreen_generate_finite by assumption.
  destruct (Reqb (totalKm pts) 0); [constructor |].
  each_vehicle i;
    rewrite MapScreen_progress_valid; now apply MapScreen_vehicle_on_path.
Qed.

Lemma TransportService_all_on_path (route : Route) (pts : list (R * R))
    (tz ms : Z) :
  (2 <= length pts)%nat ->
  Forall (onPath pts)
    (TransportService.generateSimulatedVehiclesForRoute route (map point pts)
       (dateAt tz ms)).
Proof.
  intros H. rewrite TransportService_generate_finite by assumption.
  each_vehicle i.
  - rewrite TransportService_progressOutbound_valid.
    now apply TransportService_vehicle_on_path.
  - rewrite TransportService_progressInbound_valid.
    now apply TransportService_vehicle_on_path.
Qed.

Lemma MapScreen_sample_on_path (pts : list (R * R)) (x : R) :
  (2 <= length pts)%nat ->
  exists p,
    MapScreen.positionAtFraction (map point pts)
      (fst (pathLengths Utils.calculateDistance (map point pts)))
      (snd (pathLengths Utils.calculateDistance (map point pts))) (Fin x)
    = point p /\ inBoundingBox pts p.
Proof.
  intros H. rewrite pathLengths_Utils by assumption. cbn [fst snd].
  exists (pointAlong pts (frac x * totalKm pts)). split.
  - now apply MapScreen_positionAtFraction_finite.
  - apply pointAlong_in_box; [assumption | apply target_in_range].
Qed.

Lemma TransportService_sample_on_path (pts : list (R * R)) (x : R) :
  (2 <= length pts)%nat ->
  exists p,
    TransportService.positionAtPct (map point pts)
      (fst (pathLengths TransportService.calculateDistance (map point pts)))
      (snd (pathLengths TransportService.calculateDistance (map point pts))) (Fin x)
    = point p /\ inBoundingBox pts p.
Proof.
  intros H. rewrite pathLengths_TransportService by assumption. cbn [fst snd].
  exists (pointAlong pts (frac x * totalKm pts)). split.
  - now apply TransportService_positionAtPct_finite.
  - apply pointAlong_in_box; [assumption | apply target_in_range].
Qed.


(** ** Periodicity *)

Lemma MapScreen_progress_later (tz ms : Z) (i : nat) :
  wrap (MapScreen.progress (minutesLater 60 tz ms) i)
  = wrap (MapScreen.progress (dateAt tz ms) i)
  /\ wrap (1 - MapScreen.progress (minutesLater 60 tz ms) i)%js
     = wrap (1 - MapScreen.progress (dateAt tz ms) i)%js.
Proof.
  unfold minutesLater. rewrite !MapScreen_progress_valid.
  destruct (minutesOfDay_later tz ms 60) as [k Hk]. rewrite Hk. cbn [sub].
  split.
  - apply (wrap_shift _ _ (1 - 24 * k)). rewrite minus_IZR, mult_IZR. field.
  - apply (wrap_shift _ _ (24 * k - 1)). rewrite minus_IZR, mult_IZR. field.
Qed.

Lemma TransportService_progress_later (tz ms : Z) (i : nat) :
  wrap (TransportService.progressOutbound (minutesLater 45 tz ms) i)
  = wrap (TransportService.progressOutbound (dateAt tz ms) i)
  /\ wrap (TransportService.progressInbound (minutesLater 45 tz ms) i)
     = wrap (TransportService.progressInbound (dateAt tz ms) i).
Proof.
  unfold minutesLater.
  rewrite !TransportService_progressOutbound_valid, !TransportService_progressInbound_valid.
  destruct (minutesOfDay_later tz ms 45) as [k Hk]. rewrite Hk.
  split.
  - apply (wrap_shift _ _ (1 - 32 * k)). rewrite minus_IZR, mult_IZR. field.
  - apply (wrap_shift _ _ (32 * k - 1)). rewrite minus_IZR, mult_IZR. field.
Qed.


(** ** Reading the two halves of the output *)

Lemma nth_error_outbound {A : Type} (f g : nat -> A) (n i : nat) :
  (i < n)%nat ->
  nth_error (map f (seq 0 n) ++ map g (seq 0 n)) i = Some (f i).
Proof.
  intros H. rewrite nth_error_app1 by now rewrite length_map, length_seq.
  rewrite nth_error_map, nth_error_seq.
  apply Nat.ltb_lt in H. rewrite H. reflexivity.
Qed.

Lemma nth_error_inbound {A : Type} (f g : nat -> A) (n i : nat) :
  (i < n)%nat ->
  nth_error (map f (seq 0 n) ++ map g (seq 0 n)) (n + i) = Some (g i).
Proof.
  intros H. rewrite nth_error_app2 by (rewrite length_map, length_seq; lia).
  rewrite length_map, length_seq.
  replace (n + i - n)%nat with i by lia.
  rewrite nth_error_map, nth_error_seq.
  apply Nat.ltb_lt in H. rewrite H. reflexivity.
Qed.

Lemma wrap_idempotent (a : num) : wrap (wrap a) = wrap a.
Proof.
  destruct a as [x | | |]; try reflexivity.
  rewrite !wrap_Fin. f_equal. apply frac_small, frac_bounds.
Qed.

Lemma div_infinite (y : R) :
  0 < y -> (PInf / Fin y)%js = PInf /\ (NInf / Fin y)%js = NInf.
Proof. intros H. unfold div. rewrite Rltb_false by lra. split; reflexivity. Qed.

(** The inbound progress of transportService.ts is the reversed outbound
    progress, moved on by half a headway: [7.5 / 45 = 1 / 6]. *)
Lemma TransportService_inbound_shift (now : Date) (i : nat) :
  wrap (TransportService.progressInbound now i)
  = wrap (1 - wrap (TransportService.progressOutbound now i) + Fin (1 / 6))%js.
Proof.
  unfold TransportService.progressInbound, TransportService.progressOutbound,
    TransportService.HEADWAY_MIN, TransportService.TRIP_DURATION_MIN.
  assert (H45 : 0 < 45) by lra. destruct (div_infinite 45 H45) as [HP HN].
  rewrite (div_Fin 15 2) by lra.
  destruct (TransportService.timeVal now) as [m | | |]; cbn [mul add sub neg].
  - rewrite !div_Fin by lra.
    rewrite !wrap_Fin. cbn [sub add]. rewrite wrap_Fin. f_equal.
    rewrite <- (frac_add_Z _ (Zfloor ((m - INR i * 15) / 45))).
    f_equal. unfold frac. field.
  - rewrite HP. reflexivity.
  - rewrite HN. reflexivity.
  - reflexivity.
Qed.

(** ** Two-point paths *)

Lemma pointAlong_two_points (a b : R * R) (f : R) :
  0 < totalKm [a; b] -> 0 <= f < 1 ->
  pointAlong [a; b] (f * totalKm [a; b])
  = (fst a + (fst b - fst a) * f, snd a + (snd b - snd a) * f).
Proof.
  intros HT Hf.
  assert (Hlen : (2 <= length [a; b])%nat) by (simpl; lia).
  assert (Ht : 0 <= f * totalKm [a; b] <= totalKm [a; b]).
  { split; [apply Rmult_le_pos; lra |].
    assert (0 <= (1 - f) * totalKm [a; b]) by (apply Rmult_le_pos; lra). lra. }
  destruct (located_segment _ Hlen _ Ht) as [Hi _].
  unfold pointAlong.
  replace (findSegment (map Fin (cumulativeKm [a; b])) (Fin (f * totalKm [a; b])))
    with 0%nat by (change (length [a; b]) with 2%nat in Hi; lia).
  change (arcLength [a; b] 1) with (totalKm [a; b]).
  change (arcLength [a; b] 0) with 0.
  unfold lerpFactor. rewrite Reqb_false by lra.
  replace ((f * totalKm [a; b] - 0) / (totalKm [a; b] - 0)) with f by (field; lra).
  reflexivity.
Qed.

Lemma totalKm_meridianPath : 0 < totalKm meridianPath.
Proof.
  unfold totalKm, meridianPath. cbn [length Nat.sub arcLength nth fst snd].
  pose proof (greatCircleKm_meridian_pos 0 1 0 ltac:(lra)). lra.
Qed.

Lemma minutesOfDay_quarterPast : minutesOfDay 0 675000 = 45 / 4.
Proof.
  unfold minutesOfDay.
  change ((675000 + 0 * 60000) / 3600000 mod 24)%Z with 0%Z.
  change ((675000 + 0 * 60000) / 60000 mod 60)%Z with 11%Z.
  change ((675000 + 0 * 60000) / 1000 mod 60)%Z with 15%Z.
  lra.
Qed.

(** ** Direction symmetry *)

Lemma MapScreen_nonempty_unfold (clock : Date) (route : Route)
    (shapePoints : list Point) (now : option Date) :
  MapScreen.generateSimulatedVehiclesForRoute clock route shapePoints now <> [] ->
  let d := match now with Some d => d | None => clock end in
  let cumulative := fst (pathLengths Utils.calculateDistance shapePoints) in
  let total := snd (pathLengths Utils.calculateDistance shapePoints) in
  let make := MapScreen.makeVehicleAtFraction route shapePoints cumulative total d in
  MapScreen.generateSimulatedVehiclesForRoute clock route shapePoints now
  = map (fun i => make (MapScreen.progress d i) i 0%nat) (seq 0 6)
    ++ map (fun i => make (1 - MapScreen.progress d i)%js i 1%nat) (seq 0 6).
Proof.
  rewrite MapScreen_generate_unfold. cbv zeta.
  destruct (length shapePoints <? 2)%nat; [congruence |].
  destruct (snd (pathLengths Utils.calculateDistance shapePoints) === 0)%js;
    [congruence | reflexivity].
Qed.

Lemma TransportService_served_unfold (route : Route)
    (shapePoints : list Point) (now : Date) :
  (2 <= length shapePoints)%nat ->
  let cumulative := fst (pathLengths TransportService.calculateDistance shapePoints) in
  let total := snd (pathLengths TransportService.calculateDistance shapePoints) in
  let place := TransportService.placeVehicle route shapePoints cumulative total now in
  TransportService.generateSimulatedVehiclesForRoute route shapePoints now
  = map (fun i => place (TransportService.progressOutbound now i) 0%nat i) (seq 0 3)
    ++ map (fun i => place (TransportService.progressInbound now i) 1%nat i) (seq 0 3).
Proof.
  intros H. rewrite TransportService_generate_unfold. cbv zeta.
  now rewrite short_path_false.
Qed.



(** ** Cardinality *)

Lemma totalKm_stalledPath : totalKm stalledPath = 0.
Proof.
  unfold totalKm, stalledPath. cbn [length Nat.sub arcLength nth fst snd].
  rewrite greatCircleKm_same. lra.
Qed.

(** C1, as the code has it.  Both generators return no vehicle for a
    path of fewer than two points.  For a path of at least two points
    transportService.ts returns [2 * ceil (45 / 15)] vehicles, and
    MapScreen.tsx returns [2 * ceil (60 / 10)] vehicles unless the total
    length of the path is zero, in which case it returns none. *)
Theorem cardinality (clock : Date) (route : Route) (shapePoints : list Point)
    (now : option Date) (nowT : Date) :
  length (MapScreen.generateSimulatedVehiclesForRoute clock route shapePoints now)
  = (if (length shapePoints <? 2)%nat then 0
     else if (snd (pathLengths Utils.calculateDistance shapePoints) === Fin 0)%js then 0
     else 2 * Z.to_nat (Zceil (MapScreen.TRIP_MIN / MapScreen.HEADWAY_MIN)))%nat
  /\ length (TransportService.generateSimulatedVehiclesForRoute route shapePoints nowT)
     = (if (length shapePoints <? 2)%nat then 0
        else 2 * Z.to_nat (Zceil (TransportService.TRIP_DURATION_MIN
                                  / TransportService.HEADWAY_MIN)))%nat.
Proof.
  pose proof MapScreen_busesPerDirection as HM.
  pose proof TransportService_busesPerDir as HT.
  unfold MapScreen.busesPerDirection in HM. unfold TransportService.busesPerDir in HT.
  assert (HM' : Z.to_nat (Zceil (MapScreen.TRIP_MIN / MapScreen.HEADWAY_MIN)) = 6%nat) by lia.
  rewrite HM', HT.
  rewrite MapScreen_generate_unfold, TransportService_generate_unfold. cbv zeta.
  destruct (length shapePoints <? 2)%nat; [split; reflexivity |].
  split.
  - destruct (snd (pathLengths Utils.calculateDistance shapePoints) === Fin 0)%js;
      [reflexivity |].
    now rewrite length_app, !length_map, !length_seq.
  - now rewrite length_app, !length_map, !length_seq.
Qed.

(** C1 as stated fails in MapScreen.tsx: a path of two identical points
    has two points, yet no vehicle is returned for it. *)
Lemma cardinality_counterexample :
  (2 <= length (map point stalledPath))%nat
  /\ MapScreen.generateSimulatedVehiclesForRoute quarterPast route15
       (map point stalledPath) (Some quarterPast) = []
  /\ (2 * Z.to_nat (Zceil (MapScreen.TRIP_MIN / MapScreen.HEADWAY_MIN)))%nat = 12%nat.
Proof.
  split; [simpl; lia |]. split.
  - rewrite MapScreen_generate_finite by (simpl; lia). cbv zeta.
    rewrite totalKm_stalledPath, Reqb_true; reflexivity.
  - pose proof MapScreen_busesPerDirection as HM.
    unfold MapScreen.busesPerDirection in HM. lia.
Qed.

(** ** Determinism *)


(** ** Identifiers *)

Lemma MapScreen_ids_unfold (clock : Date) (route : Route)
    (shapePoints : list Point) (now : option Date) :
  map vehicle_id (MapScreen.generateSimulatedVehiclesForRoute clock route shapePoints now)
  = if (length shapePoints <? 2)%nat
       || (snd (pathLengths Utils.calculateDistance shapePoints) === Fin 0)%js
    then []
    else map (MapScreen.vehicleId route 0) (seq 0 6)
         ++ map (MapScreen.vehicleId route 1) (seq 0 6).
Proof.
  rewrite MapScreen_generate_unfold. cbv zeta.
  destruct (length shapePoints <? 2)%nat; [reflexivity |].
  destruct (snd (pathLengths Utils.calculateDistance shapePoints) === Fin 0)%js;
    [reflexivity |].
  cbn [orb]. rewrite map_app, !map_map.
  f_equal; apply map_ext; intros i; unfold MapScreen.makeVehicleAtFraction;
    destruct (MapScreen.positionAtFraction _ _ _ _); reflexivity.
Qed.

Lemma TransportService_ids_unfold (route : Route)
    (shapePoints : list Point) (now : Date) :
  map vehicle_id (TransportService.generateSimulatedVehiclesForRoute route shapePoints now)
  = if (length shapePoints <? 2)%nat then []
    else map (TransportService.vehicleId route 0) (seq 0 3)
         ++ map (TransportService.vehicleId route 1) (seq 0 3).
Proof.
  rewrite TransportService_generate_unfold. cbv zeta.
  destruct (length shapePoints <? 2)%nat; [reflexivity |].
  rewrite map_app, !map_map.
  f_equal; apply map_ext; intros i; unfold TransportService.placeVehicle;
    destruct (TransportService.positionAtPct _ _ _ _); reflexivity.
Qed.

(** C7.  The identifier of the vehicle of direction [d] and slot [i] is
    [vehicleId route d i], a text built from the route id, [d] and [i]
    alone; the list of identifiers a generator returns for a route and a
    path is the same at every reference time. *)
Theorem identifier_stability (clock1 clock2 : Date) (route : Route)
    (shapePoints : list Point) (now1 now2 : option Date) (t1 t2 : Date)
    (d i : nat) :
  (map vehicle_id
     (MapScreen.generateSimulatedVehiclesForRoute clock1 route shapePoints now1)
   = (if (length shapePoints <? 2)%nat
         || (snd (pathLengths Utils.calculateDistance shapePoints) === Fin 0)%js
      then []
      else map (MapScreen.vehicleId route 0) (seq 0 6)
           ++ map (MapScreen.vehicleId route 1) (seq 0 6))
   /\ map vehicle_id
        (MapScreen.generateSimulatedVehiclesForRoute clock1 route shapePoints now1)
      = map vehicle_id
          (MapScreen.generateSimulatedVehiclesForRoute clock2 route shapePoints now2)
   /\ MapScreen.vehicleId route d i
      = ("SIM-" ++ route_id route ++ "-" ++ natToString d ++ "-" ++ natToString i)%string)
  /\
  (map vehicle_id
     (TransportService.generateSimulatedVehiclesForRoute route shapePoints t1)
   = (if (length shapePoints <? 2)%nat then []
      else map (TransportService.vehicleId route 0) (seq 0 3)
           ++ map (TransportService.vehicleId route 1) (seq 0 3))
   /\ map vehicle_id
        (TransportService.generateSimulatedVehiclesForRoute route shapePoints t1)
      = map vehicle_id
          (TransportService.generateSimulatedVehiclesForRoute route shapePoints t2)
   /\ TransportService.vehicleId route d i
      = ("GTFS-" ++ route_id route ++ "-" ++ natToString d ++ "-" ++ natToString i)%string).
Proof.
  repeat split.
  - apply MapScreen_ids_unfold.
  - now rewrite !MapScreen_ids_unfold.
  - apply TransportService_ids_unfold.
  - now rewrite !TransportService_ids_unfold.
Qed.

(** ** Snapshot consistency *)

Lemma append_inj (p a b : string) : (p ++ a)%string = (p ++ b)%string -> a = b.
Proof.
  induction p as [| c p IH]; cbn [append]; intros H; [exact H |].
  injection H as H. auto.
Qed.

Lemma NoDup_prefixed (p q : string) (suffixes : list string) :
  NoDup suffixes -> NoDup (map (fun s => (p ++ q ++ s)%string) suffixes).
Proof.
  induction 1 as [| s suffixes Hs _ IH]; cbn [map]; constructor; [| exact IH].
  intros Hin. apply in_map_iff in Hin as (s' & E & Hs').
  apply append_inj, append_inj in E. now subst s'.
Qed.

Lemma MapScreen_ids_NoDup (route : Route) :
  NoDup (map (MapScreen.vehicleId route 0) (seq 0 6)
         ++ map (MapScreen.vehicleId route 1) (seq 0 6)).
Proof.
  change (NoDup (map (fun s => ("SIM-" ++ route_id route ++ s)%string)
                   ["-0-0"; "-0-1"; "-0-2"; "-0-3"; "-0-4"; "-0-5";
                    "-1-0"; "-1-1"; "-1-2"; "-1-3"; "-1-4"; "-1-5"]%string)).
  apply NoDup_prefixed.
  repeat (constructor; [cbn [In]; intuition discriminate |]). constructor.
Qed.

Lemma TransportService_ids_NoDup (route : Route) :
  NoDup (map (TransportService.vehicleId route 0) (seq 0 3)
         ++ map (TransportService.vehicleId route 1) (seq 0 3)).
Proof.
  change (NoDup (map (fun s => ("GTFS-" ++ route_id route ++ s)%string)
                   ["-0-0"; "-0-1"; "-0-2"; "-1-0"; "-1-1"; "-1-2"]%string)).
  apply NoDup_prefixed.
  repeat (constructor; [cbn [In]; intuition discriminate |]). constructor.
Qed.

Lemma MapScreen_timestamp (route : Route) (shapePoints : list Point)
    (cumulative : list num) (total : num) (now : Date) (fraction : num)
    (index dir : nat) :
  timestamp (MapScreen.makeVehicleAtFraction route shapePoints cumulative total
               now fraction index dir) = getTime now.
Proof.
  unfold MapScreen.makeVehicleAtFraction.
  destruct (MapScreen.positionAtFraction _ _ _ _). reflexivity.
Qed.

Lemma TransportService_timestamp (route : Route) (shapePoints : list Point)
    (cumulative : list num) (total : num) (now : Date) (pct : num)
    (dir idx : nat) :
  timestamp (TransportService.placeVehicle route shapePoints cumulative total
               now pct dir idx) = getTime now.
Proof.
  unfold TransportService.placeVehicle.
  destruct (TransportService.positionAtPct _ _ _ _). reflexivity.
Qed.

Lemma MapScreen_all_timestamps (clock : Date) (route : Route)
    (shapePoints : list Point) (now : option Date) :
  Forall (fun v => timestamp v
                   = getTime (match now with Some d => d | None => clock end))
    (MapScreen.generateSimulatedVehiclesForRoute clock route shapePoints now).
Proof.
  rewrite MapScreen_generate_unfold. cbv zeta.
  destruct (length shapePoints <? 2)%nat; [constructor |].
  destruct (snd (pathLengths Utils.calculateDistance shapePoints) === 0)%js;
    [constructor |].
  each_vehicle i;
    apply MapScreen_timestamp.
Qed.

Lemma TransportService_all_timestamps (route : Route)
    (shapePoints : list Point) (now : Date) :
  Forall (fun v => timestamp v = getTime now)
    (TransportService.generateSimulatedVehiclesForRoute route shapePoints now).
Proof.
  rewrite TransportService_generate_unfold. cbv zeta.
  destruct (length shapePoints <? 2)%nat; [constructor |].
  each_vehicle i;
    apply TransportService_timestamp.
Qed.

(** C10.  In every list a generator returns the vehicle identifiers are
    pairwise distinct, and every vehicle carries the epoch time of the
    reference time of that invocation (the system clock when MapScreen.tsx
    is called without one). *)
Theorem snapshot_consistency (clock : Date) (route : Route)
    (shapePoints : list Point) (now : option Date) (nowT : Date) :
  (NoDup (map vehicle_id
            (MapScreen.generateSimulatedVehiclesForRoute clock route shapePoints now))
   /\ Forall (fun v => timestamp v
                       = getTime (match now with Some d => d | None => clock end))
        (MapScreen.generateSimulatedVehiclesForRoute clock route shapePoints now))
  /\
  (NoDup (map vehicle_id
            (TransportService.generateSimulatedVehiclesForRoute route shapePoints nowT))
   /\ Forall (fun v => timestamp v = getTime nowT)
        (TransportService.generateSimulatedVehiclesForRoute route shapePoints nowT)).
Proof.
  repeat split.
  - rewrite MapScreen_ids_unfold.
    destruct ((length shapePoints <? 2)%nat
              || (snd (pathLengths Utils.calculateDistance shapePoints) === 0)%js);
      [constructor | apply MapScreen_ids_NoDup].
  - apply MapScreen_all_timestamps.
  - rewrite TransportService_ids_unfold.
    destruct (length shapePoints <? 2)%nat;
      [constructor | apply TransportService_ids_NoDup].
  - apply TransportService_all_timestamps.
Qed.

(** ** Invalid dates *)

Lemma ltb_NaN_r (a : num) : (a <? NaN)%js = false.
Proof. now destruct a. Qed.

Lemma add_NaN_r (a : num) : (a + NaN)%js = NaN.
Proof. now destruct a. Qed.

Lemma mul_NaN_r (a : num) : (a * NaN)%js = NaN.
Proof. now destruct a. Qed.

Lemma findSegment_NaN (cumulative : list num) : findSegment cumulative NaN = 0%nat.
Proof.
  unfold findSegment. destruct (length cumulative) as [| n] eqn:E; [reflexivity |].
  cbn [seekSegment]. now rewrite ltb_NaN_r, andb_false_r.
Qed.

Lemma progress_invalid (i : nat) :
  MapScreen.progress invalidDate i = NaN
  /\ (1 - MapScreen.progress invalidDate i)%js = NaN
  /\ TransportService.progressOutbound invalidDate i = NaN
  /\ TransportService.progressInbound invalidDate i = NaN.
Proof. repeat split; reflexivity. Qed.

Lemma TransportService_position_NaN (shapePoints : list Point)
    (cumulative : list num) (total : num) :
  TransportService.positionAtPct shapePoints cumulative total NaN = (NaN, NaN).
Proof.
  unfold TransportService.positionAtPct. rewrite wrap_NaN. cbn [mul].
  rewrite findSegment_NaN. unfold TransportService.segPct. cbn [sub add div].
  destruct (nth 0 shapePoints undefinedPoint) as [lat1 lon1].
  destruct (nth (Nat.min (0 + 1) (length shapePoints - 1)) shapePoints undefinedPoint)
    as [lat2 lon2].
  now rewrite !mul_NaN_r, !add_NaN_r.
Qed.

Lemma MapScreen_position_NaN (shapePoints : list Point)
    (cumulative : list num) (total : num) :
  (nth (Nat.min 1 (length cumulative - 1)) cumulative NaN === nth 0 cumulative NaN)%js
  = false ->
  MapScreen.positionAtFraction shapePoints cumulative total NaN = (NaN, NaN).
Proof.
  intros H. unfold MapScreen.positionAtFraction. rewrite wrap_NaN. cbn [mul].
  rewrite findSegment_NaN. unfold MapScreen.segFraction.
  change (0 + 1)%nat with 1%nat. rewrite H. cbn [sub add div].
  destruct (nth 0 shapePoints undefinedPoint) as [lat1 lon1].
  destruct (nth (Nat.min 1 (length shapePoints - 1)) shapePoints undefinedPoint)
    as [lat2 lon2].
  now rewrite !mul_NaN_r, !add_NaN_r.
Qed.

Lemma coordinates_NaN (v : LiveVehicle) :
  coordinates v = (NaN, NaN) -> latitude v = NaN /\ longitude v = NaN.
Proof.
  unfold coordinates. intros E. split.
  - exact (f_equal fst E).
  - exact (f_equal snd E).
Qed.



(** ** Zero-length segments *)

Lemma onPath_finite (pts : list (R * R)) (v : LiveVehicle) :
  onPath pts v -> finiteCoordinates v.
Proof.
  intros (p & E & _). unfold coordinates, point in E.
  split; [exists (fst p); exact (f_equal fst E) | exists (snd p); exact (f_equal snd E)].
Qed.

Lemma pointAlong_segment_start (pts : list (R * R)) (t : R) :
  let i := findSegment (map Fin (cumulativeKm pts)) (Fin t) in
  arcLength pts (S i) = arcLength pts i ->
  pointAlong pts t = nth i pts (0, 0).
Proof.
  intros i H. unfold pointAlong. fold i.
  unfold lerpFactor. rewrite Reqb_true by assumption.
  destruct (nth i pts (0, 0)) as [lat1 lon1]. cbn [fst snd].
  f_equal; ring.
Qed.

Section ZeroLength.

Variable pts : list (R * R).
Hypothesis two_points : (2 <= length pts)%nat.
Variable x : R.

Let shapePoints : list Point := map point pts.
Let cumulative : list num := map Fin (cumulativeKm pts).
Let total : num := Fin (totalKm pts).
Let targetDist : num := (wrap (Fin x) * total)%js.
Let i : nat := findSegment cumulative targetDist.
Let segStart : num := nth i cumulative NaN.
Let segEnd : num := nth (Nat.min (i + 1) (length cumulative - 1)) cumulative NaN.

Lemma targetDist_finite : targetDist = Fin (frac x * totalKm pts).
Proof. unfold targetDist, total. now rewrite wrap_Fin. Qed.

Lemma segment_ends :
  (S i < length pts)%nat
  /\ segStart = Fin (arcLength pts i) /\ segEnd = Fin (arcLength pts (S i)).
Proof.
  pose proof (target_in_range pts x) as Ht.
  unfold segStart, segEnd, i. rewrite targetDist_finite.
  destruct (located_segment pts two_points _ Ht) as [Hi _].
  unfold cumulative.
  rewrite (length_cumulative pts), (next_index pts two_points _ Ht).
  rewrite !(nth_cumulative pts) by lia. auto.
Qed.

(** MapScreen.tsx divides only by a non-zero segment length. *)
Lemma MapScreen_divisor_nonzero :
  (segEnd === segStart)%js = false ->
  exists d : R, (segEnd - segStart)%js = Fin d /\ d <> 0.
Proof.
  destruct segment_ends as (_ & -> & ->). cbn [strictEq sub]. intros H.
  eexists. split; [reflexivity |].
  intros E. rewrite Reqb_true in H by lra. discriminate.
Qed.

Lemma MapScreen_zero_length :
  (segEnd === segStart)%js = true ->
  MapScreen.segFraction cumulative targetDist i = Fin 0
  /\ MapScreen.positionAtFraction shapePoints cumulative total (Fin x)
     = nth i shapePoints undefinedPoint.
Proof.
  intros H. split.
  - unfold MapScreen.segFraction. fold segStart segEnd. now rewrite H.
  - destruct segment_ends as (Hi & Hs & He). rewrite Hs, He in H.
    cbn [strictEq] in H. apply Reqb_spec in H.
    unfold i, cumulative in H, Hi |- *. rewrite targetDist_finite in H, Hi |- *.
    unfold shapePoints, total.
    rewrite MapScreen_positionAtFraction_finite by assumption.
    rewrite nth_point by lia. f_equal.
    now apply pointAlong_segment_start.
Qed.

Lemma TransportService_zero_length :
  (segEnd === segStart)%js = true ->
  TransportService.segPct cumulative targetDist i = Fin 0
  /\ TransportService.positionAtPct shapePoints cumulative total (Fin x)
     = nth i shapePoints undefinedPoint.
Proof.
  intros H. pose proof (target_in_range pts x) as Ht.
  destruct segment_ends as (Hi & Hs & He). rewrite Hs, He in H.
  cbn [strictEq] in H. apply Reqb_spec in H.
  unfold i, cumulative in H, Hi. rewrite targetDist_finite in H, Hi.
  split.
  - unfold i, cumulative. rewrite targetDist_finite.
    rewrite (TransportService_segPct_finite pts two_points _ Ht).
    unfold lerpFactor. now rewrite Reqb_true.
  - unfold shapePoints, cumulative, total.
    rewrite TransportService_positionAtPct_finite by assumption.
    unfold i, cumulative. rewrite targetDist_finite.
    rewrite nth_point by lia. f_equal.
    now apply pointAlong_segment_start.
Qed.

Lemma TransportService_divisor_nonzero :
  exists d : R, TransportService.segDivisor cumulative i = Fin d /\ d <> 0.
Proof.
  unfold i, cumulative. rewrite targetDist_finite.
  apply TransportService_segDivisor_finite;
    [assumption | apply target_in_range].
Qed.

End ZeroLength.


(** ** The snap rule of the marker interpolator *)

Lemma filter_incl {A : Type} (f : A -> bool) (l : list A) : incl (filter f l) l.
Proof. intros a H. apply filter_In in H. tauto. Qed.

(** C8.  When the new target lies more than 500 m from the displayed
    position, [setLatLngSmooth] displays the target itself, exactly, and
    requests no animation frame. *)
Theorem snap_rule (distanceTo : SmoothMarker.LatLng -> SmoothMarker.LatLng -> num)
    (marker : SmoothMarker.t) (frames : SmoothMarker.Frames)
    (target : SmoothMarker.LatLng) (duration : option num) (now now' : num) :
  (distanceTo (SmoothMarker.getLatLng marker) target >? Fin 500)%js = true ->
  let after :=
    SmoothMarker.setLatLngSmooth distanceTo target duration now now' (marker, frames) in
  SmoothMarker.getLatLng (fst after) = target
  /\ SmoothMarker.nextId (snd after) = SmoothMarker.nextId frames
  /\ incl (SmoothMarker.pending (snd after)) (SmoothMarker.pending frames).
Proof.
  intros H after. subst after. unfold SmoothMarker.setLatLngSmooth.
  cbn [SmoothMarker._startLatLng SmoothMarker._targetLatLng].
  rewrite H. cbn [fst snd SmoothMarker.getLatLng SmoothMarker.setLatLng SmoothMarker.latlng].
  split; [reflexivity |].
  destruct (SmoothMarker._animationFrameId marker) as [id |];
    [destruct (Nat.eqb id 0) |]; cbn; split; auto using incl_refl, filter_incl.
Qed.

Lemma snap_distance :
  SmoothMarker.greatCircleMetres snapStart snapTarget
  = Fin (1000 * (6371 * ((531 / 10 - 53) * (PI / 180)))).
Proof.
  unfold SmoothMarker.greatCircleMetres, snapStart, snapTarget.
  cbn [SmoothMarker.lat SmoothMarker.lng].
  rewrite Utils_calculateDistance_Fin, greatCircleKm_meridian by lra.
  reflexivity.
Qed.

(** The example of the spec: from (53.0, -6.0) to (53.1, -6.0), some
    11 km, the marker jumps to the target. *)
Lemma snap_rule_witness :
  (SmoothMarker.greatCircleMetres
     (SmoothMarker.getLatLng (SmoothMarker.create snapStart)) snapTarget
   >? Fin 500)%js = true
  /\ SmoothMarker.getLatLng
       (fst (SmoothMarker.setLatLngSmooth SmoothMarker.greatCircleMetres snapTarget
               (Some (Fin 2000)) (Fin 0) (Fin 0)
               (SmoothMarker.create snapStart, noFrames)))
     = snapTarget.
Proof.
  assert (H : (SmoothMarker.greatCircleMetres
                 (SmoothMarker.getLatLng (SmoothMarker.create snapStart)) snapTarget
               >? Fin 500)%js = true).
  { change (SmoothMarker.getLatLng (SmoothMarker.create snapStart)) with snapStart.
    rewrite snap_distance. unfold gtb. cbn [ltb]. apply Rltb_true.
    pose proof PI2_1. lra. }
  split; [exact H |].
  exact (proj1 (snap_rule SmoothMarker.greatCircleMetres (SmoothMarker.create snapStart)
                  noFrames snapTarget (Some (Fin 2000)) (Fin 0) (Fin 0) H)).
Defined.

(** ** The theorems at concrete inputs *)

Lemma MapScreen_meridian_served (clock now : Date) :
  MapScreen.generateSimulatedVehiclesForRoute clock route15
    (map point meridianPath) (Some now) <> [].
Proof.
  rewrite MapScreen_generate_finite by (simpl; lia). cbv zeta.
  pose proof totalKm_meridianPath. rewrite Reqb_false by lra.
  discriminate.
Qed.

Lemma findSegment_start (pts : list (R * R)) :
  findSegment (map Fin (cumulativeKm pts)) (Fin 0) = 0%nat.
Proof.
  destruct pts as [| p pts]; [reflexivity |].
  set (path := p :: pts).
  assert (Hpos : (0 < length path)%nat) by (simpl; lia).
  destruct (findSegment_spec (map Fin (cumulativeKm path)) (Fin 0))
    as [_ [E | [Hi Hlt]]]; [exact E |].
  rewrite length_map, length_cumulativeKm in Hi.
  rewrite nth_Fin in Hlt by (rewrite length_cumulativeKm; lia).
  rewrite nth_cumulativeKm in Hlt by lia.
  cbn [ltb] in Hlt. apply Rltb_spec in Hlt.
  pose proof (arcLength_nonneg path
                (findSegment (map Fin (cumulativeKm path)) (Fin 0))). lra.
Qed.






(** * Further properties of the engine *)

(** ** Wrapping *)


(** ** The cumulative array *)

Section PathLengthShape.

Variable calculateDistance : num -> num -> num -> num -> num.

Lemma lengthStep_total (shapePoints : list Point) (cumulative : list num)
    (total : num) (i : nat) :
  exists total' : num,
    lengthStep calculateDistance shapePoints (cumulative, total) i
    = (cumulative ++ [total'], total').
Proof.
  unfold lengthStep.
  destruct (nth (i - 1) shapePoints undefinedPoint) as [lat1 lon1].
  destruct (nth i shapePoints undefinedPoint) as [lat2 lon2].
  eexists. reflexivity.
Qed.

Lemma lengthStep_fold (shapePoints : list Point) (indices : list nat)
    (cumulative : list num) (total : num) :
  let after := fold_left (lengthStep calculateDistance shapePoints) indices
                 (cumulative, total) in
  length (fst after) = (length cumulative + length indices)%nat
  /\ (forall k, (k < length cumulative)%nat ->
        nth k (fst after) NaN = nth k cumulative NaN)
  /\ (nth (length cumulative - 1) cumulative NaN = total ->
      nth (length (fst after) - 1) (fst after) NaN = snd after).
Proof.
  revert cumulative total.
  induction indices as [| i indices IH]; intros cumulative total; cbn [fold_left].
  - cbn [fst snd length]. rewrite Nat.add_0_r. auto.
  - destruct (lengthStep_total shapePoints cumulative total i) as [total' E].
    rewrite E.
    destruct (IH (cumulative ++ [total']) total') as (Hlen & Hpre & Hlast).
    rewrite length_app in Hlen, Hpre, Hlast. cbn [length] in Hlen, Hpre, Hlast.
    split; [cbn [length]; lia |]. split.
    + intros k Hk. rewrite Hpre by lia. now rewrite app_nth1.
    + intros _. apply Hlast.
      replace (length cumulative + 1 - 1)%nat with (length cumulative) by lia.
      now rewrite app_nth2, Nat.sub_diag by lia.
Qed.

(** X2.  Whatever the points and the distance function are, the array
    [cumulative] has one entry per path point (and one entry for an
    empty path), its first entry is 0, and its last entry is the total
    that the generators use. *)
Theorem cumulative_shape (shapePoints : list Point) :
  let cumulative := fst (pathLengths calculateDistance shapePoints) in
  let total := snd (pathLengths calculateDistance shapePoints) in
  length cumulative = Nat.max 1 (length shapePoints)
  /\ nth 0 cumulative NaN = Fin 0
  /\ nth (length cumulative - 1) cumulative NaN = total.
Proof.
  unfold pathLengths.
  destruct (lengthStep_fold shapePoints (seq 1 (length shapePoints - 1))
              [Fin 0] (Fin 0)) as (Hlen & Hpre & Hlast).
  cbv zeta. rewrite length_seq in Hlen. cbn [length] in Hlen, Hpre, Hlast.
  split; [lia |]. split.
  - now rewrite Hpre by lia.
  - now apply Hlast.
Qed.

End PathLengthShape.


(** ** The segment search *)

Lemma seekSegment_passed (cumulative : list num) (targetDist : num) (fuel j : nat) :
  forall k, (j <= k < seekSegment cumulative targetDist fuel j)%nat ->
    (k <? length cumulative - 1)%nat
    && (nth (k + 1) cumulative NaN <? targetDist)%js = true.
Proof.
  revert j. induction fuel as [| fuel IH]; intros j k Hk; cbn [seekSegment] in Hk.
  - lia.
  - destruct ((j <? length cumulative - 1)%nat
              && (nth (j + 1) cumulative NaN <? targetDist)%js) eqn:Hguard; [| lia].
    destruct (Nat.eq_dec k j) as [-> | Hne]; [exact Hguard |].
    apply (IH (j + 1)%nat). lia.
Qed.


(** ** The great-circle distance *)

Lemma Ratan2_quarter (y x : R) : 0 <= y -> 0 <= x -> Math.Ratan2 y x <= PI / 2.
Proof.
  intros Hy Hx. unfold Math.Ratan2. pose proof PI_RGT_0.
  destruct (Rlt_dec 0 x) as [Hpos | Hnpos].
  - rewrite Rltb_true by assumption.
    pose proof (atan_bound (y / x)). lra.
  - rewrite (Rltb_false 0 x), (Rltb_false x 0) by lra.
    destruct (Rltb 0 y); [lra |].
    rewrite (Rltb_false y 0) by lra. lra.
Qed.

Lemma greatCircleKm_half_turn (lat1 lon1 lat2 lon2 : R) :
  greatCircleKm lat1 lon1 lat2 lon2 <= 6371 * PI.
Proof.
  unfold greatCircleKm, centralAngle.
  pose proof (Ratan2_quarter (sqrt (haversine lat1 lon1 lat2 lon2))
                (sqrt (1 - haversine lat1 lon1 lat2 lon2)) (sqrt_pos _) (sqrt_pos _)).
  lra.
Qed.

Lemma sin_sqr_opp (x y : R) : x = - y -> sin x * sin x = sin y * sin y.
Proof. intros ->. rewrite sin_neg. ring. Qed.

Lemma haversine_sym (lat1 lon1 lat2 lon2 : R) :
  haversine lat1 lon1 lat2 lon2 = haversine lat2 lon2 lat1 lon1.
Proof.
  unfold haversine.
  rewrite (sin_sqr_opp ((lat2 - lat1) * (PI / 180) / 2)
             ((lat1 - lat2) * (PI / 180) / 2)) by field.
  rewrite !Rmult_assoc.
  rewrite (sin_sqr_opp ((lon2 - lon1) * (PI / 180) / 2)
             ((lon1 - lon2) * (PI / 180) / 2)) by field.
  ring.
Qed.

Lemma greatCircleKm_sym (lat1 lon1 lat2 lon2 : R) :
  greatCircleKm lat1 lon1 lat2 lon2 = greatCircleKm lat2 lon2 lat1 lon1.
Proof. unfold greatCircleKm. now rewrite haversine_sym. Qed.

Lemma nonFinite_sub (a b : num) : nonFinite a \/ nonFinite b -> nonFinite (a - b)%js.
Proof. destruct a, b; cbn; tauto. Qed.

Lemma sin_half_Utils (a : num) :
  nonFinite a -> Math.sin (Utils.deg2rad a / 2)%js = NaN.
Proof.
  pose proof PI_RGT_0 as Hpi.
  unfold Utils.deg2rad, Math.PI. rewrite (div_Fin PI 180) by lra.
  destruct a as [x | | |]; cbn [nonFinite]; intros H; [contradiction | | | reflexivity];
    cbn [mul]; rewrite Reqb_false by lra.
  - rewrite Rltb_true by lra. cbn [infinity div].
    rewrite Rltb_false by lra. reflexivity.
  - rewrite Rltb_false by lra. cbn [infinity div].
    rewrite Rltb_false by lra. reflexivity.
Qed.

Lemma sin_half_TransportService (a : num) :
  nonFinite a -> Math.sin (a * Math.PI / 180 / 2)%js = NaN.
Proof.
  pose proof PI_RGT_0 as Hpi. unfold Math.PI.
  destruct a as [x | | |]; cbn [nonFinite]; intros H; [contradiction | | | reflexivity];
    cbn [mul]; rewrite Reqb_false by lra.
  - rewrite Rltb_true by lra. cbn [infinity div].
    rewrite Rltb_false by lra. cbn [negb infinity div].
    rewrite Rltb_false by lra. reflexivity.
  - rewrite Rltb_false by lra. cbn [infinity div].
    rewrite Rltb_false by lra. cbn [negb infinity div].
    rewrite Rltb_false by lra. reflexivity.
Qed.

Lemma mul_NaN_l (a : num) : (NaN * a)%js = NaN.
Proof. reflexivity. Qed.

Lemma Utils_calculateDistance_NaN (lat1 lon1 lat2 lon2 : num) :
  nonFinite lat1 \/ nonFinite lon1 \/ nonFinite lat2 \/ nonFinite lon2 ->
  Utils.calculateDistance lat1 lon1 lat2 lon2 = NaN.
Proof.
  intros H. unfold Utils.calculateDistance.
  assert (Hlatlon : nonFinite (lat2 - lat1)%js \/ nonFinite (lon2 - lon1)%js).
  { destruct H as [H | [H | [H | H]]];
      [left | right | left | right]; apply nonFinite_sub; tauto. }
  destruct Hlatlon as [Hd | Hd].
  - rewrite (sin_half_Utils _ Hd). reflexivity.
  - rewrite (sin_half_Utils _ Hd). rewrite !mul_NaN_r, add_NaN_r. reflexivity.
Qed.

Lemma TransportService_calculateDistance_NaN (lat1 lon1 lat2 lon2 : num) :
  nonFinite lat1 \/ nonFinite lon1 \/ nonFinite lat2 \/ nonFinite lon2 ->
  TransportService.calculateDistance lat1 lon1 lat2 lon2 = NaN.
Proof.
  intros H. unfold TransportService.calculateDistance.
  assert (Hlatlon : nonFinite (lat2 - lat1)%js \/ nonFinite (lon2 - lon1)%js).
  { destruct H as [H | [H | [H | H]]];
      [left | right | left | right]; apply nonFinite_sub; tauto. }
  destruct Hlatlon as [Hd | Hd].
  - rewrite (sin_half_TransportService _ Hd). reflexivity.
  - rewrite (sin_half_TransportService _ Hd). rewrite !mul_NaN_r, add_NaN_r. reflexivity.
Qed.

Lemma calculateDistance_agree (lat1 lon1 lat2 lon2 : num) :
  Utils.calculateDistance lat1 lon1 lat2 lon2
  = TransportService.calculateDistance lat1 lon1 lat2 lon2.
Proof.
  destruct lat1 as [a | | |], lon1 as [b | | |], lat2 as [c | | |], lon2 as [d | | |];
    try (rewrite Utils_calculateDistance_NaN, TransportService_calculateDistance_NaN
           by (cbn; tauto); reflexivity).
  now rewrite Utils_calculateDistance_Fin, TransportService_calculateDistance_Fin.
Qed.





(** ** The fleet one headway later *)

Lemma MapScreen_progress_next (tz ms : Z) (i : nat) :
  wrap (MapScreen.progress (minutesLater 10 tz ms) (S i))
  = wrap (MapScreen.progress (dateAt tz ms) i)
  /\ wrap (1 - MapScreen.progress (minutesLater 10 tz ms) (S i))%js
     = wrap (1 - MapScreen.progress (dateAt tz ms) i)%js.
Proof.
  unfold minutesLater. rewrite !MapScreen_progress_valid.
  destruct (minutesOfDay_later tz ms 10) as [k Hk]. rewrite Hk. cbn [sub].
  rewrite S_INR. split.
  - apply (wrap_shift _ _ (- (24 * k))). rewrite opp_IZR, mult_IZR. field.
  - apply (wrap_shift _ _ (24 * k)). rewrite mult_IZR. field.
Qed.

Lemma MapScreen_progress_first (tz ms : Z) :
  wrap (MapScreen.progress (minutesLater 10 tz ms) 0)
  = wrap (MapScreen.progress (dateAt tz ms) 5)
  /\ wrap (1 - MapScreen.progress (minutesLater 10 tz ms) 0)%js
     = wrap (1 - MapScreen.progress (dateAt tz ms) 5)%js.
Proof.
  unfold minutesLater. rewrite !MapScreen_progress_valid.
  destruct (minutesOfDay_later tz ms 10) as [k Hk]. rewrite Hk. cbn [sub].
  replace (INR 5) with 5 by (simpl; lra). replace (INR 0) with 0 by reflexivity.
  split.
  - apply (wrap_shift _ _ (1 - 24 * k)). rewrite minus_IZR, mult_IZR. field.
  - apply (wrap_shift _ _ (24 * k - 1)). rewrite minus_IZR, mult_IZR. field.
Qed.

Lemma TransportService_progress_next (tz ms : Z) (i : nat) :
  wrap (TransportService.progressOutbound (minutesLater 15 tz ms) (S i))
  = wrap (TransportService.progressOutbound (dateAt tz ms) i)
  /\ wrap (TransportService.progressInbound (minutesLater 15 tz ms) (S i))
     = wrap (TransportService.progressInbound (dateAt tz ms) i).
Proof.
  unfold minutesLater.
  rewrite !TransportService_progressOutbound_valid, !TransportService_progressInbound_valid.
  destruct (minutesOfDay_later tz ms 15) as [k Hk]. rewrite Hk.
  rewrite S_INR. split.
  - apply (wrap_shift _ _ (- (32 * k))). rewrite opp_IZR, mult_IZR. field.
  - apply (wrap_shift _ _ (32 * k)). rewrite mult_IZR. field.
Qed.

Lemma TransportService_progress_first (tz ms : Z) :
  wrap (TransportService.progressOutbound (minutesLater 15 tz ms) 0)
  = wrap (TransportService.progressOutbound (dateAt tz ms) 2)
  /\ wrap (TransportService.progressInbound (minutesLater 15 tz ms) 0)
     = wrap (TransportService.progressInbound (dateAt tz ms) 2).
Proof.
  unfold minutesLater.
  rewrite !TransportService_progressOutbound_valid, !TransportService_progressInbound_valid.
  destruct (minutesOfDay_later tz ms 15) as [k Hk]. rewrite Hk.
  replace (INR 2) with 2 by (simpl; lra). replace (INR 0) with 0 by reflexivity.
  split.
  - apply (wrap_shift _ _ (1 - 32 * k)). rewrite minus_IZR, mult_IZR. field.
  - apply (wrap_shift _ _ (32 * k - 1)). rewrite minus_IZR, mult_IZR. field.
Qed.




(** ** A whole number of trips *)

Lemma pointAlong_start (pts : list (R * R)) :
  pointAlong pts 0 = nth 0 pts (0, 0).
Proof.
  unfold pointAlong. rewrite findSegment_start.
  change (arcLength pts 0) with 0.
  assert (E : lerpFactor 0 (arcLength pts 1) 0 = 0).
  { unfold lerpFactor. destruct (Reqb (arcLength pts 1) 0); [reflexivity |].
    unfold Rdiv. ring. }
  rewrite E. destruct (nth 0 pts (0, 0)) as [lat1 lon1]. cbn [fst snd].
  f_equal; ring.
Qed.



(** ** The marker animation *)

Lemma min_one_complete (e D : R) :
  0 <= D <= e ->
  (Math.min (Fin e / Fin D)%js (Fin 1) <? Fin 1)%js = false.
Proof.
  intros H. unfold div.
  destruct (Req_dec_T D 0) as [-> | HD].
  - rewrite Reqb_true by reflexivity.
    destruct (Req_dec_T e 0) as [-> | He].
    + rewrite Reqb_true by reflexivity. reflexivity.
    + rewrite Reqb_false by assumption. rewrite Rltb_true by lra.
      cbn. now rewrite Rltb_false by lra.
  - rewrite Reqb_false by assumption. cbn [Math.min ltb].
    assert (1 <= e / D).
    { apply Rmult_le_reg_r with (r := D); [lra |].
      unfold Rdiv. rewrite Rmult_assoc, Rinv_l by assumption. lra. }
    destruct (Rltb 1 (e / D)) eqn:E; cbn [ltb]; apply Rltb_false; lra.
Qed.


Lemma min_one_in_flight (e D : R) :
  0 <= e < D ->
  Math.min (Fin e / Fin D)%js (Fin 1) = Fin (e / D) /\ 0 <= e / D < 1.
Proof.
  intros H. rewrite div_Fin by lra.
  assert (0 <= e / D < 1).
  { split.
    - apply Rmult_le_pos; [lra |]. left. apply Rinv_0_lt_compat. lra.
    - apply Rmult_lt_reg_r with (r := D); [lra |].
      unfold Rdiv. rewrite Rmult_assoc, Rinv_l by lra. lra. }
  split; [| assumption].
  cbn [Math.min ltb]. now rewrite Rltb_false by lra.
Qed.


(** X12.  A frame the marker had requested before (its id is not 0 and
    was handed out earlier) is no longer pending after
    [setLatLngSmooth], whichever branch the call takes: at most the one
    new frame of this call is added to the pending frames. *)
Theorem animation_cancelled
    (distanceTo : SmoothMarker.LatLng -> SmoothMarker.LatLng -> num)
    (marker : SmoothMarker.t) (frames : SmoothMarker.Frames)
    (target : SmoothMarker.LatLng) (duration : option num) (now now' : num)
    (id : nat) :
  SmoothMarker._animationFrameId marker = Some id ->
  (0 < id < SmoothMarker.nextId frames)%nat ->
  let after :=
    SmoothMarker.setLatLngSmooth distanceTo target duration now now' (marker, frames) in
  ~ In id (SmoothMarker.pending (snd after))
  /\ incl (SmoothMarker.pending (snd after))
          (SmoothMarker.nextId frames :: SmoothMarker.pending frames).
Proof.
  intros Hid Hrange after. subst after.
  unfold SmoothMarker.setLatLngSmooth. rewrite Hid.
  replace (Nat.eqb id 0) with false by (symmetry; apply Nat.eqb_neq; lia).
  assert (Hgone : ~ In id (SmoothMarker.pending
                             (SmoothMarker.cancelAnimationFrame id frames))).
  { cbn [SmoothMarker.cancelAnimationFrame SmoothMarker.pending].
    intros Hin. apply filter_In in Hin as [_ Hin].
    now rewrite Nat.eqb_refl in Hin. }
  assert (Hincl : incl (SmoothMarker.pending
                          (SmoothMarker.cancelAnimationFrame id frames))
                       (SmoothMarker.pending frames)) by apply filter_incl.
  cbn [SmoothMarker._startLatLng SmoothMarker._targetLatLng].
  destruct (distanceTo (SmoothMarker.getLatLng marker) target >? Fin 500)%js.
  - cbn [snd]. split; [exact Hgone | now apply incl_tl].
  - unfold SmoothMarker._animate.
    match goal with |- context [if ?c then _ else _] => destruct c end;
      cbn [snd SmoothMarker.requestAnimationFrame SmoothMarker.pending
             SmoothMarker.nextId SmoothMarker.cancelAnimationFrame].
    + split.
      * intros [E | Hin]; [lia |]. apply filter_In in Hin as [_ Hin].
        now rewrite Nat.eqb_refl in Hin.
      * intros x [<- | Hx]; [now left | right]. now apply Hincl.
    + split; [exact Hgone | now apply incl_tl].
Qed.

(** ** The simulated feed *)

Lemma string_length_append (a b : string) :
  String.length (a ++ b) = (String.length a + String.length b)%nat.
Proof. induction a as [| c a IH]; cbn; [reflexivity | now rewrite IH]. Qed.

(** Two texts with suffixes of one length are equal only if the
    prefixes and the suffixes are. *)
Lemma append_same_suffix_length (a b s t : string) :
  String.length s = String.length t ->
  (a ++ s)%string = (b ++ t)%string -> a = b /\ s = t.
Proof.
  revert b. induction a as [| c a IH]; intros [| c' b] Hlen E; cbn [append] in E.
  - auto.
  - apply (f_equal String.length) in E. cbn in E.
    rewrite string_length_append in E. lia.
  - apply (f_equal String.length) in E. cbn in E.
    rewrite string_length_append in E. lia.
  - injection E as -> E. destruct (IH b Hlen E) as [-> ->]. auto.
Qed.

Lemma TransportService_vehicleId_route (r r' : Route) (d i d' i' : nat) :
  (d < 2)%nat -> (i < 3)%nat -> (d' < 2)%nat -> (i' < 3)%nat ->
  TransportService.vehicleId r d i = TransportService.vehicleId r' d' i' ->
  route_id r = route_id r'.
Proof.
  intros Hd Hi Hd' Hi' E. unfold TransportService.vehicleId in E.
  apply append_inj in E.
  apply append_same_suffix_length in E; [tauto |].
  destruct d as [| [| d]]; try lia; destruct i as [| [| [| i]]]; try lia;
    destruct d' as [| [| d']]; try lia; destruct i' as [| [| [| i']]]; try lia;
    reflexivity.
Qed.

Lemma TransportService_vehicle_of_slot (route : Route) (shapePoints : list Point)
    (now : Date) (v : LiveVehicle) :
  In v (TransportService.generateSimulatedVehiclesForRoute route shapePoints now) ->
  vehicle_route_id v = Some (route_id route)
  /\ timestamp v = getTime now
  /\ exists d i, (d < 2)%nat /\ (i < 3)%nat
                 /\ vehicle_id v = TransportService.vehicleId route d i.
Proof.
  rewrite TransportService_generate_unfold. cbv zeta.
  destruct (length shapePoints <? 2)%nat; [contradiction |].
  intros Hin. apply in_app_or in Hin.
  destruct Hin as [Hin | Hin]; apply in_map_iff in Hin as (i & <- & Hi);
    apply in_seq in Hi; unfold TransportService.placeVehicle;
    destruct (TransportService.positionAtPct _ _ _ _);
    cbn [vehicle_route_id timestamp vehicle_id];
    (split; [reflexivity |]); (split; [reflexivity |]).
  - exists 0%nat, i. repeat split; lia.
  - exists 1%nat, i. repeat split; lia.
Qed.

Section FeedTables.

Variable SAMPLE_ROUTES : list Route.
Variable ROUTE_SHAPES : string -> option (list Point).

(** The vehicles one route contributes to a tick. *)
Let vehiclesOf (now : Date) (route : Route) : list LiveVehicle :=
  match ROUTE_SHAPES (route_id route) with
  | Some shape => TransportService.generateSimulatedVehiclesForRoute route shape now
  | None => []
  end.

Lemma tick_flat_map (routeId : option string) (now : Date) :
  Feed.tick SAMPLE_ROUTES ROUTE_SHAPES routeId now
  = flat_map (vehiclesOf now) (Feed.routesToSimulate SAMPLE_ROUTES routeId).
Proof.
  unfold Feed.tick.
  generalize (Feed.routesToSimulate SAMPLE_ROUTES routeId) as routes.
  assert (G : forall routes acc,
             fold_left
               (fun allVehicles route =>
                  match ROUTE_SHAPES (route_id route) with
                  | Some shape =>
                      allVehicles
                      ++ TransportService.generateSimulatedVehiclesForRoute route
                           shape now
                  | None => allVehicles
                  end) routes acc
             = acc ++ flat_map (vehiclesOf now) routes).
  { induction routes as [| r routes IH]; intros acc; cbn [fold_left flat_map].
    - now rewrite app_nil_r.
    - rewrite IH. unfold vehiclesOf at 2.
      destruct (ROUTE_SHAPES (route_id r)); [now rewrite app_assoc | reflexivity]. }
  intros routes. apply G.
Qed.

Lemma vehiclesOf_slot (now : Date) (route : Route) (v : LiveVehicle) :
  In v (vehiclesOf now route) ->
  vehicle_route_id v = Some (route_id route)
  /\ timestamp v = getTime now
  /\ exists d i, (d < 2)%nat /\ (i < 3)%nat
                 /\ vehicle_id v = TransportService.vehicleId route d i.
Proof.
  unfold vehiclesOf. destruct (ROUTE_SHAPES (route_id route)); [| contradiction].
  apply TransportService_vehicle_of_slot.
Qed.

Lemma routesToSimulate_incl (routeId : option string) (r : Route) :
  In r (Feed.routesToSimulate SAMPLE_ROUTES routeId) -> In r SAMPLE_ROUTES.
Proof.
  unfold Feed.routesToSimulate. destruct routeId as [id |]; [| auto].
  destruct (id =? "")%string; [auto |]. intros H. now apply filter_In in H.
Qed.

Lemma filtered_route_ids_NoDup (keep : Route -> bool) (routes : list Route) :
  NoDup (map route_id routes) ->
  NoDup (map route_id (filter keep routes)).
Proof.
  intros Hnd. induction routes as [| r routes IH]; cbn [filter]; [constructor |].
  cbn [map] in Hnd. apply NoDup_cons_iff in Hnd as [Hnot Hnd].
  destruct (keep r); [| now apply IH].
  cbn [map]. constructor; [| now apply IH].
  intros Hin. apply Hnot. apply in_map_iff in Hin as (r' & E & Hr').
  apply filter_In in Hr' as [Hr' _]. rewrite <- E. now apply in_map.
Qed.

Lemma routesToSimulate_NoDup (routeId : option string) :
  NoDup (map route_id SAMPLE_ROUTES) ->
  NoDup (map route_id (Feed.routesToSimulate SAMPLE_ROUTES routeId)).
Proof.
  unfold Feed.routesToSimulate. destruct routeId as [id |]; [| auto].
  destruct (id =? "")%string; [auto |]. now apply filtered_route_ids_NoDup.
Qed.

Lemma vehiclesOf_ids_NoDup (now : Date) (route : Route) :
  NoDup (map vehicle_id (vehiclesOf now route)).
Proof.
  unfold vehiclesOf. destruct (ROUTE_SHAPES (route_id route)) as [shape |]; [| constructor].
  rewrite TransportService_ids_unfold.
  destruct (length shape <? 2)%nat; [constructor | apply TransportService_ids_NoDup].
Qed.

Lemma flat_map_ids_NoDup (now : Date) (routes : list Route) :
  NoDup (map route_id routes) ->
  NoDup (map vehicle_id (flat_map (vehiclesOf now) routes)).
Proof.
  induction routes as [| r routes IH]; cbn [map flat_map]; intros H; [constructor |].
  apply NoDup_cons_iff in H as [Hnot H].
  rewrite map_app. apply NoDup_app; [apply vehiclesOf_ids_NoDup | auto |].
  intros id Hin Hin'.
  apply in_map_iff in Hin as (v & <- & Hv).
  apply in_map_iff in Hin' as (v' & E & Hv').
  apply in_flat_map in Hv' as (r' & Hr' & Hv').
  destruct (vehiclesOf_slot _ _ _ Hv) as (_ & _ & d & i & Hd & Hi & Ev).
  destruct (vehiclesOf_slot _ _ _ Hv') as (_ & _ & d' & i' & Hd' & Hi' & Ev').
  rewrite Ev, Ev' in E.
  apply TransportService_vehicleId_route in E; try assumption.
  apply Hnot. rewrite <- E. now apply in_map.
Qed.

(** X13.  When the route ids of [SAMPLE_ROUTES] are pairwise distinct,
    the vehicle ids of one tick of the simulated feed are pairwise
    distinct across all simulated routes, with or without a route
    filter, and every vehicle of the tick carries the epoch time of the
    one reading of the clock. *)
Theorem feed_snapshot (routeId : option string) (now : Date) :
  NoDup (map route_id SAMPLE_ROUTES) ->
  NoDup (map vehicle_id (Feed.tick SAMPLE_ROUTES ROUTE_SHAPES routeId now))
  /\ Forall (fun v => timestamp v = getTime now)
       (Feed.tick SAMPLE_ROUTES ROUTE_SHAPES routeId now).
Proof.
  intros H. rewrite tick_flat_map. split.
  - apply flat_map_ids_NoDup. now apply routesToSimulate_NoDup.
  - apply Forall_forall. intros v Hv.
    apply in_flat_map in Hv as (r & _ & Hv).
    now destruct (vehiclesOf_slot _ _ _ Hv) as (_ & Ht & _).
Qed.

(** X14.  With a non-empty [routeId] a tick holds only vehicles of that
    route, each of a route of [SAMPLE_ROUTES]; it is empty when no
    sample route has that id or the route has no shape; and an empty
    [routeId] is treated like an omitted one. *)
Theorem feed_route_filter (id : string) (now : Date) :
  id <> ""%string ->
  Forall (fun v => vehicle_route_id v = Some id)
    (Feed.tick SAMPLE_ROUTES ROUTE_SHAPES (Some id) now)
  /\ (~ In id (map route_id SAMPLE_ROUTES) ->
      Feed.tick SAMPLE_ROUTES ROUTE_SHAPES (Some id) now = [])
  /\ (ROUTE_SHAPES id = None ->
      Feed.tick SAMPLE_ROUTES ROUTE_SHAPES (Some id) now = [])
  /\ Feed.tick SAMPLE_ROUTES ROUTE_SHAPES (Some ""%string) now
     = Feed.tick SAMPLE_ROUTES ROUTE_SHAPES None now.
Proof.
  intros Hid. apply String.eqb_neq in Hid.
  assert (Hroutes : forall r,
            In r (Feed.routesToSimulate SAMPLE_ROUTES (Some id)) ->
            In r SAMPLE_ROUTES /\ route_id r = id).
  { intros r. cbn [Feed.routesToSimulate]. rewrite Hid. intros H.
    apply filter_In in H as [H E]. now apply String.eqb_eq in E. }
  repeat split.
  - rewrite tick_flat_map. apply Forall_forall. intros v Hv.
    apply in_flat_map in Hv as (r & Hr & Hv).
    destruct (vehiclesOf_slot _ _ _ Hv) as (E & _).
    destruct (Hroutes r Hr) as [_ <-]. exact E.
  - intros Hnot. rewrite tick_flat_map.
    destruct (Feed.routesToSimulate SAMPLE_ROUTES (Some id)) as [| r routes] eqn:E;
      [reflexivity |].
    destruct (Hroutes r ltac:(now left)) as [Hin <-].
    destruct Hnot. now apply in_map.
  - intros Hnone. rewrite tick_flat_map.
    assert (G : forall routes,
               (forall r, In r routes -> route_id r = id) ->
               flat_map (vehiclesOf now) routes = []).
    { induction routes as [| r routes IH]; intros Hr; [reflexivity |].
      cbn [flat_map]. rewrite IH by (intros r' Hr'; apply Hr; now right).
      unfold vehiclesOf. rewrite (Hr r) by now left. now rewrite Hnone. }
    apply G. intros r Hr. now apply Hroutes.
Qed.

(** X15.  A tick returns six vehicles for every simulated route whose
    shape has at least two points, and none for the others. *)
Theorem feed_count (routeId : option string) (now : Date) :
  length (Feed.tick SAMPLE_ROUTES ROUTE_SHAPES routeId now)
  = (6 * length
           (filter
              (fun r => match ROUTE_SHAPES (route_id r) with
                        | Some shape => (2 <=? length shape)%nat
                        | None => false
                        end)
              (Feed.routesToSimulate SAMPLE_ROUTES routeId)))%nat.
Proof.
  rewrite tick_flat_map.
  induction (Feed.routesToSimulate SAMPLE_ROUTES routeId) as [| r routes IH];
    [reflexivity |].
  cbn [flat_map filter]. rewrite length_app, IH. unfold vehiclesOf.
  destruct (ROUTE_SHAPES (route_id r)) as [shape |]; [| reflexivity].
  rewrite TransportService_generate_unfold. cbv zeta.
  destruct (Nat.leb_spec 2 (length shape)) as [H | H].
  - rewrite short_path_false by assumption.
    rewrite length_app, !length_map, !length_seq. cbn [length]. lia.
  - replace (length shape <? 2)%nat with true by (symmetry; apply Nat.ltb_lt; lia).
    reflexivity.
Qed.

End FeedTables.

(** ** The nearest vehicle and its arrival estimate *)

Lemma ltb_trans (a b c : num) :
  (a <? b)%js = true -> (b <? c)%js = true -> (a <? c)%js = true.
Proof.
  destruct a as [x | | |], b as [y | | |], c as [z | | |]; cbn [ltb];
    try discriminate; try reflexivity.
  intros H1 H2. apply Rltb_spec in H1, H2. apply Rltb_true. lra.
Qed.

Lemma ltb_irrefl (a : num) : (a <? a)%js = false.
Proof. destruct a; try reflexivity. cbn [ltb]. apply Rltb_false. lra. Qed.

Section Nearest.

Variable stop : Stop.

Let dist (v : LiveVehicle) : num :=
  Utils.calculateDistance (stop_lat stop) (stop_lon stop) (latitude v) (longitude v).

Lemma nearer_eq (m : num) (nv : option LiveVehicle) (v : LiveVehicle) :
  StopPopup.nearer stop (m, nv) v
  = if (dist v <? m)%js then (dist v, Some v) else (m, nv).
Proof. reflexivity. Qed.

Lemma nearest_fold (candidates : list LiveVehicle) (m : num)
    (nv : option LiveVehicle) :
  (forall v, In v candidates ->
     (dist v <? fst (fold_left (StopPopup.nearer stop) candidates (m, nv)))%js
     = false)
  /\ ((fst (fold_left (StopPopup.nearer stop) candidates (m, nv)) = m
       /\ snd (fold_left (StopPopup.nearer stop) candidates (m, nv)) = nv)
      \/ (exists v,
            In v candidates
            /\ snd (fold_left (StopPopup.nearer stop) candidates (m, nv)) = Some v
            /\ fst (fold_left (StopPopup.nearer stop) candidates (m, nv)) = dist v
            /\ (fst (fold_left (StopPopup.nearer stop) candidates (m, nv)) <? m)%js
               = true)).
Proof.
  revert m nv. induction candidates as [| v candidates IH]; intros m nv;
    cbn [fold_left].
  - cbn [fst snd]. split; [intros v [] | now left].
  - rewrite nearer_eq.
    destruct (dist v <? m)%js eqn:Hlt.
    + destruct (IH (dist v) (Some v)) as [Hall Hsel].
      set (after := fold_left (StopPopup.nearer stop) candidates (dist v, Some v)) in *.
      split.
      * intros v' [<- | Hv']; [| now apply Hall].
        destruct Hsel as [[-> _] | (w & _ & _ & _ & Hw)]; [apply ltb_irrefl |].
        destruct (dist v <? fst after)%js eqn:E; [| reflexivity].
        pose proof (ltb_trans _ _ _ E Hw) as C. now rewrite ltb_irrefl in C.
      * right. destruct Hsel as [[Hm Hn] | (w & Hw & Hn & Hm & Hlt')].
        -- exists v. rewrite Hm. split; [now left |]. now repeat split.
        -- exists w. split; [now right |]. split; [exact Hn |].
           split; [exact Hm |]. eapply ltb_trans; eassumption.
    + destruct (IH m nv) as [Hall Hsel].
      set (after := fold_left (StopPopup.nearer stop) candidates (m, nv)) in *.
      split.
      * intros v' [<- | Hv']; [| now apply Hall].
        destruct Hsel as [[-> _] | (w & _ & _ & _ & Hw)]; [exact Hlt |].
        destruct (dist v <? fst after)%js eqn:E; [| reflexivity].
        pose proof (ltb_trans _ _ _ E Hw) as C. congruence.
      * destruct Hsel as [Hsame | (w & Hw & Hn & Hm & Hlt')]; [now left |].
        right. exists w. split; [now right |]. now repeat split.
Qed.

(** X16.  The loop over the candidates, whatever their coordinates
    are: it ends either with no vehicle and the distance [Infinity], and
    then no candidate has a distance below [Infinity] (none at all, or
    only [NaN] distances), or with a candidate, its distance to the stop,
    which is below [Infinity], and no candidate with a smaller
    distance. *)
Theorem nearest_vehicle (candidates : list LiveVehicle) :
  match StopPopup.nearest stop candidates with
  | (minDistance, Some v) =>
      In v candidates
      /\ minDistance
         = Utils.calculateDistance (stop_lat stop) (stop_lon stop)
             (latitude v) (longitude v)
      /\ (minDistance <? PInf)%js = true
      /\ forall v', In v' candidates ->
           (Utils.calculateDistance (stop_lat stop) (stop_lon stop)
              (latitude v') (longitude v') <? minDistance)%js = false
  | (minDistance, None) =>
      minDistance = PInf
      /\ forall v', In v' candidates ->
           (Utils.calculateDistance (stop_lat stop) (stop_lon stop)
              (latitude v') (longitude v') <? PInf)%js = false
  end.
Proof.
  unfold StopPopup.nearest.
  destruct (nearest_fold candidates PInf None) as [Hall Hsel].
  destruct (fold_left (StopPopup.nearer stop) candidates (PInf, None))
    as [minDistance nearestVehicle].
  cbn [fst snd] in Hall, Hsel.
  destruct Hsel as [[-> ->] | (v & Hv & -> & Hm & Hlt)].
  - split; [reflexivity | exact Hall].
  - repeat split; auto.
Qed.

End Nearest.

Lemma Math_round_bounds (x : R) :
  exists n : Z,
    Math_round (Fin x) = Fin (IZR n) /\ IZR n - 1 / 2 <= x < IZR n + 1 / 2.
Proof.
  exists (Zfloor (x + 1 / 2)). split; [reflexivity |].
  pose proof (Zfloor_bound (x + 1 / 2)). lra.
Qed.


(** ** The animation and the feed at concrete inputs *)

(** A target 0.001 degrees of latitude north of [snapStart], some 111 m. *)
Lemma near_distance :
  (SmoothMarker.greatCircleMetres
     (SmoothMarker.getLatLng (SmoothMarker.create snapStart)) nearTarget
   >? Fin 500)%js = false.
Proof.
  change (SmoothMarker.getLatLng (SmoothMarker.create snapStart)) with snapStart.
  unfold SmoothMarker.greatCircleMetres, snapStart, nearTarget.
  cbn [SmoothMarker.lat SmoothMarker.lng].
  rewrite Utils_calculateDistance_Fin, greatCircleKm_meridian by lra.
  unfold gtb. cbn [mul ltb]. apply Rltb_false.
  pose proof PI_4. lra.
Qed.



Lemma animation_cancelled_witness :
  ~ In 1%nat
      (SmoothMarker.pending
         (snd (SmoothMarker.setLatLngSmooth SmoothMarker.greatCircleMetres
                 nearTarget None (Fin 0) (Fin 250)
                 (SmoothMarker.setAnimationFrameId (Some 1%nat)
                    (SmoothMarker.create snapStart),
                  {| SmoothMarker.nextId := 2; SmoothMarker.pending := [1%nat] |})))).
Proof.
  assert (Hr : (0 < 1 < SmoothMarker.nextId
                          {| SmoothMarker.nextId := 2;
                             SmoothMarker.pending := [1%nat] |})%nat)
    by (cbn; lia).
  exact (proj1 (animation_cancelled SmoothMarker.greatCircleMetres
                  (SmoothMarker.setAnimationFrameId (Some 1%nat)
                     (SmoothMarker.create snapStart))
                  {| SmoothMarker.nextId := 2; SmoothMarker.pending := [1%nat] |}
                  nearTarget None (Fin 0) (Fin 250) 1%nat eq_refl Hr)).
Defined.

Lemma SAMPLE_ROUTES_ids_NoDup : NoDup (map route_id Constants.SAMPLE_ROUTES).
Proof.
  cbn. repeat constructor; cbn; intuition discriminate.
Qed.

Lemma feed_snapshot_witness :
  NoDup (map route_id Constants.SAMPLE_ROUTES)
  /\ NoDup (map vehicle_id (Feed.subscribeTick None quarterPast)).
Proof.
  split; [exact SAMPLE_ROUTES_ids_NoDup |].
  exact (proj1 (feed_snapshot Constants.SAMPLE_ROUTES Constants.ROUTE_SHAPES
                  None quarterPast SAMPLE_ROUTES_ids_NoDup)).
Defined.

Lemma feed_route_filter_witness :
  "46A"%string <> ""%string
  /\ Forall (fun v => vehicle_route_id v = Some "46A"%string)
       (Feed.subscribeTick (Some "46A"%string) quarterPast).
Proof.
  assert (H : "46A"%string <> ""%string) by discriminate.
  split; [exact H |].
  exact (proj1 (feed_route_filter Constants.SAMPLE_ROUTES Constants.ROUTE_SHAPES
                  "46A" quarterPast H)).
Defined.
(** ** The popup of a stop *)

Lemma candidateVehicles_In (visibleVehicles : list LiveVehicle)
    (selectedDirection : nat) (v : LiveVehicle) :
  In v (StopPopup.candidateVehicles visibleVehicles selectedDirection)
  <-> In v visibleVehicles
      /\ (direction_id v = None \/ direction_id v = Some selectedDirection).
Proof.
  unfold StopPopup.candidateVehicles. rewrite filter_In.
  destruct (direction_id v) as [d |].
  - destruct (Nat.eqb_spec d selectedDirection) as [-> | N].
    + intuition.
    + split; [intros [_ H]; discriminate |].
      intros [_ [H | H]]; [discriminate | congruence].
  - intuition.
Qed.

Lemma ltb_below (a b c : num) :
  (a <? b)%js = false -> (b <? c)%js = false -> (b <? PInf)%js = true ->
  (a <? c)%js = false.
Proof.
  destruct a as [x | | |], b as [y | | |], c as [z | | |]; cbn [ltb];
    try discriminate; try reflexivity.
  intros H1 H2 _.
  destruct (Rltb x y) eqn:E1; [discriminate |].
  destruct (Rltb y z) eqn:E2; [discriminate |].
  apply Rltb_false.
  assert (~ x < y) by (intros C; apply Rltb_true in C; congruence).
  assert (~ y < z) by (intros C; apply Rltb_true in C; congruence).
  lra.
Qed.

Lemma ltb_PInf_weaken (a c : num) :
  (a <? PInf)%js = false -> (a <? c)%js = false.
Proof. destruct a, c; cbn [ltb]; try discriminate; reflexivity. Qed.

(** X18.  What the popup of a stop says.  It reads NO BUSES NEARBY
    exactly when no visible vehicle runs in the selected direction or
    without a direction.  It gives an arrival exactly when one of those
    vehicles is less than 100 km from the stop: then the vehicle is one
    of them, no other of them is closer, the distance shown is its
    distance to the stop and the minutes are [estimateArrival] of that
    distance at 18 km/h.  Otherwise, also when every distance is [NaN],
    it has no estimate. *)
Theorem stop_popup (visibleVehicles : list LiveVehicle) (selectedDirection : nat)
    (stop : Stop) :
  let dist v :=
    Utils.calculateDistance (stop_lat stop) (stop_lon stop)
      (latitude v) (longitude v) in
  let candidate v :=
    In v visibleVehicles
    /\ (direction_id v = None \/ direction_id v = Some selectedDirection) in
  match StopPopup.handleStopClick visibleVehicles selectedDirection stop with
  | StopPopup.NoBusesNearby => forall v, ~ candidate v
  | StopPopup.NextArrival eta minDistance nearestVehicle =>
      candidate nearestVehicle
      /\ minDistance = dist nearestVehicle
      /\ (minDistance <? Fin 100)%js = true
      /\ (forall v, candidate v -> (dist v <? minDistance)%js = false)
      /\ eta = estimateArrival minDistance (Fin 18)
  | StopPopup.NoEstimates =>
      (exists v, candidate v)
      /\ forall v, candidate v -> (dist v <? Fin 100)%js = false
  end.
Proof.
  intros dist candidate. unfold StopPopup.handleStopClick.
  assert (Hc : forall v,
            In v (StopPopup.candidateVehicles visibleVehicles selectedDirection)
            <-> candidate v) by (intros v; apply candidateVehicles_In).
  destruct (StopPopup.candidateVehicles visibleVehicles selectedDirection)
    as [| v0 candidates] eqn:E.
  - cbn. intros v Hv. now apply Hc in Hv.
  - cbn [length Nat.eqb]. unfold StopPopup.nearest.
    destruct (nearest_fold stop (v0 :: candidates) PInf None) as [Hall Hsel].
    destruct (fold_left (StopPopup.nearer stop) (v0 :: candidates) (PInf, None))
      as [minDistance nearestVehicle].
    cbn [fst snd] in Hall, Hsel.
    assert (Hsome : exists v, candidate v)
      by (exists v0; apply Hc; now left).
    destruct Hsel as [[-> ->] | (v & Hv & -> & Hm & Hlt)].
    + split; [exact Hsome |]. intros v Hv. apply ltb_PInf_weaken.
      apply Hall. now apply Hc.
    + destruct (minDistance <? Fin 100)%js eqn:Hnear.
      * split; [now apply Hc |]. split; [exact Hm |]. split; [exact Hnear |].
        split; [| reflexivity]. intros v' Hv'. apply Hall. now apply Hc.
      * split; [exact Hsome |]. intros v' Hv'.
        apply ltb_below with (b := minDistance); auto.
        apply Hall. now apply Hc.
Qed.

Lemma handleStopClick_none (visibleVehicles : list LiveVehicle)
    (selectedDirection : nat) (stop : Stop) :
  StopPopup.handleStopClick visibleVehicles selectedDirection stop
  = StopPopup.NoBusesNearby
  <-> StopPopup.candidateVehicles visibleVehicles selectedDirection = [].
Proof.
  unfold StopPopup.handleStopClick.
  destruct (StopPopup.candidateVehicles visibleVehicles selectedDirection)
    as [| v0 candidates]; [cbn; tauto |].
  cbn [length Nat.eqb].
  destruct (StopPopup.nearest stop (v0 :: candidates)) as [minDistance [v |]];
    [destruct (minDistance <? Fin 100)%js |]; cbv zeta; split; discriminate.
Qed.

Lemma MapScreen_direction (route : Route) (shapePoints : list Point)
    (cumulative : list num) (total : num) (now : Date) (fraction : num)
    (index dir : nat) :
  direction_id (MapScreen.makeVehicleAtFraction route shapePoints cumulative total
                  now fraction index dir) = Some dir.
Proof.
  unfold MapScreen.makeVehicleAtFraction.
  now destruct (MapScreen.positionAtFraction shapePoints cumulative total fraction).
Qed.

(** X19.  On the vehicles the screen simulates for a path of at least
    two points whose length is not zero, the popup of a stop reads NO
    BUSES NEARBY exactly when the selected direction is neither 0 nor 1:
    for the two directions there are always vehicles to choose from. *)
Theorem simulated_popup_direction (clock : Date) (route : Route)
    (shapePoints : list Point) (now : option Date) (selectedDirection : nat)
    (stop : Stop) :
  (2 <= length shapePoints)%nat ->
  (snd (pathLengths Utils.calculateDistance shapePoints) === Fin 0)%js = false ->
  StopPopup.handleStopClick
    (MapScreen.generateSimulatedVehiclesForRoute clock route shapePoints now)
    selectedDirection stop
  = StopPopup.NoBusesNearby
  <-> (2 <= selectedDirection)%nat.
Proof.
  intros Hlen Htotal. rewrite handleStopClick_none.
  rewrite MapScreen_generate_unfold. cbv zeta.
  rewrite short_path_false, Htotal by assumption.
  set (make := MapScreen.makeVehicleAtFraction _ _ _ _ _).
  split.
  - intros Hnone.
    destruct selectedDirection as [| [| d]]; [| | lia]; exfalso.
    + assert (Hin : In (make (MapScreen.progress
                                (match now with Some d => d | None => clock end) 0)
                          0%nat 0%nat)
                      (StopPopup.candidateVehicles
                         (map (fun i => make (MapScreen.progress
                                (match now with Some d => d | None => clock end) i)
                                 i 0%nat) (seq 0 6)
                          ++ map (fun i => make (1 - MapScreen.progress
                                (match now with Some d => d | None => clock end) i)%js
                                 i 1%nat) (seq 0 6)) 0)).
      { apply candidateVehicles_In. split.
        - apply in_or_app. left. cbn. now left.
        - right. apply MapScreen_direction. }
      now rewrite Hnone in Hin.
    + assert (Hin : In (make (1 - MapScreen.progress
                                (match now with Some d => d | None => clock end) 0)%js
                          0%nat 1%nat)
                      (StopPopup.candidateVehicles
                         (map (fun i => make (MapScreen.progress
                                (match now with Some d => d | None => clock end) i)
                                 i 0%nat) (seq 0 6)
                          ++ map (fun i => make (1 - MapScreen.progress
                                (match now with Some d => d | None => clock end) i)%js
                                 i 1%nat) (seq 0 6)) 1)).
      { apply candidateVehicles_In. split.
        - apply in_or_app. right. cbn. now left.
        - right. apply MapScreen_direction. }
      now rewrite Hnone in Hin.
  - intros Hd.
    match goal with |- ?l = [] => destruct l as [| v l'] eqn:E end;
      [reflexivity | exfalso].
    assert (Hv : In v (v :: l')) by now left.
    rewrite <- E in Hv. apply candidateVehicles_In in Hv as [Hv Hdir].
    apply in_app_or in Hv as [Hv | Hv]; apply in_map_iff in Hv as (i & <- & _);
      unfold make in Hdir; rewrite MapScreen_direction in Hdir;
      destruct Hdir as [C | C]; try discriminate; injection C as C; lia.
Qed.

Lemma simulated_popup_direction_witness :
  StopPopup.handleStopClick
    (MapScreen.generateSimulatedVehiclesForRoute quarterPast route15
       (map point meridianPath) (Some quarterPast))
    0 stopTrinityCollege
  <> StopPopup.NoBusesNearby.
Proof.
  assert (Hlen : (2 <= length (map point meridianPath))%nat) by (cbn; lia).
  assert (Htotal : (snd (pathLengths Utils.calculateDistance
                           (map point meridianPath)) === Fin 0)%js = false).
  { rewrite pathLengths_Utils by (cbn; lia). cbn [snd strictEq].
    apply Reqb_false. pose proof totalKm_meridianPath. lra. }
  intros C.
  apply (simulated_popup_direction quarterPast route15 (map point meridianPath)
           (Some quarterPast) 0 stopTrinityCollege Hlen Htotal) in C.
  lia.
Defined.
(** ** The vehicle markers *)

Lemma lookup_In (id : string) (markers : VehicleMarkers.Registry) :
  VehicleMarkers.lookup id markers <> None <-> In id (map fst markers).
Proof.
  unfold VehicleMarkers.lookup.
  induction markers as [| [id' m] markers IH]; cbn [find map fst In].
  - tauto.
  - destruct (String.eqb_spec id' id) as [-> | N].
    + split; [now left | discriminate].
    + rewrite IH. split; [now right | intros [C | H]; [contradiction | exact H]].
Qed.

Lemma lookup_None (id : string) (markers : VehicleMarkers.Registry) :
  VehicleMarkers.lookup id markers = None <-> ~ In id (map fst markers).
Proof.
  rewrite <- lookup_In.
  destruct (VehicleMarkers.lookup id markers); split; try congruence.
  intros H. destruct H. discriminate.
Qed.

Lemma shown_In (visibleVehicles : list LiveVehicle) (id : string) :
  VehicleMarkers.shown visibleVehicles id = true
  <-> In id (map vehicle_id visibleVehicles).
Proof.
  unfold VehicleMarkers.shown. rewrite existsb_exists, in_map_iff.
  split; intros (v & H1 & H2).
  - apply String.eqb_eq in H2. now exists v.
  - exists v. split; [assumption |]. now apply String.eqb_eq.
Qed.

Lemma keys_replace (id : string) (marker : SmoothMarker.t)
    (markers : VehicleMarkers.Registry) :
  map fst (VehicleMarkers.replace id marker markers) = map fst markers.
Proof.
  unfold VehicleMarkers.replace. rewrite map_map. apply map_ext.
  intros [id' m]. cbn [fst]. now destruct (id' =? id)%string.
Qed.

Lemma keys_removeStale (visibleVehicles : list LiveVehicle)
    (markers : VehicleMarkers.Registry) (id : string) :
  In id (map fst (VehicleMarkers.removeStale visibleVehicles markers))
  <-> In id (map fst markers) /\ In id (map vehicle_id visibleVehicles).
Proof.
  unfold VehicleMarkers.removeStale. split.
  - intros H. apply in_map_iff in H as ([id' m] & <- & H).
    apply filter_In in H as [H S]. apply shown_In in S.
    split; [| exact S]. now apply (in_map fst) in H.
  - intros [H S]. apply in_map_iff in H as ([id' m] & <- & H).
    apply in_map_iff. exists (id', m). split; [reflexivity |].
    apply filter_In. split; [exact H |]. now apply shown_In.
Qed.

Lemma lookup_removeStale (visibleVehicles : list LiveVehicle)
    (markers : VehicleMarkers.Registry) (id : string) :
  VehicleMarkers.lookup id (VehicleMarkers.removeStale visibleVehicles markers)
  = if VehicleMarkers.shown visibleVehicles id
    then VehicleMarkers.lookup id markers else None.
Proof.
  unfold VehicleMarkers.lookup, VehicleMarkers.removeStale.
  induction markers as [| [id' m] markers IH]; cbn [filter find fst].
  - now destruct (VehicleMarkers.shown visibleVehicles id).
  - destruct (String.eqb_spec id' id) as [-> | N].
    + destruct (VehicleMarkers.shown visibleVehicles id) eqn:S.
      * cbn [find fst]. now rewrite String.eqb_refl.
      * rewrite IH. reflexivity.
    + destruct (VehicleMarkers.shown visibleVehicles id') eqn:S; [| exact IH].
      cbn [find fst]. rewrite (proj2 (String.eqb_neq id' id) N). exact IH.
Qed.

Lemma lookup_replace (id id' : string) (marker : SmoothMarker.t)
    (markers : VehicleMarkers.Registry) :
  VehicleMarkers.lookup id' (VehicleMarkers.replace id marker markers)
  = if (id' =? id)%string
    then match VehicleMarkers.lookup id markers with
         | Some _ => Some marker
         | None => None
         end
    else VehicleMarkers.lookup id' markers.
Proof.
  unfold VehicleMarkers.lookup, VehicleMarkers.replace.
  induction markers as [| [key m] markers IH]; cbn [map find fst].
  - now destruct (id' =? id)%string.
  - destruct (String.eqb_spec key id) as [-> | N]; cbn [fst].
    + destruct (String.eqb_spec id id') as [<- | N'].
      * now rewrite String.eqb_refl.
      * rewrite IH. now rewrite (proj2 (String.eqb_neq id' id)) by congruence.
    + destruct (String.eqb_spec key id') as [-> | N'].
      * now rewrite (proj2 (String.eqb_neq id' id)) by congruence.
      * exact IH.
Qed.

Lemma lookup_append (id id' : string) (marker : SmoothMarker.t)
    (markers : VehicleMarkers.Registry) :
  VehicleMarkers.lookup id markers = None ->
  VehicleMarkers.lookup id' (markers ++ [(id, marker)])
  = if (id' =? id)%string then Some marker else VehicleMarkers.lookup id' markers.
Proof.
  unfold VehicleMarkers.lookup.
  induction markers as [| [key m] markers IH]; cbn [app find fst]; intros Hnone.
  - rewrite (String.eqb_sym id id'). now destruct (id' =? id)%string.
  - destruct (String.eqb_spec key id) as [-> | N]; [discriminate |].
    destruct (String.eqb_spec key id') as [-> | N'].
    + now rewrite (proj2 (String.eqb_neq id' id)) by congruence.
    + now apply IH.
Qed.

Section MarkerEffect.

Variable distanceTo : SmoothMarker.LatLng -> SmoothMarker.LatLng -> num.
Variable latLng : num -> num -> option SmoothMarker.LatLng.
Variable performance_now : nat -> num * num.

Lemma showVehicle_keys (k : nat) (vehicle : LiveVehicle)
    (markers markers' : VehicleMarkers.Registry)
    (frames frames' : SmoothMarker.Frames) :
  VehicleMarkers.showVehicle distanceTo latLng performance_now k vehicle
    (markers, frames) = Some (markers', frames') ->
  (forall id, In id (map fst markers')
              <-> In id (map fst markers) \/ id = vehicle_id vehicle)
  /\ (NoDup (map fst markers) -> NoDup (map fst markers')).
Proof.
  unfold VehicleMarkers.showVehicle.
  destruct (VehicleMarkers.lookup (vehicle_id vehicle) markers) as [old |] eqn:L;
    destruct (latLng (latitude vehicle) (longitude vehicle)) as [position |];
    try discriminate.
  - destruct (SmoothMarker.setLatLngSmooth _ _ _ _ _ _) as [marker f].
    intros H. injection H as <- <-. rewrite keys_replace.
    split; [| tauto]. intros id. split; [now left |].
    intros [H | ->]; [exact H |]. apply lookup_In. congruence.
  - intros H. injection H as <- <-. rewrite map_app. cbn [map fst].
    apply lookup_None in L. split.
    + intros id. rewrite in_app_iff. cbn [In]. intuition.
    + intros N. apply NoDup_app; [exact N | repeat constructor; intros [] |].
      intros id Hid [<- | []]. contradiction.
Qed.

Lemma showVehicle_runs (k : nat) (vehicle : LiveVehicle)
    (state : VehicleMarkers.Registry * SmoothMarker.Frames) :
  VehicleMarkers.showVehicle distanceTo latLng performance_now k vehicle state = None
  <-> latLng (latitude vehicle) (longitude vehicle) = None.
Proof.
  destruct state as [markers frames]. unfold VehicleMarkers.showVehicle.
  destruct (VehicleMarkers.lookup (vehicle_id vehicle) markers) as [old |];
    destruct (latLng (latitude vehicle) (longitude vehicle)) as [position |];
    try tauto.
  - destruct (SmoothMarker.setLatLngSmooth _ _ _ _ _ _). split; discriminate.
  - split; discriminate.
Qed.

Lemma showVehicles_runs (visibleVehicles : list LiveVehicle) (k : nat)
    (state : VehicleMarkers.Registry * SmoothMarker.Frames) :
  VehicleMarkers.showVehicles distanceTo latLng performance_now k visibleVehicles
    state = None
  <-> exists v, In v visibleVehicles /\ latLng (latitude v) (longitude v) = None.
Proof.
  revert k state.
  induction visibleVehicles as [| v vs IH]; intros k state;
    cbn [VehicleMarkers.showVehicles].
  - split; [discriminate | intros (v & [] & _)].
  - destruct (VehicleMarkers.showVehicle _ _ _ k v state) as [state' |] eqn:E.
    + rewrite IH. split.
      * intros (w & Hw & Hn). exists w. split; [now right | exact Hn].
      * intros (w & [<- | Hw] & Hn).
        -- apply showVehicle_runs with (k := k) (state := state) in Hn. congruence.
        -- now exists w.
    + split; [| reflexivity]. intros _. exists v. split; [now left |].
      now apply showVehicle_runs in E.
Qed.

Lemma showVehicles_keys (visibleVehicles : list LiveVehicle) (k : nat)
    (markers markers' : VehicleMarkers.Registry)
    (frames frames' : SmoothMarker.Frames) :
  VehicleMarkers.showVehicles distanceTo latLng performance_now k visibleVehicles
    (markers, frames) = Some (markers', frames') ->
  (forall id, In id (map fst markers')
              <-> In id (map fst markers) \/ In id (map vehicle_id visibleVehicles))
  /\ (NoDup (map fst markers) -> NoDup (map fst markers')).
Proof.
  revert k markers frames.
  induction visibleVehicles as [| v vs IH]; intros k markers frames;
    cbn [VehicleMarkers.showVehicles].
  - intros H. injection H as <- <-. cbn [map In]. split; [tauto | tauto].
  - destruct (VehicleMarkers.showVehicle _ _ _ k v (markers, frames))
      as [[markers1 frames1] |] eqn:E; [| discriminate].
    intros H. apply showVehicle_keys in E as [K1 N1].
    apply IH in H as [K2 N2]. split; [| tauto].
    intros id. rewrite K2, K1. cbn [map In]. intuition.
Qed.


Lemma showVehicle_lookup (k : nat) (vehicle : LiveVehicle)
    (markers markers' : VehicleMarkers.Registry)
    (frames frames' : SmoothMarker.Frames) :
  VehicleMarkers.showVehicle distanceTo latLng performance_now k vehicle
    (markers, frames) = Some (markers', frames') ->
  (forall id, id <> vehicle_id vehicle ->
     VehicleMarkers.lookup id markers' = VehicleMarkers.lookup id markers)
  /\ exists position,
       latLng (latitude vehicle) (longitude vehicle) = Some position
       /\ VehicleMarkers.lookup (vehicle_id vehicle) markers'
          = Some match VehicleMarkers.lookup (vehicle_id vehicle) markers with
                 | Some existingMarker =>
                     fst (SmoothMarker.setLatLngSmooth distanceTo position
                            (Some (Fin 2000)) (fst (performance_now k))
                            (snd (performance_now k)) (existingMarker, frames))
                 | None => SmoothMarker.create position
                 end.
Proof.
  unfold VehicleMarkers.showVehicle.
  destruct (VehicleMarkers.lookup (vehicle_id vehicle) markers) as [old |] eqn:L;
    destruct (latLng (latitude vehicle) (longitude vehicle)) as [position |];
    try discriminate.
  - destruct (SmoothMarker.setLatLngSmooth _ _ _ _ _ _) as [marker f] eqn:E.
    intros H. injection H as <- <-. split.
    + intros id Hid. rewrite lookup_replace.
      now rewrite (proj2 (String.eqb_neq id (vehicle_id vehicle))).
    + exists position. split; [reflexivity |].
      rewrite lookup_replace, String.eqb_refl, L, E. reflexivity.
  - intros H. injection H as <- <-. split.
    + intros id Hid. rewrite lookup_append by assumption.
      now rewrite (proj2 (String.eqb_neq id (vehicle_id vehicle))).
    + exists position. split; [reflexivity |].
      rewrite lookup_append by assumption. now rewrite String.eqb_refl.
Qed.

Lemma showVehicles_lookup (visibleVehicles : list LiveVehicle) (k : nat)
    (markers markers' : VehicleMarkers.Registry)
    (frames frames' : SmoothMarker.Frames) :
  NoDup (map vehicle_id visibleVehicles) ->
  VehicleMarkers.showVehicles distanceTo latLng performance_now k visibleVehicles
    (markers, frames) = Some (markers', frames') ->
  (forall id, ~ In id (map vehicle_id visibleVehicles) ->
     VehicleMarkers.lookup id markers' = VehicleMarkers.lookup id markers)
  /\ forall v, In v visibleVehicles ->
       exists position,
         latLng (latitude v) (longitude v) = Some position
         /\ match VehicleMarkers.lookup (vehicle_id v) markers with
            | Some existingMarker =>
                exists j frames0,
                  VehicleMarkers.lookup (vehicle_id v) markers'
                  = Some (fst (SmoothMarker.setLatLngSmooth distanceTo position
                                 (Some (Fin 2000)) (fst (performance_now j))
                                 (snd (performance_now j))
                                 (existingMarker, frames0)))
            | None =>
                VehicleMarkers.lookup (vehicle_id v) markers'
                = Some (SmoothMarker.create position)
            end.
Proof.
  revert k markers frames.
  induction visibleVehicles as [| v vs IH]; intros k markers frames Hnd;
    cbn [VehicleMarkers.showVehicles].
  - intros H. injection H as <- <-. split; [reflexivity | intros v []].
  - cbn [map] in Hnd. inversion Hnd as [| ? ? Hnot Hrest]; subst.
    destruct (VehicleMarkers.showVehicle _ _ _ k v (markers, frames))
      as [[markers1 frames1] |] eqn:E; [| discriminate].
    intros H. apply showVehicle_lookup in E as (Hother & position & Hp & Hv).
    apply (IH _ _ _ Hrest) in H as [Hkeep Hrec]. split.
    + intros id Hid. cbn [map In] in Hid.
      rewrite Hkeep by tauto. apply Hother. intros ->. tauto.
    + intros w [<- | Hw].
      * exists position. split; [exact Hp |].
        rewrite Hkeep by assumption. rewrite Hv.
        destruct (VehicleMarkers.lookup (vehicle_id v) markers) as [old |];
          [| reflexivity].
        now exists k, frames.
      * destruct (Hrec w Hw) as (p & Hp' & Hm). exists p. split; [exact Hp' |].
        rewrite Hother in Hm; [exact Hm |].
        intros C. apply Hnot. rewrite <- C. now apply in_map.
Qed.

(** X21.  After the effect, for visible vehicles with pairwise distinct
    ids: a vehicle that had no marker has a new marker that shows its
    position at once, with no animation under way; a vehicle that had
    one keeps it, moved by one call of [setLatLngSmooth] over 2000 ms
    towards its position, which is the marker's target afterwards. *)
Theorem marker_positions (visibleVehicles : list LiveVehicle)
    (markers markers' : VehicleMarkers.Registry)
    (frames frames' : SmoothMarker.Frames) (v : LiveVehicle) :
  NoDup (map vehicle_id visibleVehicles) ->
  VehicleMarkers.syncMarkers distanceTo latLng performance_now visibleVehicles
    (markers, frames) = Some (markers', frames') ->
  In v visibleVehicles ->
  exists position marker,
    latLng (latitude v) (longitude v) = Some position
    /\ VehicleMarkers.lookup (vehicle_id v) markers' = Some marker
    /\ SmoothMarker._targetLatLng marker = position
    /\ match VehicleMarkers.lookup (vehicle_id v) markers with
       | Some existingMarker =>
           exists j frames0,
             marker = fst (SmoothMarker.setLatLngSmooth distanceTo position
                             (Some (Fin 2000)) (fst (performance_now j))
                             (snd (performance_now j)) (existingMarker, frames0))
       | None =>
           marker = SmoothMarker.create position
           /\ SmoothMarker.getLatLng marker = position
           /\ SmoothMarker._animationFrameId marker = None
       end.
Proof.
  unfold VehicleMarkers.syncMarkers. intros Hnd H Hv.
  apply (showVehicles_lookup _ _ _ _ _ _ Hnd) in H as [_ H].
  destruct (H v Hv) as (position & Hp & Hm). clear H.
  rewrite lookup_removeStale in Hm.
  replace (VehicleMarkers.shown visibleVehicles (vehicle_id v)) with true in Hm
    by (symmetry; apply shown_In; now apply in_map).
  destruct (VehicleMarkers.lookup (vehicle_id v) markers) as [old |].
  - destruct Hm as (j & frames0 & Hm).
    eexists position, _. split; [exact Hp |]. split; [exact Hm |].
    split; [| now exists j, frames0].
    unfold SmoothMarker.setLatLngSmooth.
    cbn [SmoothMarker._startLatLng SmoothMarker._targetLatLng].
    destruct (distanceTo (SmoothMarker.getLatLng old) position >? Fin 500)%js;
      [reflexivity |].
    unfold SmoothMarker._animate.
    match goal with |- context [if ?c then _ else _] => destruct c end;
      reflexivity.
  - exists position, (SmoothMarker.create position). now repeat split.
Qed.

End MarkerEffect.

Lemma syncMarkers_example :
  VehicleMarkers.syncMarkers SmoothMarker.greatCircleMetres acceptAll stoppedClock
    [vehicleAtSnapStart] (staleRegistry, noFrames)
  = Some ([("SIM-15-0-0"%string, SmoothMarker.create snapStart)], noFrames).
Proof. reflexivity. Qed.


Lemma marker_positions_witness :
  exists position marker,
    acceptAll (latitude vehicleAtSnapStart) (longitude vehicleAtSnapStart)
    = Some position
    /\ VehicleMarkers.lookup (vehicle_id vehicleAtSnapStart)
         [("SIM-15-0-0"%string, SmoothMarker.create snapStart)] = Some marker
    /\ SmoothMarker._targetLatLng marker = position.
Proof.
  assert (Hnd : NoDup (map vehicle_id [vehicleAtSnapStart]))
    by (cbn; repeat constructor; intros []).
  assert (Hin : In vehicleAtSnapStart [vehicleAtSnapStart]) by now left.
  destruct (marker_positions SmoothMarker.greatCircleMetres acceptAll stoppedClock
              [vehicleAtSnapStart] staleRegistry _ noFrames _ vehicleAtSnapStart
              Hnd syncMarkers_example Hin)
    as (position & marker & Hp & Hm & Ht & _).
  now exists position, marker.
Defined.
(** ** The two copies side by side *)

Lemma pathLengths_agree (shapePoints : list Point) :
  pathLengths Utils.calculateDistance shapePoints
  = pathLengths TransportService.calculateDistance shapePoints.
Proof.
  unfold pathLengths.
  generalize (seq 1 (length shapePoints - 1)) ([Fin 0], Fin 0).
  intros indices. induction indices as [| i indices IH]; intros state;
    [reflexivity |].
  cbn [fold_left]. rewrite IH. f_equal.
  destruct state as [cumulative total]. unfold lengthStep.
  destruct (nth (i - 1) shapePoints undefinedPoint) as [lat1 lon1].
  destruct (nth i shapePoints undefinedPoint) as [lat2 lon2].
  now rewrite calculateDistance_agree.
Qed.



(** ** Trip ids *)

Lemma MapScreen_tripIds_unfold (clock : Date) (route : Route)
    (shapePoints : list Point) (now : option Date) :
  map trip_id (MapScreen.generateSimulatedVehiclesForRoute clock route shapePoints now)
  = if (length shapePoints <? 2)%nat
       || (snd (pathLengths Utils.calculateDistance shapePoints) === Fin 0)%js
    then []
    else map (fun i => Some (MapScreen.tripId route 0 i)) (seq 0 6)
         ++ map (fun i => Some (MapScreen.tripId route 1 i)) (seq 0 6).
Proof.
  rewrite MapScreen_generate_unfold. cbv zeta.
  destruct (length shapePoints <? 2)%nat; [reflexivity |].
  destruct (snd (pathLengths Utils.calculateDistance shapePoints) === Fin 0)%js;
    [reflexivity |].
  cbn [orb]. rewrite map_app, !map_map.
  f_equal; apply map_ext; intros i; unfold MapScreen.makeVehicleAtFraction;
    destruct (MapScreen.positionAtFraction _ _ _ _); reflexivity.
Qed.

Lemma TransportService_tripIds_unfold (route : Route)
    (shapePoints : list Point) (now : Date) :
  map trip_id (TransportService.generateSimulatedVehiclesForRoute route shapePoints now)
  = if (length shapePoints <? 2)%nat then []
    else map (fun i => Some (TransportService.tripId route i)) (seq 0 3)
         ++ map (fun i => Some (TransportService.tripId route i)) (seq 0 3).
Proof.
  rewrite TransportService_generate_unfold. cbv zeta.
  destruct (length shapePoints <? 2)%nat; [reflexivity |].
  rewrite map_app, !map_map.
  f_equal; apply map_ext; intros i; unfold TransportService.placeVehicle;
    destruct (TransportService.positionAtPct _ _ _ _); reflexivity.
Qed.

Lemma NoDup_Some_prefixed (p q : string) (suffixes : list string) :
  NoDup suffixes ->
  NoDup (map (fun s => Some (p ++ q ++ s)%string) suffixes).
Proof.
  induction 1 as [| s suffixes Hs _ IH]; cbn [map]; constructor; [| exact IH].
  intros Hin. apply in_map_iff in Hin as (s' & E & Hs').
  injection E as E. apply append_inj, append_inj in E. now subst s'.
Qed.

(** X23.  In MapScreen.tsx the trip ids of a snapshot are pairwise
    distinct.  In transportService.ts the trip id leaves the direction
    out: the vehicle of slot [i] in direction 0 and the one in direction
    1 carry the same trip id, so on a path of at least two points the
    trip ids of a snapshot are not pairwise distinct, while the vehicle
    ids are. *)
Theorem trip_ids (clock : Date) (route : Route) (shapePoints : list Point)
    (now : option Date) (t : Date) (i : nat) :
  NoDup (map trip_id
           (MapScreen.generateSimulatedVehiclesForRoute clock route shapePoints now))
  /\ NoDup (map vehicle_id
              (TransportService.generateSimulatedVehiclesForRoute route shapePoints t))
  /\ ((2 <= length shapePoints)%nat -> (i < 3)%nat ->
      let vehicles :=
        TransportService.generateSimulatedVehiclesForRoute route shapePoints t in
      (exists outbound inbound,
         nth_error vehicles i = Some outbound
         /\ nth_error vehicles (3 + i) = Some inbound
         /\ direction_id outbound = Some 0%nat
         /\ direction_id inbound = Some 1%nat
         /\ trip_id outbound = trip_id inbound)
      /\ ~ NoDup (map trip_id vehicles)).
Proof.
  split; [| split].
  - rewrite MapScreen_tripIds_unfold.
    destruct ((length shapePoints <? 2)%nat
              || (snd (pathLengths Utils.calculateDistance shapePoints) === Fin 0)%js);
      [constructor |].
    change (NoDup (map (fun s => Some (route_id route ++ "-sim-" ++ s)%string)
                     ["0-0"; "0-1"; "0-2"; "0-3"; "0-4"; "0-5";
                      "1-0"; "1-1"; "1-2"; "1-3"; "1-4"; "1-5"]%string)).
    apply NoDup_Some_prefixed.
    repeat (constructor; [cbn [In]; intuition discriminate |]). constructor.
  - rewrite TransportService_ids_unfold.
    destruct (length shapePoints <? 2)%nat;
      [constructor | apply TransportService_ids_NoDup].
  - intros Hlen Hi vehicles.
    assert (Hdup : ~ NoDup (map trip_id vehicles)).
    { subst vehicles. rewrite TransportService_tripIds_unfold.
      rewrite short_path_false by assumption. cbn [seq map app].
      intros C. inversion C as [| ? ? Hnot _]. apply Hnot. cbn [In]. tauto. }
    assert (Hdir : forall cumulative total pct dir idx,
              direction_id (TransportService.placeVehicle route shapePoints
                              cumulative total t pct dir idx) = Some dir).
    { intros. unfold TransportService.placeVehicle.
      now destruct (TransportService.positionAtPct _ _ _ _). }
    assert (Htrip : forall cumulative total pct dir idx,
              trip_id (TransportService.placeVehicle route shapePoints
                         cumulative total t pct dir idx)
              = Some (TransportService.tripId route idx)).
    { intros. unfold TransportService.placeVehicle.
      now destruct (TransportService.positionAtPct _ _ _ _). }
    split; [| exact Hdup]. subst vehicles.
    rewrite TransportService_generate_unfold. cbv zeta.
    rewrite short_path_false by assumption.
    destruct i as [| [| [| i]]]; [| | | lia];
      cbn [seq map app nth_error Nat.add]; eexists _, _;
      (split; [reflexivity |]); (split; [reflexivity |]);
      rewrite !Hdir, !Htrip; now repeat split.
Qed.

Lemma trip_ids_witness :
  ~ NoDup (map trip_id
             (TransportService.generateSimulatedVehiclesForRoute route15
                (map point meridianPath) quarterPast)).
Proof.
  assert (Hlen : (2 <= length (map point meridianPath))%nat) by (cbn; lia).
  assert (Hi : (0 < 3)%nat) by lia.
  exact (proj2 (proj2 (proj2 (trip_ids quarterPast route15 (map point meridianPath)
                                None quarterPast 0)) Hlen Hi)).
Defined.
(** ** Route names *)

Lemma trimStart_suffix (s : text) : exists k, JSString.trimStart s = skipn k s.
Proof.
  induction s as [| c rest [k IH]]; [now exists 0%nat |].
  cbn [JSString.trimStart]. destruct (JSString.isWhiteSpace c).
  - now exists (S k).
  - now exists 0%nat.
Qed.

Lemma trimEnd_prefix (s : text) : exists k, JSString.trimEnd s = firstn k s.
Proof.
  induction s as [| c rest [k IH]]; [now exists 0%nat |].
  cbn [JSString.trimEnd]. destruct (JSString.trimEnd rest) as [| c' kept].
  - destruct (JSString.isWhiteSpace c); [now exists 0%nat | now exists 1%nat].
  - exists (S k). cbn [firstn]. now rewrite <- IH.
Qed.

Lemma trimEnd_idempotent (s : text) :
  JSString.trimEnd (JSString.trimEnd s) = JSString.trimEnd s.
Proof.
  induction s as [| c rest IH]; [reflexivity |].
  cbn [JSString.trimEnd]. destruct (JSString.trimEnd rest) as [| c' kept] eqn:E.
  - destruct (JSString.isWhiteSpace c) eqn:W; [reflexivity |].
    cbn [JSString.trimEnd]. now rewrite W.
  - cbn [JSString.trimEnd]. cbn [JSString.trimEnd] in IH. now rewrite IH.
Qed.

Lemma trimStart_head (c : N) (rest : text) :
  JSString.isWhiteSpace c = false -> JSString.trimStart (c :: rest) = c :: rest.
Proof. intros W. cbn [JSString.trimStart]. now rewrite W. Qed.

Lemma trimStart_result (s : text) :
  match JSString.trimStart s with
  | [] => True
  | c :: _ => JSString.isWhiteSpace c = false
  end.
Proof.
  induction s as [| c rest IH]; [exact I |].
  cbn [JSString.trimStart]. destruct (JSString.isWhiteSpace c) eqn:W; assumption.
Qed.

Lemma trimEnd_head (c : N) (rest : text) :
  JSString.isWhiteSpace c = false ->
  exists kept, JSString.trimEnd (c :: rest) = c :: kept.
Proof.
  intros W. cbn [JSString.trimEnd]. destruct (JSString.trimEnd rest) as [| c' kept].
  - rewrite W. now exists [].
  - now exists (c' :: kept).
Qed.

Lemma trim_idempotent (s : text) :
  JSString.trim (JSString.trim s) = JSString.trim s.
Proof.
  unfold JSString.trim. pose proof (trimStart_result s) as H.
  destruct (JSString.trimStart s) as [| c rest]; [reflexivity |].
  destruct (trimEnd_head c rest H) as [kept E].
  rewrite E, trimStart_head by assumption. rewrite <- E.
  apply trimEnd_idempotent.
Qed.

Lemma collapse_tidy (inRun : bool) (s : text) :
  tidyFrom inRun (JSString.collapseFrom inRun s) = true.
Proof.
  revert inRun. induction s as [| c rest IH]; intros inRun; [reflexivity |].
  cbn [JSString.collapseFrom]. destruct (JSString.isWhiteSpace c) eqn:W.
  - destruct inRun; [apply IH |].
    cbn [tidyFrom]. change (JSString.isWhiteSpace 32) with true.
    cbn. apply IH.
  - cbn [tidyFrom]. rewrite W. apply IH.
Qed.

Lemma tidy_weaken (inRun : bool) (s : text) :
  tidyFrom inRun s = true -> tidyFrom false s = true.
Proof.
  destruct inRun; [| auto]. destruct s as [| c rest]; [auto |].
  cbn [tidyFrom]. destruct (JSString.isWhiteSpace c); [discriminate | auto].
Qed.

Lemma tidy_skipn (k : nat) (inRun : bool) (s : text) :
  tidyFrom inRun s = true -> tidyFrom false (skipn k s) = true.
Proof.
  revert inRun s. induction k as [| k IH]; intros inRun s H.
  - now apply tidy_weaken with (inRun := inRun).
  - destruct s as [| c rest]; [reflexivity |]. cbn [skipn].
    cbn [tidyFrom] in H. destruct (JSString.isWhiteSpace c).
    + apply andb_prop in H as [_ H]. now apply IH with (inRun := true).
    + now apply IH with (inRun := false).
Qed.

Lemma tidy_firstn (k : nat) (inRun : bool) (s : text) :
  tidyFrom inRun s = true -> tidyFrom inRun (firstn k s) = true.
Proof.
  revert inRun s. induction k as [| k IH]; intros inRun s H; [reflexivity |].
  destruct s as [| c rest]; [reflexivity |]. cbn [firstn tidyFrom].
  cbn [tidyFrom] in H. destruct (JSString.isWhiteSpace c).
  - apply andb_prop in H as [H1 H]. rewrite H1. now apply IH.
  - now apply IH.
Qed.

Lemma tidy_fixed (inRun : bool) (s : text) :
  tidyFrom inRun s = true -> JSString.collapseFrom inRun s = s.
Proof.
  revert inRun. induction s as [| c rest IH]; intros inRun H; [reflexivity |].
  cbn [tidyFrom] in H. cbn [JSString.collapseFrom].
  destruct (JSString.isWhiteSpace c).
  - apply andb_prop in H as [H H2]. apply andb_prop in H as [H0 H1].
    destruct inRun; [discriminate |]. apply N.eqb_eq in H1. subst c.
    f_equal. now apply IH.
  - f_equal. now apply IH.
Qed.

Lemma tidy_trim (s : text) :
  tidyFrom false s = true -> tidyFrom false (JSString.trim s) = true.
Proof.
  intros H. unfold JSString.trim.
  destruct (trimStart_suffix s) as [j ->].
  destruct (trimEnd_prefix (skipn j s)) as [k ->].
  apply tidy_firstn. now apply tidy_skipn with (inRun := false).
Qed.

Lemma split_segments (fuel : nat) (sep s part : text) :
  In part (JSString.splitWithin fuel sep s) ->
  exists j k, part = firstn k (skipn j s).
Proof.
  revert s. induction fuel as [| fuel IH]; intros s; cbn [JSString.splitWithin].
  - intros [<- | []]. exists 0%nat, (length s). now rewrite firstn_all.
  - destruct (JSString.indexOf sep s) as [i |].
    + intros [<- | H]; [now exists 0%nat, i |].
      apply IH in H as (j & k & ->). exists (j + (i + length sep))%nat, k.
      now rewrite skipn_skipn.
    + intros [<- | []]. exists 0%nat, (length s). now rewrite firstn_all.
Qed.

(** A text in the form [deriveRouteEndpoints] returns: cleaning it again
    changes nothing. *)
Lemma clean_segment (cleaned : text) (j k : nat) :
  tidyFrom false cleaned = true ->
  let name := JSString.trim (firstn k (skipn j cleaned)) in
  JSString.trim name = name /\ JSString.collapseSpaces name = name.
Proof.
  intros H name. split; [apply trim_idempotent |].
  apply tidy_fixed, tidy_trim, tidy_firstn.
  now apply tidy_skipn with (inRun := false).
Qed.

Lemma trySplit_clean (cleaned sep from to : text) :
  tidyFrom false cleaned = true ->
  RouteNames.trySplit cleaned sep = Some (from, to) ->
  (JSString.trim from = from /\ JSString.collapseSpaces from = from)
  /\ (JSString.trim to = to /\ JSString.collapseSpaces to = to).
Proof.
  intros H. unfold RouteNames.trySplit, JSString.split.
  destruct (Nat.leb_spec 2 (length (JSString.splitWithin (length cleaned) sep cleaned)))
    as [Hlen | Hlen]; [| discriminate].
  intros E. injection E as <- <-. split.
  - destruct (split_segments (length cleaned) sep cleaned
                (nth 0 (JSString.splitWithin (length cleaned) sep cleaned) []))
      as (j & k & ->); [apply nth_In; lia |].
    now apply clean_segment.
  - destruct (split_segments (length cleaned) sep cleaned
                (nth (length (JSString.splitWithin (length cleaned) sep cleaned) - 1)
                   (JSString.splitWithin (length cleaned) sep cleaned) []))
      as (j & k & ->); [apply nth_In; lia |].
    now apply clean_segment.
Qed.

(** X24.  Whatever the long name is, both names that
    [deriveRouteEndpoints] returns are in cleaned form: they neither
    start nor end with white space and hold no white space other than
    single spaces, so that trimming them or collapsing their white space
    again changes nothing. *)
Theorem endpoints_clean (longName : text) :
  let from := fst (RouteNames.deriveRouteEndpoints longName) in
  let to := snd (RouteNames.deriveRouteEndpoints longName) in
  JSString.trim from = from /\ JSString.collapseSpaces from = from
  /\ JSString.trim to = to /\ JSString.collapseSpaces to = to.
Proof.
  cbv zeta. unfold RouteNames.deriveRouteEndpoints.
  destruct longName as [| c rest]; [now vm_compute |].
  set (cleaned := JSString.trim (JSString.collapseSpaces (c :: rest))).
  assert (H : tidyFrom false cleaned = true)
    by apply tidy_trim, collapse_tidy.
  assert (G : forall sep endpoints,
            RouteNames.trySplit cleaned sep = Some endpoints ->
            JSString.trim (fst endpoints) = fst endpoints
            /\ JSString.collapseSpaces (fst endpoints) = fst endpoints
            /\ JSString.trim (snd endpoints) = snd endpoints
            /\ JSString.collapseSpaces (snd endpoints) = snd endpoints).
  { intros sep [from to] E. cbn [fst snd].
    destruct (trySplit_clean cleaned sep from to H E) as [[? ?] [? ?]]. tauto. }
  destruct (RouteNames.trySplit cleaned RouteNames.hyphen) eqn:E1; [now apply G in E1 |].
  destruct (RouteNames.trySplit cleaned RouteNames.enDash) eqn:E2; [now apply G in E2 |].
  destruct (RouteNames.trySplit cleaned RouteNames.emDash) eqn:E3; [now apply G in E3 |].
  destruct (RouteNames.trySplit cleaned RouteNames.wordTo) eqn:E4; [now apply G in E4 |].
  cbn [fst snd].
  assert (T : JSString.trim cleaned = cleaned) by apply trim_idempotent.
  assert (C : JSString.collapseSpaces cleaned = cleaned) by now apply tidy_fixed.
  tauto.
Qed.

Lemma trimStart_length (s : text) :
  (length (JSString.trimStart s) <= length s)%nat.
Proof. destruct (trimStart_suffix s) as [k ->]. rewrite length_skipn. lia. Qed.

Lemma trimEnd_length (s : text) :
  (length (JSString.trimEnd s) <= length s)%nat.
Proof. destruct (trimEnd_prefix s) as [k ->]. rewrite length_firstn. lia. Qed.

Lemma trimmed_ends (name : text) :
  JSString.trim name = name ->
  JSString.trimStart name = name /\ JSString.trimEnd name = name.
Proof.
  unfold JSString.trim. intros H.
  assert (L : length (JSString.trimStart name) = length name).
  { pose proof (trimStart_length name).
    pose proof (trimEnd_length (JSString.trimStart name)).
    rewrite H in *. lia. }
  assert (S : JSString.trimStart name = name).
  { destruct (trimStart_suffix name) as [k E]. rewrite E in *.
    rewrite length_skipn in L.
    destruct k as [| k]; [reflexivity |].
    destruct name as [| c rest]; [reflexivity | cbn [length] in L; lia]. }
  split; [exact S | now rewrite S in H].
Qed.

Lemma trimmed_head (c : N) (rest : text) :
  JSString.trimStart (c :: rest) = c :: rest -> JSString.isWhiteSpace c = false.
Proof.
  cbn [JSString.trimStart]. destruct (JSString.isWhiteSpace c); [| reflexivity].
  intros H. pose proof (trimStart_length rest) as L. rewrite H in L.
  cbn [length] in L. lia.
Qed.

Lemma trimEnd_app (s t : text) :
  JSString.trimEnd t <> [] -> JSString.trimEnd (s ++ t) = s ++ JSString.trimEnd t.
Proof.
  intros H. induction s as [| c s IH]; [reflexivity |].
  cbn [app JSString.trimEnd]. rewrite IH.
  destruct (s ++ JSString.trimEnd t) as [| c' kept] eqn:E; [| reflexivity].
  apply app_eq_nil in E as [_ E]. contradiction.
Qed.

Lemma collapse_app (inRun : bool) (s t : text) :
  JSString.collapseFrom inRun (s ++ t)
  = JSString.collapseFrom inRun s ++ JSString.collapseFrom (endsInSpace inRun s) t.
Proof.
  revert inRun. induction s as [| c s IH]; intros inRun; [reflexivity |].
  cbn [app JSString.collapseFrom]. unfold endsInSpace. cbn [fold_left].
  fold (endsInSpace (JSString.isWhiteSpace c) s).
  destruct (JSString.isWhiteSpace c); [destruct inRun |]; rewrite IH; reflexivity.
Qed.

Lemma trimmed_last (inRun : bool) (name : text) :
  name <> [] -> JSString.trimEnd name = name -> endsInSpace inRun name = false.
Proof.
  revert inRun. induction name as [| c rest IH]; intros inRun Hne H; [contradiction |].
  unfold endsInSpace. cbn [fold_left]. fold (endsInSpace (JSString.isWhiteSpace c) rest).
  cbn [JSString.trimEnd] in H.
  destruct (JSString.trimEnd rest) as [| c' kept] eqn:E.
  - destruct (JSString.isWhiteSpace c) eqn:W; [discriminate |].
    injection H as <-. reflexivity.
  - injection H as H. apply IH; [rewrite <- H; discriminate | exact H].
Qed.

Lemma collapse_after_space (c : N) (rest : text) :
  JSString.isWhiteSpace c = false ->
  JSString.collapseFrom true (c :: rest) = JSString.collapseFrom false (c :: rest).
Proof. intros W. cbn [JSString.collapseFrom]. now rewrite W. Qed.

Lemma indexOf_hyphen_none (s : text) :
  ~ In 45%N s -> JSString.indexOf RouteNames.hyphen s = None.
Proof.
  induction s as [| c rest IH]; intros H; [reflexivity |].
  cbn [JSString.indexOf].
  replace (JSString.startsWith RouteNames.hyphen (c :: rest)) with false.
  - rewrite IH; [reflexivity |]. intros C. apply H. now right.
  - symmetry. change RouteNames.hyphen with [32; 45; 32]%N.
    cbn [JSString.startsWith]. destruct (32 =? c)%N; [| reflexivity].
    destruct rest as [| c' rest']; [reflexivity |].
    destruct (N.eqb_spec 45 c') as [<- | N]; [| reflexivity].
    destruct H. right. now left.
Qed.

Lemma indexOf_hyphen_at (name rest : text) :
  ~ In 45%N name ->
  JSString.indexOf RouteNames.hyphen (name ++ RouteNames.hyphen ++ rest)
  = Some (length name).
Proof.
  induction name as [| c name IH]; intros H.
  - destruct rest; reflexivity.
  - cbn [app JSString.indexOf length].
    replace (JSString.startsWith RouteNames.hyphen
               (c :: name ++ RouteNames.hyphen ++ rest)) with false.
    + rewrite IH; [reflexivity |]. intros C. apply H. now right.
    + symmetry. change RouteNames.hyphen with [32; 45; 32]%N.
      cbn [JSString.startsWith]. destruct (32 =? c)%N; [| reflexivity].
      destruct name as [| c' name']; [reflexivity |]. cbn [app].
      destruct (N.eqb_spec 45 c') as [<- | N]; [| reflexivity].
      destruct H. right. now left.
Qed.

Lemma join_head (names : list text) :
  Forall RouteNames.placeName names -> names <> [] ->
  exists c rest,
    RouteNames.join RouteNames.hyphen names = c :: rest
    /\ JSString.isWhiteSpace c = false.
Proof.
  intros H Hne. destruct names as [| name names]; [contradiction |].
  inversion H as [| ? ? (Hn & Ht & _) _]; subst.
  apply trimmed_ends in Ht as [Hs _].
  destruct name as [| c rest]; [contradiction |].
  apply trimmed_head in Hs.
  destruct names as [| name' names]; cbn [RouteNames.join app]; eauto.
Qed.

Lemma join_clean (names : list text) :
  Forall RouteNames.placeName names -> names <> [] ->
  JSString.collapseSpaces (RouteNames.join RouteNames.hyphen names)
  = RouteNames.join RouteNames.hyphen names
  /\ JSString.trimEnd (RouteNames.join RouteNames.hyphen names)
     = RouteNames.join RouteNames.hyphen names.
Proof.
  intros H. induction H as [| name names (Hn & Ht & Hc & _) Hrest IH]; intros Hne;
    [contradiction |].
  apply trimmed_ends in Ht as [_ He].
  destruct names as [| name' names]; [now split |].
  destruct IH as [IHc IHe]; [discriminate |].
  destruct (join_head (name' :: names) Hrest ltac:(discriminate))
    as (c & rest & Ej & W).
  change (RouteNames.join RouteNames.hyphen (name :: name' :: names))
    with (name ++ RouteNames.hyphen
               ++ RouteNames.join RouteNames.hyphen (name' :: names)).
  split.
  - unfold JSString.collapseSpaces in *. rewrite collapse_app.
    rewrite (trimmed_last false name Hn He), Hc. f_equal.
    change RouteNames.hyphen with [32; 45; 32]%N. cbn [app].
    change (JSString.collapseFrom false
              (32 :: 45 :: 32 :: RouteNames.join [32; 45; 32] (name' :: names)))%N
      with (32 :: 45 :: 32
            :: JSString.collapseFrom true
                 (RouteNames.join [32; 45; 32] (name' :: names)))%N.
    change [32; 45; 32]%N with RouteNames.hyphen.
    rewrite Ej, collapse_after_space by assumption. rewrite <- Ej.
    now rewrite IHc.
  - assert (Hj : JSString.trimEnd (RouteNames.join RouteNames.hyphen (name' :: names))
                 <> []) by (rewrite IHe, Ej; discriminate).
    assert (Hh : JSString.trimEnd
                   (RouteNames.hyphen
                    ++ RouteNames.join RouteNames.hyphen (name' :: names))
                 = RouteNames.hyphen
                   ++ RouteNames.join RouteNames.hyphen (name' :: names))
      by (rewrite trimEnd_app by exact Hj; now rewrite IHe).
    rewrite trimEnd_app; rewrite Hh; [reflexivity | discriminate].
Qed.

Lemma split_join (names : list text) (fuel : nat) :
  Forall RouteNames.placeName names -> names <> [] ->
  (length (RouteNames.join RouteNames.hyphen names) <= fuel)%nat ->
  JSString.splitWithin fuel RouteNames.hyphen
    (RouteNames.join RouteNames.hyphen names) = names.
Proof.
  intros H. revert fuel.
  induction H as [| name names (_ & _ & _ & Hh) Hrest IH]; intros fuel Hne Hfuel;
    [contradiction |].
  destruct names as [| name' names].
  - cbn [RouteNames.join] in *.
    destruct fuel; cbn [JSString.splitWithin]; [reflexivity |].
    now rewrite indexOf_hyphen_none.
  - change (RouteNames.join RouteNames.hyphen (name :: name' :: names))
      with (name ++ RouteNames.hyphen
                 ++ RouteNames.join RouteNames.hyphen (name' :: names)) in *.
    rewrite !length_app in Hfuel.
    change (length RouteNames.hyphen) with 3%nat in Hfuel.
    destruct fuel as [| fuel]; [lia |]. cbn [JSString.splitWithin].
    rewrite indexOf_hyphen_at by assumption.
    rewrite firstn_app, firstn_all, Nat.sub_diag. cbn [firstn]. rewrite app_nil_r.
    change (length RouteNames.hyphen) with 3%nat.
    rewrite skipn_app, skipn_all2 by lia.
    replace (length name + 3 - length name)%nat with 3%nat by lia.
    cbn [app]. change RouteNames.hyphen with [32; 45; 32]%N. cbn [app skipn].
    change [32; 45; 32]%N with RouteNames.hyphen.
    apply (f_equal (cons name)). apply IH; [discriminate | lia].
Qed.

(** X25.  A long name made of two or more place names joined by space,
    hyphen, space (each place name not empty, in cleaned form and
    without a hyphen) gives back the first place name as [from] and the
    last one as [to]; the places in between are dropped. *)
Theorem endpoints_of_joined_names (names : list text) :
  (2 <= length names)%nat ->
  Forall RouteNames.placeName names ->
  RouteNames.deriveRouteEndpoints (RouteNames.join RouteNames.hyphen names)
  = (hd [] names, last names []).
Proof.
  intros Hlen H.
  assert (Hne : names <> []) by (intros ->; cbn in Hlen; lia).
  destruct (join_head names H Hne) as (c & rest & Ej & W).
  destruct (join_clean names H Hne) as [Hc He].
  unfold RouteNames.deriveRouteEndpoints. rewrite Ej. rewrite <- Ej.
  rewrite Hc.
  assert (Ht : JSString.trim (RouteNames.join RouteNames.hyphen names)
               = RouteNames.join RouteNames.hyphen names).
  { unfold JSString.trim. rewrite Ej, trimStart_head by assumption.
    now rewrite <- Ej. }
  rewrite Ht. unfold RouteNames.trySplit, JSString.split.
  rewrite split_join by (auto; lia).
  replace (2 <=? length names)%nat with true by (symmetry; now apply Nat.leb_le).
  assert (Hfirst : RouteNames.placeName (nth 0 names [])).
  { apply (proj1 (Forall_forall _ _) H). apply nth_In. lia. }
  assert (Hlast : RouteNames.placeName (nth (length names - 1) names [])).
  { apply (proj1 (Forall_forall _ _) H). apply nth_In. lia. }
  destruct Hfirst as (_ & -> & _). destruct Hlast as (_ & -> & _).
  f_equal.
  - now destruct names.
  - clear. induction names as [| name [| name' names] IH]; [reflexivity | reflexivity |].
    cbn [length Nat.sub] in *. rewrite Nat.sub_0_r in *. exact IH.
Qed.

Lemma endpoints_of_joined_names_witness :
  RouteNames.deriveRouteEndpoints (units "Clongriffin - City Centre")
  = (units "Clongriffin", units "City Centre").
Proof.
  assert (Hlen : (2 <= length [units "Clongriffin"; units "City Centre"])%nat)
    by (cbn; lia).
  assert (H : Forall RouteNames.placeName [units "Clongriffin"; units "City Centre"]).
  { repeat constructor; try discriminate; try (now vm_compute);
      vm_compute; intuition discriminate. }
  exact (endpoints_of_joined_names [units "Clongriffin"; units "City Centre"] Hlen H).
Defined.
(** ** When a distance is zero *)

Lemma sin_nonzero (x : R) : - PI < x < PI -> x <> 0 -> sin x <> 0.
Proof.
  intros Hx Hne. destruct (Rlt_dec 0 x) as [Hpos | Hneg].
  - pose proof (sin_gt_0 x Hpos ltac:(lra)). lra.
  - assert (Hs : 0 < sin (- x)) by (apply sin_gt_0; lra).
    rewrite sin_neg in Hs. lra.
Qed.

Lemma centralAngle_pos (a : R) : 0 < a <= 1 -> 0 < centralAngle a.
Proof.
  intros Ha. unfold centralAngle, Math.Ratan2.
  assert (Hy : 0 < sqrt a) by (apply sqrt_lt_R0; lra).
  pose proof (sqrt_pos (1 - a)) as Hx. pose proof PI_RGT_0.
  destruct (Rlt_dec 0 (sqrt (1 - a))) as [Hpos | Hzero].
  - rewrite Rltb_true by assumption.
    assert (0 < atan (sqrt a / sqrt (1 - a))).
    { rewrite <- atan_0. apply atan_increasing. now apply Rdiv_lt_0_compat. }
    lra.
  - rewrite (Rltb_false 0 (sqrt (1 - a))) by lra.
    rewrite (Rltb_false (sqrt (1 - a)) 0) by lra.
    rewrite Rltb_true by assumption. lra.
Qed.

Lemma haversine_pos (lat1 lon1 lat2 lon2 : R) :
  -90 < lat1 < 90 -> -90 < lat2 < 90 -> -360 < lon2 - lon1 < 360 ->
  lat1 <> lat2 \/ lon1 <> lon2 ->
  0 < haversine lat1 lon1 lat2 lon2.
Proof.
  intros H1 H2 Hl Hne. unfold haversine. pose proof PI_RGT_0 as Hpi.
  set (h := (lat2 - lat1) * (PI / 180) / 2).
  set (g := (lon2 - lon1) * (PI / 180) / 2).
  assert (Hc1 : 0 < cos (lat1 * (PI / 180))) by (apply cos_gt_0; nra).
  assert (Hc2 : 0 < cos (lat2 * (PI / 180))) by (apply cos_gt_0; nra).
  assert (Hcc : 0 < cos (lat1 * (PI / 180)) * cos (lat2 * (PI / 180)))
    by now apply Rmult_lt_0_compat.
  pose proof (sin_sqr_bounds h) as [Hh _]. pose proof (sin_sqr_bounds g) as [Hg _].
  remember (cos (lat1 * (PI / 180)) * cos (lat2 * (PI / 180))) as cc.
  rewrite (Rmult_assoc cc).
  remember (sin h * sin h) as sh. remember (sin g * sin g) as sg.
  assert (Hprod : 0 <= cc * sg) by (apply Rmult_le_pos; lra).
  destruct (Req_dec_T lat1 lat2) as [El | Nl].
  - assert (Nlon : lon1 <> lon2) by tauto.
    assert (Hsg : 0 < sg).
    { subst sg. assert (sin g <> 0) by (apply sin_nonzero; unfold g; nra). nra. }
    assert (0 < cc * sg) by now apply Rmult_lt_0_compat.
    lra.
  - assert (Hsh : 0 < sh).
    { subst sh. assert (sin h <> 0) by (apply sin_nonzero; unfold h; nra). nra. }
    lra.
Qed.

Lemma greatCircleKm_zero (lat1 lon1 lat2 lon2 : R) :
  -90 < lat1 < 90 -> -90 < lat2 < 90 -> -360 < lon2 - lon1 < 360 ->
  greatCircleKm lat1 lon1 lat2 lon2 = 0 <-> lat1 = lat2 /\ lon1 = lon2.
Proof.
  intros H1 H2 Hl. split.
  - intros Hz.
    destruct (Req_dec_T lat1 lat2) as [El | Nl];
      [destruct (Req_dec_T lon1 lon2) as [Eo | No]; [tauto |] |];
      exfalso;
      pose proof (haversine_pos lat1 lon1 lat2 lon2 H1 H2 Hl ltac:(tauto)) as Hp;
      pose proof (haversine_bounds lat1 lon1 lat2 lon2) as [_ Hb];
      pose proof (centralAngle_pos _ (conj Hp Hb)) as Hc;
      unfold greatCircleKm in Hz; lra.
  - intros [-> ->]. apply greatCircleKm_same.
Qed.



Lemma totalKm_zero (pts : list (R * R)) :
  Forall offPoles pts ->
  totalKm pts = 0
  <-> forall j, (j < length pts)%nat -> nth j pts (0, 0) = nth 0 pts (0, 0).
Proof.
  intros Hv. unfold totalKm.
  assert (Hoff : forall j, (j < length pts)%nat -> offPoles (nth j pts (0, 0))).
  { intros j Hj. apply (proj1 (Forall_forall _ _) Hv). now apply nth_In. }
  assert (Hstep : forall j, (S j < length pts)%nat ->
            (greatCircleKm (fst (nth j pts (0, 0))) (snd (nth j pts (0, 0)))
               (fst (nth (S j) pts (0, 0))) (snd (nth (S j) pts (0, 0))) = 0
             <-> nth j pts (0, 0) = nth (S j) pts (0, 0))).
  { intros j Hj.
    destruct (Hoff j ltac:(lia)) as [Ha Hb]. destruct (Hoff (S j) Hj) as [Hc Hd].
    rewrite greatCircleKm_zero by lra.
    destruct (nth j pts (0, 0)) as [a b], (nth (S j) pts (0, 0)) as [c d].
    cbn [fst snd]. split; [intros [-> ->]; reflexivity | intros E; now injection E]. }
  assert (G : forall k, (k < length pts)%nat ->
            (arcLength pts k = 0
             <-> forall j, (j <= k)%nat -> nth j pts (0, 0) = nth 0 pts (0, 0))).
  { induction k as [| k IH]; intros Hk.
    - cbn [arcLength]. split; [| reflexivity].
      intros _ j Hj. now replace j with 0%nat by lia.
    - cbn [arcLength].
      pose proof (arcLength_nonneg pts k) as Hn.
      pose proof (greatCircleKm_nonneg (fst (nth k pts (0, 0))) (snd (nth k pts (0, 0)))
                    (fst (nth (S k) pts (0, 0))) (snd (nth (S k) pts (0, 0)))) as Hd.
      specialize (IH ltac:(lia)). specialize (Hstep k Hk). split.
      + intros Hz.
        assert (Hk0 : arcLength pts k = 0) by lra.
        assert (Hd0 : greatCircleKm (fst (nth k pts (0, 0))) (snd (nth k pts (0, 0)))
                        (fst (nth (S k) pts (0, 0))) (snd (nth (S k) pts (0, 0))) = 0)
          by lra.
        intros j Hj. destruct (Nat.eq_dec j (S k)) as [-> | Nj].
        * rewrite <- (proj1 Hstep Hd0). apply (proj1 IH Hk0). lia.
        * apply (proj1 IH Hk0). lia.
      + intros Hall.
        assert (Hk0 : arcLength pts k = 0)
          by (apply IH; intros j Hj; apply Hall; lia).
        assert (Hd0 : greatCircleKm (fst (nth k pts (0, 0))) (snd (nth k pts (0, 0)))
                        (fst (nth (S k) pts (0, 0))) (snd (nth (S k) pts (0, 0))) = 0).
        { apply Hstep. rewrite (Hall k), (Hall (S k)) by lia. reflexivity. }
        lra. }
  destruct pts as [| p pts'].
  - cbn. split; [intros _ j Hj; lia | reflexivity].
  - rewrite G by (cbn [length]; lia). cbn [length]. split.
    + intros H j Hj. apply H. lia.
    + intros H j Hj. apply H. lia.
Qed.


